(** * propresenter-sync: the synchronization engine, embedded and verified

    Part I embeds the TypeScript sources:
    - [electron/pp.ts]           title normalizer ([mapAlias], [normalizeTitle]),
                                 connection probe ([testConnection]) and
                                 library matching ([matchPresentations]);
    - [electron/pco.ts]          plan ingestion ([getNextPlan]), notes
                                 ([stripHtml], [normalizeWhitespace],
                                 [extractNotes]), categories
                                 ([classifyPlanItem]), the local environment
                                 file ([loadDotEnvOnce]) and, in its version
                                 with song details, the lyric segmenter
                                 ([normalizeLyricBlock], [splitLyricLine],
                                 [buildLyricSlides], [enrichSectionLyrics]);
    - [electron/playlistSync.ts] playlist differ ([syncPlaylist]);
    - [electron/main.ts]         media matching ([selectMediaMatch]), the
                                 orchestrator ([runPresentationSync]),
                                 categories ([resolvePlanItemCategory]),
                                 transition topics and their media
                                 ([extractTransitionTopics],
                                 [deriveTopicOverrides],
                                 [findManualMediaMatch], [normalizeMediaKey]),
                                 lower-third names ([extractBracketedName])
                                 and the local environment file
                                 ([loadLocalEnvOnce]).
    Part II states and proves their properties.

    JavaScript strings are sequences of UTF-16 code units; they are modelled
    as [list N].  The Unicode tables of the runtime (case mapping, NFKD,
    general categories) are a record [UnicodeTables] constrained on the ASCII
    range, where the standard fixes them.  Awaited calls of collaborators
    (plan source, presentation host, rewrite tool, process control) are
    fields of a record of answers; a call returns or throws.  Numbers are
    IEEE 754 binary64 values, with the arithmetic of the standard library's
    specification of floating point ([Number]).  The regular
    expressions of the sources are terms of a small pattern language, run by
    a backtracking matcher ([Regex]). *)

From Stdlib Require Import NArith ZArith List Bool Lia String Ascii Permutation.
From stdpp Require Import gmap.
From Stdlib Require SpecFloat.
Import ListNotations.

Local Open Scope N_scope.

(** ** JavaScript strings *)

Module JS.

Abbreviation str := (list N).

(** A string literal of the source, as code units. *)
Definition lit (s : string) : str :=
  List.map N_of_ascii (list_ascii_of_string s).

(** [WhiteSpace] and [LineTerminator] of ECMAScript: what [String.prototype.trim]
    strips and what [\s] matches. *)
Definition isWhite (c : N) : bool :=
  ((9 <=? c) && (c <=? 13)) || (c =? 32) || (c =? 160) || (c =? 5760)
  || ((8192 <=? c) && (c <=? 8202)) || (c =? 8232) || (c =? 8233)
  || (c =? 8239) || (c =? 8287) || (c =? 12288) || (c =? 65279).

Fixpoint trimStart (s : str) : str :=
  match s with
  | c :: r => if isWhite c then trimStart r else s
  | [] => []
  end.

Definition trimEnd (s : str) : str := rev (trimStart (rev s)).

Definition trim (s : str) : str := trimEnd (trimStart s).

Definition isEmpty (s : str) : bool :=
  match s with [] => true | _ => false end.

(** [x === y] on strings. *)
Fixpoint eqb (x y : str) : bool :=
  match x, y with
  | [], [] => true
  | a :: x', b :: y' => (a =? b) && eqb x' y'
  | _, _ => false
  end.

(** [s.split(sep)] for a one-unit separator: never returns the empty array. *)
Fixpoint split (sep : N) (s : str) : list str :=
  match s with
  | [] => [[]]
  | c :: r =>
      if c =? sep then [] :: split sep r
      else match split sep r with
           | h :: t => (c :: h) :: t
           | [] => [[c]]
           end
  end.

(** [parts.join(sep)]. *)
Fixpoint join (sep : str) (parts : list str) : str :=
  match parts with
  | [] => []
  | [p] => p
  | p :: ps => p ++ sep ++ join sep ps
  end.

Fixpoint startsWith (s p : str) : bool :=
  match p, s with
  | [], _ => true
  | _ :: _, [] => false
  | a :: p', b :: s' => (a =? b) && startsWith s' p'
  end.

(** [s.includes(sub)]. *)
Fixpoint includes (s sub : str) : bool :=
  startsWith s sub ||
  match s with
  | [] => false
  | _ :: r => includes r sub
  end.

(** [s.slice(a, b)] and [s.slice(a)] for indices inside the string. *)
Definition slice (s : str) (a b : nat) : str := firstn (b - a) (skipn a s).
Definition sliceFrom (s : str) (a : nat) : str := skipn a s.

(** [s.indexOf(c, from)]: first index [>= from] holding [c], or [-1]. *)
Fixpoint indexOfFrom (c : N) (s : str) (i from : nat) : Z :=
  match s with
  | [] => (-1)%Z
  | x :: r =>
      if (from <=? i)%nat && (x =? c) then Z.of_nat i
      else indexOfFrom c r (S i) from
  end.
Definition indexOf (s : str) (c : N) (from : nat) : Z := indexOfFrom c s 0 from.

(** [s.lastIndexOf(c, from)]: last index [<= from] holding [c], or [-1]. *)
Fixpoint lastIndexOfUpto (c : N) (s : str) (i from : nat) (found : Z) : Z :=
  match s with
  | [] => found
  | x :: r =>
      if (i <=? from)%nat
      then lastIndexOfUpto c r (S i) from (if x =? c then Z.of_nat i else found)
      else found
  end.
Definition lastIndexOf (s : str) (c : N) (from : nat) : Z :=
  lastIndexOfUpto c s 0 from (-1)%Z.

(** [s.replace(/[C]+/g, ' ')] for a character class [C]: every maximal run
    of units in the class becomes one space.  [inRun] tells that the previous
    unit was in the class. *)
Fixpoint replaceRuns (inClass : N -> bool) (inRun : bool) (s : str) : str :=
  match s with
  | [] => []
  | c :: r =>
      if inClass c
      then (if inRun then replaceRuns inClass true r
            else 32 :: replaceRuns inClass true r)
      else c :: replaceRuns inClass false r
  end.

(** [s.replace(/\s+/g, ' ')] and [s.replace(/\s+/g, '')]. *)
Definition collapseWhite (s : str) : str := replaceRuns isWhite false s.
Definition removeWhite (s : str) : str := List.filter (fun c => negb (isWhite c)) s.

End JS.

(** ** Unicode tables of the runtime

    [toLowerCase], [normalize('NFKD')] and the general categories [\p{P}],
    [\p{S}] are given by the Unicode character database of the JavaScript
    engine.  The sources only rely on them through these three operations;
    the laws state what every conforming engine does on ASCII text. *)

Module Unicode.

Definition isAscii (c : N) : bool := c <? 128.

(** [A-Z] to [a-z], every other unit unchanged. *)
Definition lowerUnit (c : N) : N :=
  if (65 <=? c) && (c <=? 90) then c + 32 else c.

(** The 32 ASCII characters of general categories P and S: the code units
    33-47, 58-64, 91-96 and 123-126 (every printable ASCII character that is
    neither a letter, a digit nor the space). *)
Definition asciiPunct (c : N) : bool :=
  ((33 <=? c) && (c <=? 47)) || ((58 <=? c) && (c <=? 64))
  || ((91 <=? c) && (c <=? 96)) || ((123 <=? c) && (c <=? 126)).

Record UnicodeTables : Type := {
  toLowerCase : JS.str -> JS.str;
  normalizeNFKD : JS.str -> JS.str;
  (** on code points: general category P or S *)
  isPunctOrSymbol : N -> bool;
  toLowerCase_ascii :
    forall s, forallb isAscii s = true -> toLowerCase s = List.map lowerUnit s;
  normalizeNFKD_ascii :
    forall s, forallb isAscii s = true -> normalizeNFKD s = s;
  isPunctOrSymbol_ascii :
    forall c, isAscii c = true -> isPunctOrSymbol c = asciiPunct c
}.

(** The tables restricted to ASCII: every unit outside ASCII is left alone.
    They agree with the engine's tables on ASCII text and are used to run the
    functions on ASCII inputs. *)
Definition asciiTables : UnicodeTables := {|
  toLowerCase := List.map lowerUnit;
  normalizeNFKD := fun s => s;
  isPunctOrSymbol := asciiPunct;
  toLowerCase_ascii := fun _ _ => eq_refl;
  normalizeNFKD_ascii := fun _ _ => eq_refl;
  isPunctOrSymbol_ascii := fun _ _ => eq_refl
|}.

Definition isHighSurrogate (c : N) : bool := (55296 <=? c) && (c <=? 56319).
Definition isLowSurrogate (c : N) : bool := (56320 <=? c) && (c <=? 57343).
Definition codePoint (hi lo : N) : N := 65536 + (hi - 55296) * 1024 + (lo - 56320).

End Unicode.

(** ** Lyric segmenter (electron/pco.ts) *)

Module Lyrics.
Import JS Unicode.

Definition MAX_LYRIC_LINE_LENGTH : nat := 48.

(** [value.replace(/[\p{P}\p{S}]/gu, '')]: with the [u] flag the pattern
    ranges over code points, so a surrogate pair is tested, and removed, as
    one character. *)
Fixpoint removePunct (U : UnicodeTables) (s : str) : str :=
  match s with
  | [] => []
  | hi :: r =>
      match r with
      | lo :: r' =>
          if isHighSurrogate hi && isLowSurrogate lo then
            if isPunctOrSymbol U (codePoint hi lo) then removePunct U r'
            else hi :: lo :: removePunct U r'
          else if isPunctOrSymbol U hi then removePunct U r
          else hi :: removePunct U r
      | [] => if isPunctOrSymbol U hi then [] else [hi]
      end
  end.

Definition sanitizeLyric (U : UnicodeTables) (value : str) : str :=
  trim (collapseWhite (removePunct U value)).

(** The [while] loop of [splitLyricLine].  [remaining] gets strictly shorter
    in every round, so [length remaining] rounds are enough
    ([splitLoop_fuel] below); the loop leaves with its two variables. *)
Fixpoint splitLoop (fuel maxLength : nat) (segments : list str) (remaining : str)
  : list str * str :=
  if (length remaining <=? maxLength)%nat then (segments, remaining)
  else
    match fuel with
    | O => (segments, remaining)
    | S fuel' =>
        let breakIdx := lastIndexOf remaining 32 maxLength in
        let breakIdx :=
          if (breakIdx <=? 0)%Z then indexOf remaining 32 maxLength else breakIdx in
        if (breakIdx <=? 0)%Z then (segments, remaining)
        else
          let head := trim (slice remaining 0 (Z.to_nat breakIdx)) in
          let segments := if isEmpty head then segments else segments ++ [head] in
          splitLoop fuel' maxLength segments
            (trim (sliceFrom remaining (Z.to_nat breakIdx)))
    end.

Definition splitLyricLineMax (line : str) (maxLength : nat) : list str :=
  let '(segments, remaining) :=
    splitLoop (length (trim line)) maxLength [] (trim line) in
  let segments := if isEmpty remaining then segments else segments ++ [remaining] in
  match segments with
  | [] => [trim line]
  | _ => segments
  end.

Definition splitLyricLine (line : str) : list str :=
  splitLyricLineMax line MAX_LYRIC_LINE_LENGTH.

(** [input.replace(/\r\n?/g, '\n')]. *)
Fixpoint replaceCarriageReturns (s : str) : str :=
  match s with
  | [] => []
  | 13 :: r =>
      match r with
      | 10 :: r' => 10 :: replaceCarriageReturns r'
      | _ => 10 :: replaceCarriageReturns r
      end
  | c :: r => c :: replaceCarriageReturns r
  end.

(** [s.replace(/\u00a0/g, ' ')]. *)
Definition replaceNoBreakSpaces (s : str) : str :=
  List.map (fun c => if c =? 160 then 32 else c) s.

(** [line.replace(/\s+$/g, '').replace(/^\s+/g, '')]. *)
Definition stripEnds (line : str) : str := trimStart (trimEnd line).

(** [start] and [end] of [normalizeLyricBlock]: drop the blank lines at both
    ends of the block. *)
Fixpoint dropBlankPrefix (lines : list str) : list str :=
  match lines with
  | l :: r => if isEmpty (trim l) then dropBlankPrefix r else lines
  | [] => []
  end.
Definition dropBlankEnds (lines : list str) : list str :=
  rev (dropBlankPrefix (rev (dropBlankPrefix lines))).

Definition expandLine (U : UnicodeTables) (line : str) : list str :=
  if isEmpty (trim line) then []
  else
    let sanitized := sanitizeLyric U line in
    if isEmpty sanitized then [] else splitLyricLine sanitized.

Definition normalizeLyricBlock (U : UnicodeTables) (input : str) : str :=
  let normalized := replaceNoBreakSpaces (replaceCarriageReturns input) in
  let rawLines := split 10 normalized in
  let trimmed := List.map stripEnds rawLines in
  match dropBlankEnds trimmed with
  | [] => []
  | slice => join [10] (flat_map (expandLine U) slice)
  end.

(** The three local variables of [buildLyricSlides]. *)
Record builder : Type := {
  expanded : list str;
  slides : list (list str);
  current : list str
}.

Definition flush (b : builder) : builder :=
  match current b with
  | [] => b
  | _ => {| expanded := expanded b; slides := slides b ++ [current b]; current := [] |}
  end.

Definition flushIfFull (b : builder) : builder :=
  if (length (current b) =? 2)%nat then flush b else b.

(** Body of the inner loop over [parts]. *)
Definition pushPart (b : builder) (part : str) : builder :=
  let segment := trim part in
  if isEmpty segment then b
  else
    let b := {| expanded := expanded b ++ [segment];
                slides := slides b; current := current b |} in
    let b := flushIfFull b in
    let b := {| expanded := expanded b; slides := slides b;
                current := current b ++ [segment] |} in
    flushIfFull b.

(** Body of the outer loop over [lines]. *)
Definition pushLine (b : builder) (raw : str) : builder :=
  let trimmed := trim raw in
  if isEmpty trimmed then flush b
  else fold_left pushPart (splitLyricLine trimmed) b.

Definition buildLyricSlides (lines : list str) : list str * list (list str) :=
  let b := flush (fold_left pushLine lines
                    {| expanded := []; slides := []; current := [] |}) in
  (expanded b, slides b).

(** The fields [enrichSectionLyrics] sets on a section. *)
Record sectionLyrics : Type := {
  lyrics : option str;
  lyricLines : option (list str);
  lyricSlides : option (list (list str))
}.

Definition nonEmptyArray {A} (l : list A) : option (list A) :=
  match l with [] => None | _ => Some l end.

Definition enrichSectionLyrics (lyr : option str) : sectionLyrics :=
  match lyr with
  | None | Some [] => {| lyrics := lyr; lyricLines := None; lyricSlides := None |}
  | Some text =>
      let baseLines := List.map stripEnds (split 10 text) in
      let '(lines, slides) := buildLyricSlides baseLines in
      {| lyrics := lyr; lyricLines := nonEmptyArray lines;
         lyricSlides := nonEmptyArray slides |}
  end.

(** [coerceSectionArray], a section whose lyrics source is a string:
    [if (typeof raw === 'string' && raw.trim()) section.lyrics =
    normalizeLyricBlock(raw); enrichSectionLyrics(section)]. *)
Definition sectionFromLyrics (U : UnicodeTables) (raw : str) : sectionLyrics :=
  enrichSectionLyrics
    (if isEmpty (trim raw) then None else Some (normalizeLyricBlock U raw)).

End Lyrics.

(** ** Title normalizer (electron/pp.ts) *)

Module Title.
Import JS Unicode.

(** [s.replace(/\([^)]*\)/g, ' ')] and its bracket twin: every group from an
    opening unit to the first closing unit after it becomes one space.
    [pending] holds, reversed, the units read since an opening unit that has
    not met its closing unit yet; an opening unit that never meets one stays,
    with everything after it. *)
Fixpoint stripGroup (opening closing : N) (pending : option str) (s : str) : str :=
  match s with
  | [] =>
      match pending with
      | None => []
      | Some skipped => opening :: rev skipped
      end
  | x :: r =>
      match pending with
      | None =>
          if x =? opening then stripGroup opening closing (Some []) r
          else x :: stripGroup opening closing None r
      | Some skipped =>
          if x =? closing then 32 :: stripGroup opening closing None r
          else stripGroup opening closing (Some (x :: skipped)) r
      end
  end.

Definition stripParens (s : str) : str := stripGroup 40 41 None s.
Definition stripBrackets (s : str) : str := stripGroup 91 93 None s.

(** [\w] of a regular expression without flags. *)
Definition isWordChar (c : N) : bool :=
  ((48 <=? c) && (c <=? 57)) || ((65 <=? c) && (c <=? 90))
  || ((97 <=? c) && (c <=? 122)) || (c =? 95).

(** [\b] after a word character: the end of the string or a non-word unit. *)
Definition boundaryAfter (rest : str) : bool :=
  match rest with
  | [] => true
  | c :: _ => negb (isWordChar c)
  end.

(** [\s+] followed by the literal [word]: the white space is taken whole, the
    literal starts with a non-white unit. *)
Definition afterSpaces (rest word : str) : option str :=
  match rest with
  | c :: _ =>
      if isWhite c && startsWith (trimStart rest) word
      then Some (skipn (length word) (trimStart rest))
      else None
  | [] => None
  end.

(** [/\bclosing\s+worship(\s+song)?\b/] tried at one position, the boundary
    before it already checked. *)
Definition aliasMatchHere (s : str) : bool :=
  startsWith s (lit "closing") &&
  match afterSpaces (skipn 7 s) (lit "worship") with
  | None => false
  | Some rest =>
      match afterSpaces rest (lit "song") with
      | Some rest' => boundaryAfter rest' || boundaryAfter rest
      | None => boundaryAfter rest
      end
  end.

(** [/\bclosing\s+worship(\s+song)?\b/.test(s)]; [prevWord] tells whether the
    unit before the position is a word character. *)
Fixpoint aliasTest (prevWord : bool) (s : str) : bool :=
  (negb prevWord && aliasMatchHere s) ||
  match s with
  | [] => false
  | c :: r => aliasTest (isWordChar c) r
  end.

Definition mapAlias (U : UnicodeTables) (s : str) : str :=
  let low := toLowerCase U s in
  if aliasTest false low then lit "closing worship" else s.

(** The class [[^a-z0-9]]. *)
Definition notLowerAlnum (c : N) : bool :=
  negb (((97 <=? c) && (c <=? 122)) || ((48 <=? c) && (c <=? 57))).

Definition normalizeTitle (U : UnicodeTables) (s : str) : str :=
  let t := stripBrackets (stripParens s) in
  let t := mapAlias U t in
  trim (replaceRuns notLowerAlnum false (normalizeNFKD U (toLowerCase U t))).

End Title.

(** ** Plan ingestion (electron/pco.ts, [getNextPlan]) *)

Module Plan.
Import JS Unicode.

Inductive kind : Type := song | video | announcement.

Inductive category : Type :=
  Song | Message | Transitions | Videos | PreService | PostService.

(** [attributes] of one node of the items response, with the fields
    [getNextPlan] reads.  Numbers of the response are integers. *)
Record attributes : Type := {
  item_type : option str;
  a_category : option str;
  a_title : option str;
  a_description : option str;
  a_sequence : option Z;
  a_position : option Z;
  a_length : option Z;
  a_length_seconds : option Z;
  a_length_in_seconds : option Z
}.

Record node : Type := { node_id : str; node_attributes : option attributes }.

Definition noAttributes : attributes :=
  {| item_type := None; a_category := None; a_title := None;
     a_description := None; a_sequence := None; a_position := None;
     a_length := None; a_length_seconds := None; a_length_in_seconds := None |}.

(** [node?.attributes || {}]. *)
Definition attrs (n : node) : attributes :=
  match node_attributes n with Some a => a | None => noAttributes end.

(** [x || y] on optional strings: the empty string is falsy. *)
Definition orStr (x : option str) (y : option str) : option str :=
  match x with
  | Some (_ :: _) => x
  | _ => y
  end.

Definition orElse (x : option str) (d : str) : str :=
  match x with
  | Some (c :: r) => c :: r
  | _ => d
  end.

Record PCOPlanItem : Type := {
  id : str;
  item_kind : kind;
  title : str;
  order : Z;
  description : option str;
  notes : option str;
  item_category : category;
  isHeader : option bool;
  lengthSeconds : option Z
}.

Section Ingest.

Variable U : UnicodeTables.
(** [classifyPlanItem] and [extractNotes] of the same file; the slicing does
    not look into what they return. *)
Variable classifyPlanItem : kind -> str -> bool -> category.
Variable extractNotes : attributes -> option str * option str.

Definition itemTypeOf (a : attributes) : str :=
  toLowerCase U (orElse (orStr (item_type a) (a_category a)) []).

Definition isHeaderType (itemType : str) : bool :=
  eqb itemType (lit "header").

Definition kindOf (itemType : str) : kind :=
  if isHeaderType itemType then announcement
  else if includes itemType (lit "song") then song
  else if includes itemType (lit "media") || includes itemType (lit "video") then video
  else announcement.

Definition titleOf (a : attributes) : str :=
  orElse (orStr (a_title a) (a_description a)) (lit "Untitled").

Definition orderOf (a : attributes) (built : nat) : Z :=
  match a_sequence a with
  | Some n => n
  | None => match a_position a with
            | Some n => n
            | None => Z.of_nat built + 1
            end
  end.

Definition lengthOf (a : attributes) : option Z :=
  match a_length a with
  | Some n => Some n
  | None => match a_length_seconds a with
            | Some n => Some n
            | None => a_length_in_seconds a
            end
  end.

(** Body of the first loop: [items.push({...})]. *)
Definition ingestNode (items : list PCOPlanItem) (it : node) : list PCOPlanItem :=
  let a := attrs it in
  let itemType := itemTypeOf a in
  let header := isHeaderType itemType in
  let k := kindOf itemType in
  let noteFields := extractNotes a in
  items ++ [{| id := node_id it; item_kind := k; title := titleOf a;
               order := orderOf a (length items);
               description := fst noteFields; notes := snd noteFields;
               item_category := classifyPlanItem k (titleOf a) header;
               isHeader := Some header; lengthSeconds := None |}].

(** Body of the loop over [sliced]: [rebuilt.push(item)]. *)
Definition rebuildNode (rebuilt : list PCOPlanItem) (n : node) : list PCOPlanItem :=
  let a := attrs n in
  let itemType := itemTypeOf a in
  let header := isHeaderType itemType in
  let k := kindOf itemType in
  let noteFields := extractNotes a in
  rebuilt ++ [{| id := node_id n; item_kind := k; title := titleOf a;
                 order := orderOf a (length rebuilt);
                 description := fst noteFields; notes := snd noteFields;
                 item_category := classifyPlanItem k (titleOf a) header;
                 isHeader := if header then Some true else None;
                 lengthSeconds := lengthOf a |}].

(** [norm]: [String(s ?? '').trim().toLowerCase().replace(/\s+/g, ' ')]. *)
Definition norm (s : str) : str := collapseWhite (toLowerCase U (trim s)).

(** [/^service\b/.test(t)]. *)
Definition startsWithServiceWord (t : str) : bool :=
  startsWith t (lit "service") && Title.boundaryAfter (skipn 7 t).

Definition isServiceHeader (n : node) : bool :=
  let a := attrs n in
  let header := isHeaderType (itemTypeOf a) in
  let t := norm (orElse (orStr (a_title a) (a_description a)) []) in
  if negb header then false
  else if startsWith t (lit "pre-service") || startsWith t (lit "post-service") then false
  else startsWithServiceWord t.

(** [data.findIndex(isServiceHeader)], [None] for [-1]. *)
Fixpoint findIndex (p : node -> bool) (data : list node) : option nat :=
  match data with
  | [] => None
  | n :: r => if p n then Some O
              else match findIndex p r with
                   | Some i => Some (S i)
                   | None => None
                   end
  end.

(** The items response: its status and [json.data] when that is an array. *)
Record itemsResponse : Type := { status : Z; data : option (list node) }.

(** The [items] of the returned plan: the part of [getNextPlan] from the
    items request on. *)
Definition planItems (itemsResp : itemsResponse) : list PCOPlanItem :=
  let items :=
    match data itemsResp with
    | Some d =>
        if (200 <=? status itemsResp)%Z && (status itemsResp <? 300)%Z
        then fold_left ingestNode d []
        else []
    | None => []
    end in
  match data itemsResp with
  | Some d =>
      match findIndex isServiceHeader d with
      | Some startIdx => fold_left rebuildNode (skipn startIdx d) []
      | None => items
      end
  | None => items
  end.

End Ingest.

End Plan.

(** ** Playlist differ (electron/playlistSync.ts, [syncPlaylist]) *)

Module Playlist.
Import JS Unicode.

Inductive itemType : Type := header | presentation.

Record sourceItem : Type := { type : itemType; title : str }.

Record payload : Type := {
  host : str;
  port : Z;
  name : str;
  titles : option (list str);
  items : option (list sourceItem)
}.

(** An entry of [refsByNorm]. *)
Record libraryRef : Type := { library_id : str; ref_id : str; ref_name : str }.

(** An element of [desired], the body of the replacing PUT; the header colour
    is a constant of the source. *)
Inductive desiredItem : Type :=
| DesiredPresentation (uuid : str)
| DesiredHeader (name : str) (index : nat).

(** An element of the [items] array of the current playlist, as far as
    [currentRefs] looks at it: its [type] and [id.uuid] or [id.name]. *)
Inductive currentItem : Type :=
| CurrentPresentation (uuid : option str)
| CurrentHeader (name : option str)
| CurrentOther.

(** What the presentation host answers during one call. *)
Record hostAnswers : Type := {
  (** the index built from [/v1/libraries] and [/v1/library/{id}] *)
  refsByNorm : gmap str (list libraryRef);
  (** the playlist of that normalized name found in [/v1/playlists] *)
  foundPlaylist : option str;
  (** status and [json.id] of the creating POST *)
  createStatus : Z;
  createId : option str;
  currentItems : list currentItem;
  putStatus : Z
}.

Inductive syncError : Type :=
| MissingHostPort
| NoPlaylist
| PutStatus (status : Z).

Record syncResult : Type := {
  ok : bool;
  changed : bool;
  created : option bool;
  playlistId : option str;
  totalDesired : nat;
  totalResolved : nat;
  error : option syncError
}.

(** The writing requests a call sends. *)
Inductive request : Type :=
| PostCreate (name : str)
| PutReplace (playlist : str) (body : list desiredItem).

Definition is2xx (s : Z) : bool := (200 <=? s)%Z && (s <? 300)%Z.

Definition nonEmpty (o : option str) : option str :=
  match o with
  | Some (c :: r) => Some (c :: r)
  | _ => None
  end.

Section Sync.

Variable U : UnicodeTables.

(** [desiredSource]. *)
Definition desiredSource (p : payload) : list sourceItem :=
  match items p with
  | Some (i :: r) => i :: r
  | _ =>
      List.map (fun t => {| type := presentation; title := t |})
        (match titles p with Some ts => ts | None => [] end)
  end.

(** The loop filling [desired]; [i] is the loop index. *)
Fixpoint buildDesired (refs : gmap str (list libraryRef)) (i : nat)
  (source : list sourceItem) : list desiredItem :=
  match source with
  | [] => []
  | it :: rest =>
      match type it with
      | header => DesiredHeader (title it) i :: buildDesired refs (S i) rest
      | presentation =>
          match refs !! Title.normalizeTitle U (title it) with
          | Some (ref :: _) => DesiredPresentation (ref_id ref) :: buildDesired refs (S i) rest
          | _ => buildDesired refs (S i) rest
          end
      end
  end.

Definition currentRef (it : currentItem) : str :=
  match it with
  | CurrentPresentation (Some (c :: r)) => lit "p:" ++ c :: r
  | CurrentHeader (Some (c :: r)) => lit "h:" ++ Title.normalizeTitle U (c :: r)
  | _ => []
  end.

(** [currentItems.map(...).filter(Boolean)]. *)
Definition currentRefs (cur : list currentItem) : list str :=
  List.filter (fun r => negb (isEmpty r)) (List.map currentRef cur).

Definition desiredRef (d : desiredItem) : str :=
  match d with
  | DesiredPresentation uuid => lit "p:" ++ uuid
  | DesiredHeader name _ => lit "h:" ++ Title.normalizeTitle U name
  end.

Definition desiredRefs (desired : list desiredItem) : list str :=
  List.map desiredRef desired.

End Sync.

(** [xs.every((x, i) => x === ys[i])], from index [i] on; [ys[i]] is
    [undefined] past the end of [ys]. *)
Fixpoint everySame (xs ys : list str) (i : nat) : bool :=
  match xs with
  | [] => true
  | x :: r =>
      match nth_error ys i with
      | Some y => eqb x y && everySame r ys (S i)
      | None => false
      end
  end.

(** [equal] of [syncPlaylist]: the differ. *)
Definition refsEqual (currentRefs desiredRefs : list str) : bool :=
  (length currentRefs =? length desiredRefs)%nat && everySame currentRefs desiredRefs 0.

Definition syncPlaylist (U : UnicodeTables) (p : payload) (h : hostAnswers)
  : syncResult * list request :=
  let source := desiredSource p in
  if isEmpty (host p) || (port p =? 0)%Z then
    ({| ok := false; changed := false; created := None; playlistId := None;
        totalDesired := length source; totalResolved := 0;
        error := Some MissingHostPort |}, [])
  else
    let desired := buildDesired U (refsByNorm h) 0 source in
    let totalDesired := length source in
    let totalResolved := length desired in
    let '(playlist, created, sent) :=
      match nonEmpty (foundPlaylist h) with
      | Some pl => (Some pl, false, [])
      | None =>
          match (if is2xx (createStatus h) then nonEmpty (createId h) else None) with
          | Some pl => (Some pl, true, [PostCreate (name p)])
          | None => (None, false, [PostCreate (name p)])
          end
      end in
    match playlist with
    | None =>
        ({| ok := false; changed := false; created := None; playlistId := None;
            totalDesired := length (match titles p with Some ts => ts | None => [] end);
            totalResolved := length desired;
            error := Some NoPlaylist |}, sent)
    | Some pl =>
        if refsEqual (currentRefs U (currentItems h)) (desiredRefs U desired) then
          ({| ok := true; changed := false; created := Some created;
              playlistId := Some pl; totalDesired := totalDesired;
              totalResolved := totalResolved; error := None |}, sent)
        else
          let sent := sent ++ [PutReplace pl desired] in
          if is2xx (putStatus h) then
            ({| ok := true; changed := true; created := Some created;
                playlistId := Some pl; totalDesired := totalDesired;
                totalResolved := totalResolved; error := None |}, sent)
          else
            ({| ok := false; changed := false; created := Some created;
                playlistId := Some pl; totalDesired := totalDesired;
                totalResolved := totalResolved;
                error := Some (PutStatus (putStatus h)) |}, sent)
    end.

End Playlist.

(** ** JavaScript numbers

    A number is an IEEE 754 binary64 value; the arithmetic is that of the
    standard library's specification of binary floating point, at precision
    53 and maximal exponent 1024, rounding to nearest, ties to even. *)

Module Number.

Definition number : Type := SpecFloat.spec_float.

Definition add : number -> number -> number := SpecFloat.SFadd 53 1024.
Definition sub : number -> number -> number := SpecFloat.SFsub 53 1024.
Definition div : number -> number -> number := SpecFloat.SFdiv 53 1024.

(** The number an integer literal, or a field holding an integer, denotes:
    the integer itself when binary64 holds it, as it does every integer up
    to 2^53 in magnitude, and the nearest number otherwise. *)
Definition ofZ (z : Z) : number := SpecFloat.binary_normalize 53 1024 z 0 false.

(** [a > b], [a >= b] and [a === b]. *)
Definition gt (a b : number) : bool := SpecFloat.SFltb b a.
Definition ge (a b : number) : bool := SpecFloat.SFleb b a.
Definition strictEq (a b : number) : bool := SpecFloat.SFeqb a b.

(** [Number.isFinite(x)]. *)
Definition isFinite (x : number) : bool :=
  match x with
  | SpecFloat.S754_zero _ | SpecFloat.S754_finite _ _ _ => true
  | _ => false
  end.

(** [Math.max(0, x)]: [NaN] for [NaN], and [+0] for [-0]. *)
Definition max0 (x : number) : number :=
  match x with
  | SpecFloat.S754_nan => SpecFloat.S754_nan
  | _ => if gt x (ofZ 0) then x else ofZ 0
  end.

End Number.

(** ** Media matching (electron/main.ts, [selectMediaMatch]) *)

Module Media.
Import JS Unicode Number.

Record MediaPlaylistItem : Type := {
  uuid : str;
  name : str;
  (** epoch milliseconds *)
  updatedAt : option Z;
  keywords : list str;
  filePath : option str
}.

(** [MediaPlaylistItem & { score: number }]. *)
Record MediaMatch : Type := { item : MediaPlaylistItem; score : number }.

Definition TRANSITION_TOPIC_STOP_WORDS : gset str :=
  list_to_set (List.map lit
    ["the"; "and"; "for"; "with"; "from"; "into"; "after"; "next"; "step";
     "story"; "jr"; "jr."; "grades"; "grade"; "service"; "news"]%string).

Definition MIN_TRANSITION_MEDIA_SCORE : number := ofZ 15.

(** [s.split(/\s+/)]: the pieces between the maximal runs of white space,
    empty pieces at the ends included. *)
Fixpoint splitWhite (inRun : bool) (s : str) : list str :=
  match s with
  | [] => [[]]
  | c :: r =>
      if isWhite c
      then (if inRun then splitWhite true r else [] :: splitWhite true r)
      else match splitWhite false r with
           | h :: t => (c :: h) :: t
           | [] => [[c]]
           end
  end.

(** [topic.toLowerCase().replace(/[^a-z0-9]+/g, ' ').trim()]. *)
Definition canonicalTopic (U : UnicodeTables) (topic : str) : str :=
  trim (replaceRuns Title.notLowerAlnum false (toLowerCase U topic)).

Definition significant (token : str) : bool :=
  (3 <=? length token)%nat && negb (bool_decide (token ∈ TRANSITION_TOPIC_STOP_WORDS)).

Definition topicTokens (canonical : str) : list str :=
  List.filter significant (splitWhite false canonical).

(** [Math.max(3, Math.ceil(token.length * 0.6))]; the ceiling of three fifths
    of a length is taken on integers. *)
Definition partialLength (n : nat) : nat := Nat.max 3 ((3 * n + 4) / 5).

(** Body of [for (const token of tokens)]. *)
Definition tokenScore (hayString hayCompact : str) (score : number) (token : str)
  : number :=
  if includes hayString token then add score (ofZ 10)
  else if includes hayCompact token then add score (ofZ 6)
  else if (5 <=? length token)%nat then
    let partial := firstn (partialLength (length token)) token in
    if negb (isEmpty partial) && includes hayString partial then add score (ofZ 2)
    else score
  else score.

(** [if (item.updatedAt) { ... score += recency }]; [now] is the reading of
    [Date.now()], in milliseconds as the update time is.  The difference, the
    quotient by the milliseconds of a day, the difference from 10 and the sum
    are those of the numbers, each rounded. *)
Definition recencyScore (now : Z) (it : MediaPlaylistItem) (score : number) : number :=
  match updatedAt it with
  | Some t =>
      if (t =? 0)%Z then score
      else
        let ageDays := div (sub (ofZ now) (ofZ t)) (ofZ 86400000) in
        if isFinite ageDays then
          let recency := max0 (sub (ofZ 10) ageDays) in
          add score recency
        else score
  | None => score
  end.

(** The score the loop body computes for one item. *)
Definition itemScore (U : UnicodeTables) (now : Z) (topic : str) (it : MediaPlaylistItem)
  : number :=
  let canonical := canonicalTopic U topic in
  let compactTopic := removeWhite canonical in
  let tokens := topicTokens canonical in
  let hay := List.map (toLowerCase U) (keywords it) in
  let hayString := join [32] hay in
  let hayCompact := removeWhite hayString in
  let score := ofZ 0 in
  let score := if includes hayString canonical then add score (ofZ 30) else score in
  let score :=
    if negb (isEmpty compactTopic) && includes hayCompact compactTopic
    then add score (ofZ 15) else score in
  let nameLow := toLowerCase U (name it) in
  let score := if includes nameLow (toLowerCase U topic) then add score (ofZ 8) else score in
  let score := fold_left (tokenScore hayString hayCompact) tokens score in
  recencyScore now it score.

(** [item.updatedAt ?? 0]. *)
Definition updatedOrZero (it : MediaPlaylistItem) : Z :=
  match updatedAt it with Some t => t | None => 0%Z end.

(** The test guarding [best = { ...item, score }]. *)
Definition replacesBest (best : option MediaMatch) (it : MediaPlaylistItem) (s : number)
  : bool :=
  match best with
  | None => true
  | Some b =>
      gt s (score b)
      || (strictEq s (score b) && (updatedOrZero (item b) <? updatedOrZero it)%Z)
  end.

(** The loop over [items]; [i] is the position of the next item and
    [clock i] the reading of [Date.now()] while it is scored. *)
Fixpoint scanItems (U : UnicodeTables) (clock : nat -> Z) (topic : str)
  (items : list MediaPlaylistItem) (i : nat) (best : option MediaMatch)
  : option MediaMatch :=
  match items with
  | [] => best
  | it :: rest =>
      let s := itemScore U (clock i) topic it in
      let best := if replacesBest best it s then Some {| item := it; score := s |} else best in
      scanItems U clock topic rest (S i) best
  end.

(** [items.slice().sort(...)[0]]: the first of the most recently updated
    items (the sort is stable). *)
Fixpoint mostRecent (items : list MediaPlaylistItem) (best : option MediaPlaylistItem)
  : option MediaPlaylistItem :=
  match items with
  | [] => best
  | it :: rest =>
      mostRecent rest
        (match best with
         | None => Some it
         | Some b => if (updatedOrZero b <? updatedOrZero it)%Z then Some it else best
         end)
  end.

Definition selectMediaMatch (U : UnicodeTables) (clock : nat -> Z) (topic : str)
  (items : list MediaPlaylistItem) : option MediaMatch :=
  if isEmpty topic || (length items =? 0)%nat then None
  else if isEmpty (canonicalTopic U topic) then None
  else
    match scanItems U clock topic items 0 None with
    | Some best => Some best
    | None =>
        match mostRecent items None with
        | Some fallback => Some {| item := fallback; score := ofZ 0 |}
        | None => None
        end
    end.

End Media.

(** ** Presentation sync orchestrator (electron/main.ts, [runPresentationSync]) *)

Module Orchestrator.
Import JS Unicode.

(** What an awaited call does: it returns, or it throws ([message] is
    [e?.message]). *)
Inductive outcome (A : Type) : Type :=
| Returned (a : A)
| Threw (message : option str).
Arguments Returned {A} a.
Arguments Threw {A} message.

(** A plan item as the loop reads it.  [songSectionCount] is the length of
    the [sectionsPayload] the Song branch builds from [songDetails]. *)
Record PlanItem : Type := {
  isHeader : bool;
  title : str;
  id : str;
  notes : option str;
  description : option str;
  category : option str;
  kind : Plan.kind;
  songSectionCount : nat
}.

Record plan : Type := { planTitle : str; items : list PlanItem }.

Record planFetch : Type := {
  fetch_ok : bool;
  fetch_plan : option plan;
  fetch_error : option str
}.

(** Result of [quitProPresenter] and [launchProPresenter]. *)
Record stepResult : Type := { step_ok : bool; step_message : option str }.

Record indexEntry : Type := { path : str; entry_title : option str }.

(** Result of [indexPresentationsUuid]; [index_map] lists the entries of
    [map] in the order of its keys. *)
Record indexResult : Type := {
  index_ok : bool;
  index_map : option (list (str * indexEntry));
  index_err : option str
}.

Record PresentationSyncPayload : Type := {
  host : str;
  port : Z;
  libraryRoot : str;
  reopen : option bool;
  categories : option (list str);
  itemIds : option (list str)
}.

(** The collaborators of one run.  The calls of the mutation loop are
    indexed by the position of the item in the plan; the arguments the loop
    builds for them (song sections, topics, media, lower third) are not
    modelled, and an exception raised while they are built counts as thrown
    by the call. *)
Record collaborators : Type := {
  platformIsDarwin : bool;
  pcoGetNextPlan : outcome planFetch;
  (** [title] to [matches.matches[title].uuid], when that is a string *)
  matchPresentations : outcome (str -> option str);
  (** the [ensureTransitionTimer] calls, whichever the environment selects *)
  ensureTransitionTimer : outcome (option str);
  ensureStageLayout : outcome (option str);
  indexPresentationsUuid : outcome indexResult;
  getMediaPlaylistItems : outcome (option (list Media.MediaPlaylistItem));
  fetchPropIdentifier : outcome (option str);
  quitProPresenter : outcome stepResult;
  launchProPresenter : outcome stepResult;
  (** each returns the [ok] of its result *)
  applySongTemplate : nat -> outcome bool;
  applyTransitionTemplate : nat -> outcome bool;
  writeOperatorNotesFile : nat -> outcome bool;
  (** the title cascade of [resolvePlanItemCategory], for an item without
      [category] *)
  titleCategory : PlanItem -> option str;
  (** [path.basename(p, path.extname(p))] *)
  baseName : str -> str
}.

Inductive event : Type :=
| FetchPlan | MatchPresentations | EnsureTimer | EnsureStageLayout
| IndexLibrary | PrefetchMedia | FetchProp | QuitHost
| SongRewrite (i : nat) (file : str)
| TransitionRewrite (i : nat) (file : str)
| NotesWrite (i : nat) (file : str) (text : str)
| LaunchHost.

Record Summary : Type := {
  updated : nat;
  skipped : nat;
  noDesc : nat;
  missingPath : nat;
  writeErrors : nat
}.

Inductive runError : Type :=
| MissingHostPort
| MissingLibraryPath
| PlanFetchFailed (err : str)
| LibraryIndexFailed
| QuitFailed (msg : str)
| Crashed (message : option str).

Inductive runResult : Type :=
| Failure (error : runError)
| Success (planTitle : str) (summary : Summary)
    (missing : list (str * str)) (reopenDetail : option str)
    (categories : gmap str str).

(** The variables the run mutates, and the calls made so far. *)
Record runState : Type := {
  summary : Summary;
  categoriesByUuid : gmap str str;
  missingInfo : list (str * str);
  reopenOutcome : option stepResult;
  calls : list event
}.

Definition initialState : runState :=
  {| summary := {| updated := 0; skipped := 0; noDesc := 0; missingPath := 0;
                   writeErrors := 0 |};
     categoriesByUuid := ∅; missingInfo := []; reopenOutcome := None; calls := [] |}.

(** *** State and exceptions *)

Definition M (A : Type) : Type := runState -> outcome A * runState.

Definition ret {A} (a : A) : M A := fun st => (Returned a, st).

Definition bind {A B} (m : M A) (k : A -> M B) : M B :=
  fun st =>
    match m st with
    | (Returned a, st') => k a st'
    | (Threw e, st') => (Threw e, st')
    end.

Notation "'let*' x := m 'in' k" := (bind m (fun x => k))
  (at level 10, x name, m at level 100, k at level 200).
Notation "'run' m 'then' k" := (bind m (fun _ => k))
  (at level 10, m at level 100, k at level 200).

(** An awaited call of a collaborator. *)
Definition call {A} (ev : event) (r : outcome A) : M A :=
  fun st =>
    (r, {| summary := summary st; categoriesByUuid := categoriesByUuid st;
           missingInfo := missingInfo st; reopenOutcome := reopenOutcome st;
           calls := calls st ++ [ev] |}).

Definition modifySummary (f : Summary -> Summary) : M unit :=
  fun st =>
    (Returned tt,
     {| summary := f (summary st); categoriesByUuid := categoriesByUuid st;
        missingInfo := missingInfo st; reopenOutcome := reopenOutcome st;
        calls := calls st |}).

(** [try { body } catch { handler }]. *)
Definition tryCatch {A} (body : M A) (handler : option str -> M A) : M A :=
  fun st =>
    match body st with
    | (Returned a, st') => (Returned a, st')
    | (Threw e, st') => handler e st'
    end.

(** [try { body } finally { finalizer }]: the finalizer runs in both cases;
    an exception of the body goes on after it, unless the finalizer throws
    itself. *)
Definition tryFinally {A} (body : M A) (finalizer : M unit) : M A :=
  fun st =>
    match body st with
    | (Returned a, st') =>
        match finalizer st' with
        | (Returned _, st'') => (Returned a, st'')
        | (Threw e, st'') => (Threw e, st'')
        end
    | (Threw e, st') =>
        match finalizer st' with
        | (Returned _, st'') => (Threw e, st'')
        | (Threw e', st'') => (Threw e', st'')
        end
    end.

(** [for (const item of items) body], with the position of the item. *)
Fixpoint forEach {A} (body : nat -> A -> M unit) (i : nat) (l : list A) : M unit :=
  match l with
  | [] => ret tt
  | x :: r => run body i x then forEach body (S i) r
  end.

(** *** The counters *)

Definition incUpdated (s : Summary) : Summary :=
  {| updated := S (updated s); skipped := skipped s; noDesc := noDesc s;
     missingPath := missingPath s; writeErrors := writeErrors s |}.
Definition incSkipped (s : Summary) : Summary :=
  {| updated := updated s; skipped := S (skipped s); noDesc := noDesc s;
     missingPath := missingPath s; writeErrors := writeErrors s |}.
Definition incNoDesc (s : Summary) : Summary :=
  {| updated := updated s; skipped := skipped s; noDesc := S (noDesc s);
     missingPath := missingPath s; writeErrors := writeErrors s |}.
Definition incMissingPath (s : Summary) : Summary :=
  {| updated := updated s; skipped := skipped s; noDesc := noDesc s;
     missingPath := S (missingPath s); writeErrors := writeErrors s |}.
Definition incWriteErrors (s : Summary) : Summary :=
  {| updated := updated s; skipped := skipped s; noDesc := noDesc s;
     missingPath := missingPath s; writeErrors := S (writeErrors s) |}.

Definition pushMissing (title uuid : str) : M unit :=
  fun st =>
    (Returned tt,
     {| summary := summary st; categoriesByUuid := categoriesByUuid st;
        missingInfo := missingInfo st ++ [(title, uuid)];
        reopenOutcome := reopenOutcome st; calls := calls st |}).

Definition setCategory (uuid label : str) : M unit :=
  fun st =>
    (Returned tt,
     {| summary := summary st; categoriesByUuid := <[uuid := label]> (categoriesByUuid st);
        missingInfo := missingInfo st; reopenOutcome := reopenOutcome st;
        calls := calls st |}).

Definition setReopenOutcome (r : stepResult) : M unit :=
  fun st =>
    (Returned tt,
     {| summary := summary st; categoriesByUuid := categoriesByUuid st;
        missingInfo := missingInfo st; reopenOutcome := Some r; calls := calls st |}).


(** *** Pure helpers of the run *)

Definition strOrEmpty (o : option str) : str :=
  match o with Some s => s | None => [] end.

(** [Array.isArray(xs) ? xs.map(x => String(x || '').trim()).filter(x =>
    x.length > 0) : []]. *)
Definition requested (xs : option (list str)) : list str :=
  match xs with
  | Some l => List.filter (fun x => negb (isEmpty x)) (List.map trim l)
  | None => []
  end.

Definition categoryFilterOf (U : UnicodeTables) (p : PresentationSyncPayload)
  : option (gset str) :=
  match requested (categories p) with
  | [] => None
  | l => Some (list_to_set (List.map (toLowerCase U) l))
  end.

Definition idFilterOf (p : PresentationSyncPayload) : option (gset str) :=
  match requested (itemIds p) with
  | [] => None
  | l => Some (list_to_set l)
  end.

(** [reopen !== false && process.platform === 'darwin']. *)
Definition shouldReopen (p : PresentationSyncPayload) (c : collaborators) : bool :=
  match reopen p with
  | Some false => false
  | _ => platformIsDarwin c
  end.

Definition resolvePlanItemCategory (c : collaborators) (it : PlanItem) : option str :=
  match trim (strOrEmpty (category it)) with
  | [] => if isEmpty (trim (title it)) then None else titleCategory c it
  | raw => Some raw
  end.

(** [str.replace(/[{}]/g, '')]. *)
Definition removeBraces (s : str) : str :=
  List.filter (fun x => negb ((x =? 123) || (x =? 125))) s.

Definition canonicalUuid (U : UnicodeTables) (val : str) : option str :=
  match trim val with
  | [] => None
  | s => match toLowerCase U (removeBraces s) with
         | [] => None
         | normalized => Some normalized
         end
  end.

(** [mapByUuid[key]]. *)
Definition mapByUuid (entries : list (str * indexEntry)) (key : str) : option indexEntry :=
  (list_to_map entries : gmap str indexEntry) !! key.

(** The loop filling [titleMap]. *)
Definition titleMapOf (U : UnicodeTables) (c : collaborators)
  (entries : list (str * indexEntry)) : gmap str indexEntry :=
  fold_left
    (fun m kv =>
       let entry := snd kv in
       if isEmpty (path entry) then m
       else
         let key := Title.normalizeTitle U
                      (match entry_title entry with
                       | Some (x :: r) => x :: r
                       | _ => baseName c (path entry)
                       end) in
         if isEmpty key then m
         else match m !! key with
              | Some _ => m
              | None => <[key := entry]> m
              end)
    entries ∅.

(** [hit]: the three lookups, the first entry found; [None] also when the
    entry has no path. *)
Definition findHit (U : UnicodeTables) (c : collaborators)
  (entries : list (str * indexEntry)) (uuidRaw title : str) : option str :=
  let byRaw := mapByUuid entries uuidRaw in
  let byCanon :=
    match canonicalUuid U uuidRaw with
    | Some canon => mapByUuid entries canon
    | None => None
    end in
  let byTitle :=
    match Title.normalizeTitle U title with
    | [] => None
    | key => titleMapOf U c entries !! key
    end in
  let hit :=
    match byRaw with
    | Some e => Some e
    | None => match byCanon with
              | Some e => Some e
              | None => byTitle
              end
    end in
  match hit with
  | Some e => if isEmpty (path e) then None else Some (path e)
  | None => None
  end.

(** [categoryFilter && (!categoryLabel || !categoryFilter.has(...))]. *)
Definition categoryExcluded (U : UnicodeTables) (filter : option (gset str))
  (label : option str) : bool :=
  match filter with
  | None => false
  | Some set =>
      match label with
      | None => true
      | Some l => negb (bool_decide (toLowerCase U l ∈ set))
      end
  end.

Definition idExcluded (filter : option (gset str)) (itemId : str) : bool :=
  match filter with
  | None => false
  | Some set => negb (bool_decide (itemId ∈ set))
  end.

Definition isLabel (label : option str) (s : string) : bool :=
  match label with
  | Some l => eqb l (lit s)
  | None => false
  end.

(** *** The mutation loop *)

Section Run.

Variable U : UnicodeTables.
Variable p : PresentationSyncPayload.
Variable c : collaborators.

(** The Song branch: the rewrite is skipped without sections; a failed or
    crashed rewrite is counted and the item goes on to its notes. *)
Definition songStep (i : nat) (item : PlanItem) (file : str) : M bool :=
  run (if (songSectionCount item =? 0)%nat then ret tt
       else
         tryCatch
           (let* ok := call (SongRewrite i file) (applySongTemplate c i) in
            if ok then ret tt else modifySummary incWriteErrors)
           (fun _ => modifySummary incWriteErrors))
  then ret true.

(** The Transitions branch: a failed rewrite is counted and the loop goes to
    the next item ([continue]). *)
Definition transitionStep (i : nat) (file : str) : M bool :=
  let* ok := call (TransitionRewrite i file) (applyTransitionTemplate c i) in
  if ok then ret true
  else run modifySummary incWriteErrors then ret false.

Definition notesStep (i : nat) (file desc uuidRaw : str) (categoryLabel : option str)
  : M unit :=
  run (match categoryLabel with
       | Some l => setCategory uuidRaw l
       | None => ret tt
       end)
  then
  let* ok := call (NotesWrite i file desc) (writeOperatorNotesFile c i) in
  if ok then modifySummary incUpdated
  else run modifySummary incWriteErrors then modifySummary incSkipped.

(** Body of [for (const item of items)] inside the [try]; each [ret tt]
    before the end is a [continue]. *)
Definition processItem (matches : str -> option str)
  (entries : list (str * indexEntry)) (i : nat) (item : PlanItem) : M unit :=
  if isHeader item then ret tt
  else
    let title := trim (title item) in
    let itemId := trim (id item) in
    if idExcluded (idFilterOf p) itemId then ret tt
    else
      let notesOverride := trim (strOrEmpty (notes item)) in
      let descOverride := trim (strOrEmpty (description item)) in
      if isEmpty title then modifySummary incSkipped
      else
        let categoryLabel := resolvePlanItemCategory c item in
        if categoryExcluded U (categoryFilterOf U p) categoryLabel then ret tt
        else
          let uuidRaw := strOrEmpty (matches title) in
          let desc := if isEmpty descOverride then notesOverride else descOverride in
          if isEmpty uuidRaw then modifySummary incSkipped
          else if isEmpty desc then modifySummary incNoDesc
          else
            match findHit U c entries uuidRaw title with
            | None => run modifySummary incMissingPath then pushMissing title uuidRaw
            | Some file =>
                let* proceed :=
                  if isLabel categoryLabel "Song" then songStep i item file
                  else if isLabel categoryLabel "Transitions" then transitionStep i file
                  else ret true in
                if proceed then notesStep i file desc uuidRaw categoryLabel
                else ret tt
            end.

(** The [finally] block. *)
Definition relaunch : M unit :=
  if shouldReopen p c then
    let* r := call LaunchHost (launchProPresenter c) in
    setReopenOutcome r
  else ret tt.

Definition mutationLoop (matches : str -> option str)
  (entries : list (str * indexEntry)) (items : list PlanItem) : M unit :=
  tryFinally (forEach (processItem matches entries) 0 items) relaunch.

(** The closing of the host before the loop: [Some msg] aborts the run. *)
Definition closeHost : M (option str) :=
  if shouldReopen p c then
    let* quitRes := call QuitHost (quitProPresenter c) in
    if step_ok quitRes then ret None
    else ret (Some (Plan.orElse (step_message quitRes) (lit "Failed to close ProPresenter")))
  else ret None.

Definition finish (planTitle : str) : M runResult :=
  fun st =>
    (Returned
       (Success planTitle (summary st) (missingInfo st)
          (match reopenOutcome st with
           | Some r => if step_ok r then None else step_message r
           | None => None
           end)
          (categoriesByUuid st)), st).

(** Body of the outer [try]. *)
Definition syncBody : M runResult :=
  let* next := call FetchPlan (pcoGetNextPlan c) in
  match (if fetch_ok next then fetch_plan next else None) with
  | None =>
      ret (Failure (PlanFetchFailed
                      (Plan.orElse (fetch_error next) (lit "Failed to fetch plan"))))
  | Some plan =>
      let* matches := call MatchPresentations (matchPresentations c) in
      let* transitionTimer := call EnsureTimer (ensureTransitionTimer c) in
      let* stageLayout := call EnsureStageLayout (ensureStageLayout c) in
      let* indexRes := call IndexLibrary (indexPresentationsUuid c) in
      match (if index_ok indexRes then index_map indexRes else None) with
      | None => ret (Failure LibraryIndexFailed)
      | Some entries =>
          let* titlesMediaItems := call PrefetchMedia (getMediaPlaylistItems c) in
          let* clearPropInfo := call FetchProp (fetchPropIdentifier c) in
          let* quitFailure := closeHost in
          match quitFailure with
          | Some msg => ret (Failure (QuitFailed msg))
          | None =>
              run mutationLoop matches entries (items plan)
              then finish (planTitle plan)
          end
      end
  end.

(** [runPresentationSync]: the result and the calls made, in order. *)
Definition runPresentationSync : runResult * list event :=
  if isEmpty (host p) || (port p =? 0)%Z then (Failure MissingHostPort, [])
  else if isEmpty (libraryRoot p) then (Failure MissingLibraryPath, [])
  else
    match syncBody initialState with
    | (Returned r, st) => (r, calls st)
    | (Threw e, st) => (Failure (Crashed e), calls st)
    end.

End Run.

End Orchestrator.

(** ** Regular expressions of the sources

    The patterns of the sources use literals, character classes, sequence,
    alternation, the greedy quantifiers, [\b], [^] and [$].  A pattern is
    matched as ECMAScript does: alternatives and iterations are tried in
    order, and the rest of the pattern decides (the continuation [k]); the
    first way that succeeds is the match. *)

Module Regex.
Import JS Unicode.

Inductive regex : Type :=
| Empty
| Unit (class : N -> bool)
| Seq (a b : regex)
| Alt (a b : regex)
| Star (a : regex)
| WordBoundary
| Bos
| Eos.

Definition isWordBefore (before : option N) : bool :=
  match before with Some c => Title.isWordChar c | None => false end.

Definition isWordAt (s : str) : bool :=
  match s with c :: _ => Title.isWordChar c | [] => false end.

(** [matchAt r before s k]: match [r] at the head of [s], the unit before it
    being [before] ([None] at the start of the input), then go on with [k];
    the result is what [k] returns, the input left after the whole match.
    An iteration of [a*] that takes nothing is refused, as in ECMAScript, so
    the length of the input bounds the number of iterations. *)
Fixpoint matchAt (r : regex) (before : option N) (s : str)
  (k : option N -> str -> option str) {struct r} : option str :=
  match r with
  | Empty => k before s
  | Unit class =>
      match s with
      | c :: t => if class c then k (Some c) t else None
      | [] => None
      end
  | Seq a b => matchAt a before s (fun before' t => matchAt b before' t k)
  | Alt a b =>
      match matchAt a before s k with
      | Some rest => Some rest
      | None => matchAt b before s k
      end
  | Star a =>
      (fix iterate (fuel : nat) (before : option N) (s : str) {struct fuel} : option str :=
         match fuel with
         | O => k before s
         | S fuel' =>
             match matchAt a before s
                     (fun before' t =>
                        if (length t <? length s)%nat then iterate fuel' before' t
                        else None) with
             | Some rest => Some rest
             | None => k before s
             end
         end) (length s) before s
  | WordBoundary =>
      if xorb (isWordBefore before) (isWordAt s) then k before s else None
  | Bos => match before with None => k before s | Some _ => None end
  | Eos => match s with [] => k before s | _ :: _ => None end
  end.

(** The input left after a match of [r] at the head of [s]. *)
Definition matchHere (r : regex) (before : option N) (s : str) : option str :=
  matchAt r before s (fun _ rest => Some rest).

(** The leftmost match: its index and the input left after it. *)
Fixpoint search (r : regex) (before : option N) (s : str) (index : nat)
  : option (nat * str) :=
  match matchHere r before s with
  | Some rest => Some (index, rest)
  | None =>
      match s with
      | c :: t => search r (Some c) t (S index)
      | [] => None
      end
  end.

(** [rx.test(s)] for a pattern without the [g] flag. *)
Definition test (r : regex) (s : str) : bool :=
  match search r None s 0 with Some _ => true | None => false end.

(** [s.replace(rx, rep)] for a pattern with the [g] flag and a replacement
    without [$]: every match, from left to right, becomes [rep].  [skip]
    counts the units of the current match still to pass. *)
Fixpoint replaceFrom (r : regex) (rep : str) (skip : nat) (before : option N)
  (s : str) {struct s} : str :=
  match skip with
  | S n =>
      match s with
      | c :: t => replaceFrom r rep n (Some c) t
      | [] => []
      end
  | O =>
      match matchHere r before s with
      | Some rest =>
          match (length s - length rest)%nat, s with
          | S n, c :: t => rep ++ replaceFrom r rep n (Some c) t
          | O, c :: t => rep ++ c :: replaceFrom r rep 0 (Some c) t
          | _, [] => rep
          end
      | None =>
          match s with
          | c :: t => c :: replaceFrom r rep 0 (Some c) t
          | [] => []
          end
      end
  end.

Definition replaceAll (r : regex) (rep : str) (s : str) : str :=
  replaceFrom r rep 0 None s.

(** [s.matchAll(rx)] for a pattern with the [g] flag: the texts of the
    matches, from left to right. *)
Fixpoint matchAllFrom (r : regex) (skip : nat) (before : option N) (s : str)
  {struct s} : list str :=
  match skip with
  | S n =>
      match s with
      | c :: t => matchAllFrom r n (Some c) t
      | [] => []
      end
  | O =>
      match matchHere r before s with
      | Some rest =>
          let found := firstn (length s - length rest) s in
          match (length s - length rest)%nat, s with
          | S n, c :: t => found :: matchAllFrom r n (Some c) t
          | O, c :: t => found :: matchAllFrom r 0 (Some c) t
          | _, [] => [found]
          end
      | None =>
          match s with
          | c :: t => matchAllFrom r 0 (Some c) t
          | [] => []
          end
      end
  end.

Definition matchAll (r : regex) (s : str) : list str := matchAllFrom r 0 None s.

(** *** Writing patterns *)

Definition unit (c : N) : regex := Unit (N.eqb c).

(** A literal. *)
Fixpoint text (s : str) : regex :=
  match s with
  | [] => Empty
  | c :: r => Seq (unit c) (text r)
  end.
Definition word (s : string) : regex := text (lit s).

(** A literal under the [i] flag (without [u]): an ASCII letter stands for
    its two cases, and no unit outside ASCII is taken for an ASCII one. *)
Definition anyCase (c : N) : regex := Unit (fun x => lowerUnit x =? lowerUnit c).
Fixpoint textAnyCase (s : str) : regex :=
  match s with
  | [] => Empty
  | c :: r => Seq (anyCase c) (textAnyCase r)
  end.
Definition wordAnyCase (s : string) : regex := textAnyCase (lit s).

Definition optional (r : regex) : regex := Alt r Empty.
Definition plus (r : regex) : regex := Seq r (Star r).

Fixpoint seqs (rs : list regex) : regex :=
  match rs with
  | [] => Empty
  | [r] => r
  | r :: rest => Seq r (seqs rest)
  end.

Fixpoint alts (rs : list regex) : regex :=
  match rs with
  | [] => Unit (fun _ => false)
  | [r] => r
  | r :: rest => Alt r (alts rest)
  end.

(** [\s], [\d], [[-\s]]. *)
Definition white : regex := Unit isWhite.
Definition isDigit (c : N) : bool := (48 <=? c) && (c <=? 57).
Definition digit : regex := Unit isDigit.
Definition dashOrWhite : regex := Unit (fun c => (c =? 45) || isWhite c).

End Regex.

(** ** Descriptions and notes of a plan item (electron/pco.ts) *)

Module Notes.
Import JS Unicode Regex.

(** [/<\s*br\s*\/?\s*>/gi], [/<\s*\/p\s*>/gi] and [/<[^>]+>/g]. *)
Definition lineBreakTag : regex :=
  seqs [unit 60; Star white; wordAnyCase "br"; Star white; optional (unit 47);
        Star white; unit 62].
Definition paragraphEndTag : regex :=
  seqs [unit 60; Star white; unit 47; anyCase 112; Star white; unit 62].
Definition anyTag : regex :=
  seqs [unit 60; plus (Unit (fun c => negb (c =? 62))); unit 62].

Definition stripHtml (text : str) : str :=
  replaceAll anyTag [32]
    (replaceAll paragraphEndTag [10] (replaceAll lineBreakTag [10] text)).

(** Body of the loop over [normalized]: an empty line is kept only after a
    line that is not empty. *)
Definition keepLine (filtered : list str) (line : str) : list str :=
  if isEmpty line
     && match last filtered with
        | None => true
        | Some l => isEmpty l
        end
  then filtered
  else filtered ++ [line].

(** [while (filtered.length && filtered[filtered.length - 1] === '')
    filtered.pop()]. *)
Fixpoint dropEmptyPrefix (lines : list str) : list str :=
  match lines with
  | l :: r => if isEmpty l then dropEmptyPrefix r else lines
  | [] => []
  end.
Definition popBlank (filtered : list str) : list str :=
  rev (dropEmptyPrefix (rev filtered)).

Definition normalizeWhitespace (input : str) : str :=
  let normalized :=
    List.map (fun line => trim (collapseWhite line))
      (split 10 (Lyrics.replaceNoBreakSpaces (Lyrics.replaceCarriageReturns input))) in
  let filtered := fold_left keepLine normalized [] in
  trim (join [10] (popBlank filtered)).

(** The attributes [extractNotes] reads, each present when it is a string. *)
Record noteAttributes : Type := {
  description : option str;
  description_html : option str;
  notes : option str
}.

(** [value ? normalizeWhitespace(value) : undefined], then
    [text && text.length ? text : undefined]. *)
Definition normalizedOrNone (raw : option str) : option str :=
  match raw with
  | Some (c :: r) =>
      match normalizeWhitespace (c :: r) with
      | [] => None
      | text => Some text
      end
  | _ => None
  end.

Definition extractNotes (attrs : noteAttributes) : option str * option str :=
  let rawDesc :=
    match description attrs with
    | Some d => Some d
    | None =>
        match description_html attrs with
        | Some h => Some (stripHtml h)
        | None => None
        end
    end in
  let rawNotes := notes attrs in
  (normalizedOrNone rawDesc, normalizedOrNone rawNotes).

End Notes.

(** ** Categories of plan items *)

(** [classifyPlanItem] of electron/pco.ts. *)
Module Classify.
Import JS Unicode Regex Plan.

(** [/a[-\s]?b/] and [/a\s*b/]. *)
Definition joined (a b : string) : regex := seqs [word a; optional dashOrWhite; word b].
Definition spacedOut (a b : string) : regex := seqs [word a; Star white; word b].

Definition preServicePatterns : list regex :=
  [joined "pre" "service"; word "prelude"; word "countdown"; joined "walk" "in";
   word "lobby"; joined "pre" "show";
   seqs [word "pre"; Star white; word "service"; Star white; word "loop"]].

Definition postServicePatterns : list regex :=
  [joined "post" "service"; joined "walk" "out"; word "dismissal"; word "outro";
   seqs [word "exit"; WordBoundary]; spacedOut "after" "service"].

Definition songPatterns : list regex :=
  [word "song"; word "worship"; word "praise"; word "anthem"; word "hymn"].

Definition videoPatterns : list regex :=
  [word "video"; word "bumper"; word "clip"; spacedOut "lyric" "video";
   spacedOut "church" "news"].

Definition messagePatterns : list regex :=
  [word "message"; word "sermon"; word "homily"; word "teaching"; word "talk";
   word "devotional"; word "communion message"; word "communion meditation";
   word "testimony"].

Definition transitionPatterns : list regex :=
  [word "transition"; word "prayer"; word "welcome"; word "host"; word "announcement";
   word "announcements"; word "giving"; word "offering"; word "tithes"; word "response";
   word "benediction"; word "dismissal"].

(** [patterns.some(rx => rx.test(normalized))] and
    [words.every(w => normalized.includes(w))]. *)
Definition containsAny (normalized : str) (patterns : list regex) : bool :=
  existsb (fun rx => test rx normalized) patterns.
Definition containsAll (normalized : str) (words : list string) : bool :=
  forallb (fun w => includes normalized (lit w)) words.

Definition isSong (k : kind) : bool := match k with song => true | _ => false end.
Definition isVideo (k : kind) : bool := match k with video => true | _ => false end.

Definition classifyPlanItem (U : UnicodeTables) (k : kind) (title : str) (isHeader : bool)
  : category :=
  let normalized := toLowerCase U (trim title) in
  if isHeader && test (joined "pre" "service") normalized then PreService
  else if isHeader && test (joined "post" "service") normalized then PostService
  else if containsAny normalized preServicePatterns then PreService
  else if containsAny normalized postServicePatterns
          || containsAll normalized ["bumper"; "ending"]%string
          || containsAll normalized ["bumper"; "exit"]%string
          || containsAll normalized ["ending"; "exit"]%string
          || containsAll normalized ["closing"; "exit"]%string
  then PostService
  else if isSong k || containsAny normalized songPatterns then Song
  else if isVideo k || containsAny normalized videoPatterns then Videos
  else if containsAny normalized messagePatterns then Message
  else if containsAny normalized transitionPatterns then Transitions
  else match k with announcement => Transitions | _ => Message end.

(** The literal of each category, as the plan carries it. *)
Definition label (c : category) : str :=
  match c with
  | Song => lit "Song"
  | Message => lit "Message"
  | Transitions => lit "Transitions"
  | Videos => lit "Videos"
  | PreService => lit "Pre Service"
  | PostService => lit "Post Service"
  end.

End Classify.

(** [resolvePlanItemCategory] of electron/main.ts. *)
Module Category.
Import JS Unicode Regex Orchestrator.

Definition preServicePatterns : list regex :=
  [Classify.joined "pre" "service"; word "prelude"; word "countdown";
   Classify.joined "walk" "in"; word "lobby"; Classify.joined "pre" "show";
   seqs [word "pre"; Star white; word "service"; Star white; word "loop"]].

Definition postServicePatterns : list regex :=
  [Classify.joined "post" "service"; word "dismissal"; word "outro";
   Classify.joined "walk" "out"].

Definition videoPatterns : list regex :=
  [word "video"; word "bumper"; word "package"; word "segment"].

Definition messagePatterns : list regex :=
  [word "message"; word "sermon"; word "teaching"; word "communion"; word "baptism"].

Definition songPatterns : list regex :=
  [word "song"; word "worship"; word "music"; word "hymn"; word "setlist"].

Definition transitionPatterns : list regex :=
  [word "transition"; word "mc"; word "hosting"; word "welcome"; word "greeting";
   word "announcements"; word "giving"].

(** The cascade on the title, for an item without [category] and with a
    title; [title] is trimmed. *)
Definition titleCascade (U : UnicodeTables) (title : str) (header : bool) (k : Plan.kind)
  : option str :=
  let normalized := toLowerCase U title in
  let contains := Classify.containsAny normalized in
  let containsAll := Classify.containsAll normalized in
  if header && test (Classify.joined "pre" "service") normalized then Some (lit "Pre Service")
  else if header && test (Classify.joined "post" "service") normalized
  then Some (lit "Post Service")
  else if contains preServicePatterns then Some (lit "Pre Service")
  else if contains postServicePatterns then Some (lit "Post Service")
  else if contains videoPatterns then Some (lit "Videos")
  else if contains messagePatterns then Some (lit "Message")
  else if contains songPatterns then Some (lit "Song")
  else if containsAll ["transition"; "host"]%string then Some (lit "Transitions")
  else if contains transitionPatterns then Some (lit "Transitions")
  else if header then None
  else match k with
       | Plan.announcement => Some (lit "Transitions")
       | _ => Some (lit "Message")
       end.

Definition resolvePlanItemCategory (U : UnicodeTables) (item : PlanItem) : option str :=
  match trim (strOrEmpty (category item)) with
  | [] =>
      match trim (title item) with
      | [] => None
      | title => titleCascade U title (isHeader item) (kind item)
      end
  | raw => Some raw
  end.

End Category.

(** ** Connection test (electron/pp.ts, [testConnection]) *)

Module Connection.
Import JS Unicode.

(** The fields of the configuration that choose the requests; [method],
    [body] and [headers] go into each request as they are. *)
Record PPConfig : Type := {
  host : str;
  port : Z;
  path : option str
}.

Section Probe.

(** The parsed body of an answer ([info]). *)
Variable Info : Type.

(** An answer of the host: [res.statusCode ?? 0], the body, and the time
    since the start when the answer came in. *)
Record answer : Type := {
  statusCode : Z;
  body : option Info;
  elapsed : Z
}.

Record PPTestResult : Type := {
  reachable : bool;
  authenticated : bool;
  latencyMs : option Z;
  error : option str;
  info : option Info;
  pathTried : option str;
  status : option Z
}.

(** What the host does with a request to a path: it answers, or the request
    fails or times out ([None]). *)
Variable send : str -> option answer.
(** The time since the start when the paths are used up. *)
Variable finalElapsed : Z.

Definition defaultPaths : list str :=
  List.map lit ["/v1/version"; "/api/version"; "/version"; "/v1"; "/api"; "/"]%string.

Definition paths (cfg : PPConfig) : list str :=
  match path cfg with
  | Some p => if (0 <? length (trim p))%nat then [p] else defaultPaths
  | None => defaultPaths
  end.

Definition answered (a : answer) (p : str) (ok : bool) : PPTestResult :=
  {| reachable := true; authenticated := ok; latencyMs := Some (elapsed a);
     error := None; info := body a; pathTried := Some p;
     status := Some (statusCode a) |}.

(** [tryPath(idx)], on the paths from [idx] on: the result and the paths
    requested, in order. *)
Fixpoint tryPath (remaining : list str) : PPTestResult * list str :=
  match remaining with
  | [] =>
      ({| reachable := false; authenticated := false; latencyMs := Some finalElapsed;
          error := Some (lit "no_http_response"); info := None; pathTried := None;
          status := None |}, [])
  | p :: rest =>
      match send p with
      | None => let '(next, sent) := tryPath rest in (next, p :: sent)
      | Some a =>
          if Playlist.is2xx (statusCode a) then (answered a p true, [p])
          else
            let '(next, sent) := tryPath rest in
            (if reachable next then next else answered a p false, p :: sent)
      end
  end.

Definition testConnection (cfg : PPConfig) : PPTestResult * list str :=
  if isEmpty (host cfg) || (port cfg =? 0)%Z then
    ({| reachable := false; authenticated := false; latencyMs := None;
        error := Some (lit "Missing host/port"); info := None; pathTried := None;
        status := None |}, [])
  else tryPath (paths cfg).

End Probe.

End Connection.

(** ** Matching titles to presentations (electron/pp.ts,
    [matchPresentations]) *)

Module Matching.
Import JS Unicode.

(** An element of the arrays of [byNorm]. *)
Record candidate : Type := { uuid : str; name : str }.

(** [byNorm]: a [Map], its keys in the order of their first insertion. *)
Definition index : Type := list (str * list candidate).

(** [byNorm.get(norm) ?? []]. *)
Fixpoint lookup (byNorm : index) (norm : str) : list candidate :=
  match byNorm with
  | [] => []
  | (key, arr) :: rest => if eqb key norm then arr else lookup rest norm
  end.

(** [arr.push(entry); byNorm.set(norm, arr)]. *)
Fixpoint push (byNorm : index) (norm : str) (entry : candidate) : index :=
  match byNorm with
  | [] => [(norm, [entry])]
  | (key, arr) :: rest =>
      if eqb key norm then (key, arr ++ [entry]) :: rest
      else (key, arr) :: push rest norm entry
  end.

(** The index of the named nodes [rec] finds in the libraries, taken in the
    order it visits them. *)
Definition buildIndex (U : UnicodeTables) (named : list candidate) : index :=
  fold_left (fun byNorm e => push byNorm (Title.normalizeTitle U (name e)) e) named [].

Record matchResult : Type := {
  matched : bool;
  match_uuid : option str;
  candidates : option (list candidate)
}.

(** The loop over one array of [byNorm]: it leaves with five candidates. *)
Fixpoint scanArray (U : UnicodeTables) (parts : list str) (arr : list candidate)
  (found : list candidate) : list candidate :=
  match arr with
  | [] => found
  | p :: rest =>
      let nn := Title.normalizeTitle U (name p) in
      if forallb (fun w => includes nn w) parts then
        let found := found ++ [p] in
        if (5 <=? length found)%nat then found else scanArray U parts rest found
      else scanArray U parts rest found
  end.

(** The loop over [byNorm.values()]. *)
Fixpoint scanIndex (U : UnicodeTables) (parts : list str) (byNorm : index)
  (found : list candidate) : list candidate :=
  match byNorm with
  | [] => found
  | (_, arr) :: rest =>
      let found := scanArray U parts arr found in
      if (5 <=? length found)%nat then found else scanIndex U parts rest found
  end.

(** Body of the loop over [titles]: the value stored under the title. *)
Definition matchTitle (U : UnicodeTables) (byNorm : index) (t : str) : matchResult :=
  let norm := Title.normalizeTitle U t in
  match lookup byNorm norm with
  | first :: others =>
      {| matched := true; match_uuid := Some (uuid first);
         candidates := Some (first :: others) |}
  | [] =>
      let parts := List.filter (fun w => negb (isEmpty w)) (split 32 norm) in
      {| matched := false; match_uuid := None;
         candidates := Lyrics.nonEmptyArray (scanIndex U parts byNorm []) |}
  end.

(** [stats.names]. *)
Definition allNamesCount (byNorm : index) : nat :=
  fold_left (fun n group => (n + length (snd group))%nat) byNorm 0%nat.

End Matching.

(** ** Media of transition topics (electron/main.ts) *)

Module Topics.
Import JS Unicode Regex Media.

Definition normalizeMediaKey (U : UnicodeTables) (input : str) : str :=
  trim (replaceRuns Title.notLowerAlnum false (normalizeNFKD U (toLowerCase U input))).

(** [.] of a pattern without the [s] flag: any unit but a line terminator. *)
Definition isLineTerminator (c : N) : bool :=
  (c =? 10) || (c =? 13) || (c =? 8232) || (c =? 8233).
Definition anyUnit : regex := Unit (fun c => negb (isLineTerminator c)).

(** [TOPIC_MEDIA_RULES]. *)
Definition TOPIC_MEDIA_RULES : list (regex * str) :=
  [ (seqs [alts [wordAnyCase "dismiss"; wordAnyCase "pickup"; wordAnyCase "release";
                 wordAnyCase "dismissal"];
           Star anyUnit;
           alts [wordAnyCase "youth"; wordAnyCase "jr"]],
     lit "LIFE Youth Jr");
    (seqs [wordAnyCase "next"; Star white; wordAnyCase "step"], lit "Next Steps") ].

(** A manual match: the asset, scored 100, and the name of the target. *)
Definition findManualMediaMatch (U : UnicodeTables) (topic : str)
  (items : list MediaPlaylistItem) (overrideTarget : option str)
  : option (MediaMatch * str) :=
  let rule :=
    match overrideTarget with
    | Some (c :: r) => Some (c :: r)
    | _ =>
        match List.find (fun entry => test (fst entry) topic) TOPIC_MEDIA_RULES with
        | Some entry => Some (snd entry)
        | None => None
        end
    end in
  match rule with
  | None => None
  | Some targetName =>
      let targetKey := normalizeMediaKey U targetName in
      match List.find (fun item => eqb (normalizeMediaKey U (name item)) targetKey) items with
      | None => None
      | Some source => Some ({| item := source; score := Number.ofZ 100 |}, targetName)
      end
  end.

(** [BULLET_MARKERS_REGEX]. *)
Definition isBulletMarker (c : N) : bool :=
  existsb (N.eqb c)
    [8226; 8227; 9702; 8259; 8729; 9642; 9679; 9675; 9670; 9733; 9656; 9658; 9632;
     9633; 9688; 9689; 10070; 9873; 9643; 10148; 9654; 10132; 8211; 8212].

(** The first class of [LEADING_TOPIC_PATTERN]: bullets, [*], [+], [>]. *)
Definition isLeadingMarker (c : N) : bool :=
  existsb (N.eqb c)
    [8226; 8227; 9702; 8259; 8729; 9642; 9679; 9675; 9670; 9733; 9656; 9658; 9632;
     9633; 10070; 9873; 9643; 10148; 9654; 10132; 42; 43; 62].

Definition isLetter (c : N) : bool :=
  ((65 <=? c) && (c <=? 90)) || ((97 <=? c) && (c <=? 122)).

(** [/^(?:[bullets*+>]|[-–—]|\(?\d+\)?[.)]?|[A-Za-z][.)])\s*/u]. *)
Definition LEADING_TOPIC_PATTERN : regex :=
  seqs [Bos;
        alts [Unit isLeadingMarker;
              Unit (fun c => (c =? 45) || (c =? 8211) || (c =? 8212));
              seqs [optional (unit 40); plus digit; optional (unit 41);
                    optional (Unit (fun c => (c =? 46) || (c =? 41)))];
              seqs [Unit isLetter; Unit (fun c => (c =? 46) || (c =? 41))]];
        Star white].

(** [s.replace(rx, '')] for a pattern without the [g] flag: the leftmost
    match is removed. *)
Definition removeFirst (r : regex) (s : str) : str :=
  match search r None s 0 with
  | Some (index, rest) => firstn index s ++ rest
  | None => s
  end.

(** [s.replace(BULLET_MARKERS_REGEX, (match, offset, input) => offset > 0 &&
    input[offset - 1] !== '\n' ? '\n' + match : match)]; [before] is the unit
    of the input before the position. *)
Fixpoint breakBeforeBullets (before : option N) (s : str) : str :=
  match s with
  | [] => []
  | c :: r =>
      (if isBulletMarker c
          && match before with
             | Some b => negb (b =? 10)
             | None => false
             end
       then [10; c] else [c])
      ++ breakBeforeBullets (Some c) r
  end.

(** [s.split(/\n+/)]. *)
Fixpoint splitLines (inRun : bool) (s : str) : list str :=
  match s with
  | [] => [[]]
  | c :: r =>
      if c =? 10
      then (if inRun then splitLines true r else [] :: splitLines true r)
      else match splitLines false r with
           | h :: t => (c :: h) :: t
           | [] => [[c]]
           end
  end.

Definition cueWord : regex := seqs [WordBoundary; wordAnyCase "cue"; WordBoundary].

(** Body of the loop over the lines. *)
Definition topicOfLine (rawLine : str) : list str :=
  let trimmed := trim rawLine in
  if isEmpty trimmed then []
  else
    let cleaned := trim (removeFirst LEADING_TOPIC_PATTERN trimmed) in
    if isEmpty cleaned then []
    else if test cueWord cleaned then []
    else [collapseWhite cleaned].

Definition extractTransitionTopics (description : str) : list str :=
  let normalized :=
    breakBeforeBullets None
      (Lyrics.replaceNoBreakSpaces (Lyrics.replaceCarriageReturns description)) in
  flat_map topicOfLine (splitLines false normalized).

(** [TopicOverrideSpec]. *)
Record TopicOverrideSpec : Type := { topic : str; manualTarget : option str }.

Definition notCommaAmp : regex := Unit (fun c => negb ((c =? 44) || (c =? 38))).

(** [rx.exec(s)]: the index and the text of the leftmost match. *)
Definition exec (r : regex) (s : str) : option (nat * str) :=
  match search r None s 0 with
  | Some (index, rest) =>
      Some (index, firstn (length s - index - length rest) (skipn index s))
  | None => None
  end.

Definition deriveTopicOverrides (U : UnicodeTables) (originalTopic : str)
  : list TopicOverrideSpec :=
  let normalized := toLowerCase U originalTopic in
  if test (seqs [word "next"; Star white; word "step"]) normalized then
    [{| topic := originalTopic; manualTarget := Some (lit "Next Steps") |}]
  else
    let hasYouth := test (seqs [word "life"; Star white; word "youth"]) normalized in
    let hasKidz := test (seqs [word "life"; Star white; word "kid"]) normalized in
    let youthMatch :=
      exec (seqs [wordAnyCase "life"; Star notCommaAmp; wordAnyCase "youth";
                  Star notCommaAmp]) originalTopic in
    let kidzMatch :=
      exec (seqs [wordAnyCase "life"; Star notCommaAmp; wordAnyCase "kid";
                  Star notCommaAmp]) originalTopic in
    let youth m := {| topic := trim (snd m); manualTarget := Some (lit "LIFE Youth Jr") |} in
    let kidz m := {| topic := trim (snd m); manualTarget := Some (lit "LIFE Kidz") |} in
    match (if hasYouth && hasKidz then (youthMatch, kidzMatch) else (None, None)) with
    | (Some y, Some k) =>
        (* [overrides.sort((a, b) => a.index - b.index)], a stable sort *)
        if (fst k <? fst y)%nat then [kidz k; youth y] else [youth y; kidz k]
    | (Some y, None) => [youth y]
    | (None, Some k) => [kidz k]
    | (None, None) => [{| topic := originalTopic; manualTarget := None |}]
    end.

(** [PHOTO_KEYWORDS]. *)
Definition PHOTO_KEYWORDS : regex :=
  seqs [WordBoundary;
        alts (List.map wordAnyCase
                ["photo"; "photos"; "picture"; "pictures"; "pic"; "pics"; "gallery";
                 "images"; "shots"; "snap"; "snapshots"]%string);
        WordBoundary].

Definition topicRequestsPhotos (topicText : str) : bool := test PHOTO_KEYWORDS topicText.

Section Payload.

Variable U : UnicodeTables.
(** An image of a gallery. *)
Variable Photo : Type.
(** [resolveTopicPhotos], which looks the photo directories up. *)
Variable resolveTopicPhotos : str -> option (list Photo).
(** The readings of [Date.now()] during the [n]-th selection. *)
Variable clock : nat -> nat -> Z.

(** [TransitionTopicSpec]. *)
Record TransitionTopicSpec : Type := {
  spec_topic : str;
  media : MediaMatch;
  gallery : option (list Photo)
}.

(** [uuid.trim().toLowerCase()]. *)
Definition mediaKey (it : MediaPlaylistItem) : str := toLowerCase U (trim (uuid it)).

(** [const idx = available.findIndex(...); if (idx >= 0) available.splice(idx, 1)]. *)
Fixpoint removeKey (key : str) (available : list MediaPlaylistItem)
  : list MediaPlaylistItem :=
  match available with
  | [] => []
  | entry :: rest =>
      if eqb (mediaKey entry) key then rest else entry :: removeKey key rest
  end.

Definition hasFilePath (it : MediaPlaylistItem) : bool :=
  match filePath it with
  | Some (_ :: _) => true
  | _ => false
  end.

(** The variables of the loops: the assets still free, the payload, and the
    number of selections made. *)
Record loopState : Type := {
  available : list MediaPlaylistItem;
  topicPayload : list TransitionTopicSpec;
  selections : nat
}.

(** Body of the loop over the overrides of a topic. *)
Definition assignMedia (st : loopState) (overrideSpec : TopicOverrideSpec) : loopState :=
  let topicText := trim (topic overrideSpec) in
  if isEmpty topicText then st
  else
    let topicLower := toLowerCase U topicText in
    let requestsPhotos := topicRequestsPhotos topicText in
    let galleryItems := if requestsPhotos then resolveTopicPhotos topicText else None in
    let manual :=
      if (length (available st) =? 0)%nat then None
      else
        match findManualMediaMatch U topicLower (available st) (manualTarget overrideSpec) with
        | Some (m, _) => Some m
        | None => None
        end in
    let automatic :=
      match manual with
      | Some _ => None
      | None =>
          if (length (available st) =? 0)%nat then None
          else selectMediaMatch U (clock (selections st)) topicText (available st)
      end in
    let selections' :=
      match manual with
      | Some _ => selections st
      | None => if (length (available st) =? 0)%nat then selections st else S (selections st)
      end in
    let chosen :=
      match manual with
      | Some m => Some m
      | None =>
          match automatic with
          | Some candidate =>
              if hasFilePath (item candidate)
                 && Number.ge (score candidate) MIN_TRANSITION_MEDIA_SCORE
              then Some candidate else None
          | None => None
          end
      end in
    match chosen with
    | Some m =>
        if hasFilePath (item m) then
          {| available := removeKey (mediaKey (item m)) (available st);
             topicPayload :=
               topicPayload st
               ++ [{| spec_topic := topicText; media := m;
                      gallery := match galleryItems with
                                 | Some (g :: gs) => Some (g :: gs)
                                 | _ => None
                                 end |}];
             selections := selections' |}
        else {| available := available st; topicPayload := topicPayload st;
                selections := selections' |}
    | None =>
        {| available := available st; topicPayload := topicPayload st;
           selections := selections' |}
    end.

(** The loops over the topics and their overrides: [topicPayload]. *)
Definition topicMedia (topics : list str)
  (titlesMediaItems : option (list MediaPlaylistItem)) : list TransitionTopicSpec :=
  match topics with
  | [] => []
  | _ =>
      topicPayload
        (fold_left
           (fun st originalTopic =>
              fold_left assignMedia (deriveTopicOverrides U originalTopic) st)
           topics
           {| available := match titlesMediaItems with Some l => l | None => [] end;
              topicPayload := []; selections := 0 |})
  end.

End Payload.

End Topics.

(** ** Lower thirds (electron/main.ts, [extractBracketedName]) *)

Module LowerThird.
Import JS Unicode Regex.

(** [/\[([^\]]+)\]/g]. *)
Definition bracketed : regex :=
  seqs [unit 91; plus (Unit (fun c => negb (c =? 93))); unit 93].

(** [match[1]]: the group spans the match without its two brackets. *)
Definition group (found : str) : str := removelast (tl found).

Definition extractBracketedName (title : str) : option str :=
  if isEmpty title then None
  else
    List.find (fun candidate => negb (isEmpty candidate))
      (List.map (fun found => trim (group found)) (matchAll bracketed title)).

End LowerThird.

(** ** Local environment files (electron/main.ts, [loadLocalEnvOnce];
    electron/pco.ts, [loadDotEnvOnce]) *)

Module Env.
Import JS Unicode Regex.

(** [process]: the environment and the two marks the loaders leave. *)
Record process : Type := {
  env : gmap str str;
  PROSYNC_ENV_LOADED : bool;
  DOTENV_LOADED : bool
}.

(** [!process.env[key]]: the variable is missing or empty. *)
Definition unset (e : gmap str str) (key : str) : bool :=
  match e !! key with
  | Some (_ :: _) => false
  | _ => true
  end.

(** [text.split(/\r?\n/)]. *)
Fixpoint splitNewlines (s : str) : list str :=
  match s with
  | [] => [[]]
  | 13 :: 10 :: r => [] :: splitNewlines r
  | 10 :: r => [] :: splitNewlines r
  | c :: r =>
      match splitNewlines r with
      | h :: t => (c :: h) :: t
      | [] => [[c]]
      end
  end.

(** [/^"|"$/g], the quote being the unit 34. *)
Definition outerQuote : regex := Alt (Seq Bos (unit 34)) (Seq (unit 34) Eos).

(** [key] and [val] of a line with [=] at the index [eq]. *)
Definition keyOf (trimmed : str) (eq : nat) : str := trim (slice trimmed 0 eq).
Definition valOf (trimmed : str) (eq : nat) : str :=
  replaceAll outerQuote [] (trim (sliceFrom trimmed (S eq))).

(** Body of the loop of [loadLocalEnvOnce] over the lines. *)
Definition localLine (e : gmap str str) (line : str) : gmap str str :=
  let trimmed := trim line in
  if isEmpty trimmed || startsWith trimmed [35] then e
  else
    let eq := indexOf trimmed 61 0 in
    if (eq <=? 0)%Z then e
    else
      let key := keyOf trimmed (Z.to_nat eq) in
      if unset e key then <[key := valOf trimmed (Z.to_nat eq)]> e else e.

(** Body of the loop of [loadDotEnvOnce] over the lines; a line of digits
    alone is the service type id. *)
Definition dotEnvLine (e : gmap str str) (line : str) : gmap str str :=
  let trimmed := trim line in
  if isEmpty trimmed || startsWith trimmed [35] then e
  else
    let eq := indexOf trimmed 61 0 in
    if (0 <? eq)%Z then
      let key := keyOf trimmed (Z.to_nat eq) in
      if unset e key then <[key := valOf trimmed (Z.to_nat eq)]> e else e
    else if test (seqs [Bos; plus digit; Eos]) trimmed
            && unset e (lit "PCO_SERVICE_TYPE_ID")
    then <[lit "PCO_SERVICE_TYPE_ID" := trimmed]> e
    else e.

(** The loop over the candidate files: the first one that exists and can be
    read is loaded, and the loop ends.  [None] is a file that is missing or
    whose reading throws. *)
Fixpoint loadRoots (step : gmap str str -> str -> gmap str str)
  (roots : list (option str)) (e : gmap str str) : gmap str str :=
  match roots with
  | [] => e
  | None :: rest => loadRoots step rest e
  | Some text :: _ => fold_left step (splitNewlines text) e
  end.

Definition loadLocalEnvOnce (p : process) (roots : list (option str)) : process :=
  if PROSYNC_ENV_LOADED p then p
  else {| env := loadRoots localLine roots (env p);
          PROSYNC_ENV_LOADED := true;
          DOTENV_LOADED := DOTENV_LOADED p |}.

Definition loadDotEnvOnce (p : process) (roots : list (option str)) : process :=
  if DOTENV_LOADED p then p
  else {| env := loadRoots dotEnvLine roots (env p);
          PROSYNC_ENV_LOADED := PROSYNC_ENV_LOADED p;
          DOTENV_LOADED := true |}.

End Env.

(** * Properties *)

(** ** Strings *)

Module JSFacts.
Import JS.

Lemma eqb_eq (x y : str) : eqb x y = true <-> x = y.
Proof.
  revert y; induction x as [|a x IH]; intros [|b y]; simpl; split;
    try congruence; try reflexivity.
  - intros H. apply andb_true_iff in H as [Hab Hxy].
    apply N.eqb_eq in Hab. apply IH in Hxy. congruence.
  - intros H. injection H as -> ->. rewrite N.eqb_refl. simpl. now apply IH.
Qed.

Lemma eqb_refl (x : str) : eqb x x = true.
Proof. now apply eqb_eq. Qed.

Lemma isEmpty_true (s : str) : isEmpty s = true <-> s = [].
Proof. destruct s; simpl; split; congruence. Qed.

Lemma isEmpty_false (s : str) : isEmpty s = false <-> s <> [].
Proof. destruct s; simpl; split; congruence. Qed.

Lemma trimStart_head (s : str) :
  match trimStart s with
  | [] => True
  | c :: _ => isWhite c = false
  end.
Proof.
  induction s as [|c s IH]; simpl; [exact I|].
  destruct (isWhite c) eqn:E; [exact IH | exact E].
Qed.

Lemma trimStart_nonwhite (c : N) (s : str) :
  isWhite c = false -> trimStart (c :: s) = c :: s.
Proof. intros H. simpl. now rewrite H. Qed.

Lemma trimStart_idem (s : str) : trimStart (trimStart s) = trimStart s.
Proof.
  pose proof (trimStart_head s) as H.
  destruct (trimStart s) as [|c t]; [reflexivity|].
  now apply trimStart_nonwhite.
Qed.

Lemma trimStart_snoc (l : str) (c : N) :
  isWhite c = false -> trimStart (l ++ [c]) = trimStart l ++ [c].
Proof.
  intros H. induction l as [|x l IH]; simpl.
  - now rewrite H.
  - destruct (isWhite x); [exact IH | reflexivity].
Qed.

Lemma trimEnd_cons (c : N) (t : str) :
  isWhite c = false -> trimEnd (c :: t) = c :: trimEnd t.
Proof.
  intros H. unfold trimEnd. simpl rev.
  rewrite trimStart_snoc by exact H.
  now rewrite rev_app_distr.
Qed.

Lemma trimEnd_idem (s : str) : trimEnd (trimEnd s) = trimEnd s.
Proof.
  unfold trimEnd. rewrite rev_involutive. now rewrite trimStart_idem.
Qed.

(** A trimmed string is empty or starts with a unit that is not white
    space. *)
Lemma trim_head (s : str) :
  match trim s with
  | [] => True
  | c :: _ => isWhite c = false
  end.
Proof.
  unfold trim. pose proof (trimStart_head s) as H.
  destruct (trimStart s) as [|c t]; [exact I|].
  rewrite trimEnd_cons by exact H. exact H.
Qed.

Lemma trimStart_trim (s : str) : trimStart (trim s) = trim s.
Proof.
  pose proof (trim_head s) as H.
  destruct (trim s) as [|c t]; [reflexivity|].
  now apply trimStart_nonwhite.
Qed.

Lemma trim_idem (s : str) : trim (trim s) = trim s.
Proof.
  unfold trim at 1. rewrite trimStart_trim.
  unfold trim. apply trimEnd_idem.
Qed.

Lemma trimStart_length (s : str) : (length (trimStart s) <= length s)%nat.
Proof.
  induction s as [|c s IH]; simpl; [lia|].
  destruct (isWhite c); simpl; lia.
Qed.

Lemma trimEnd_length (s : str) : (length (trimEnd s) <= length s)%nat.
Proof.
  unfold trimEnd. rewrite length_rev.
  pose proof (trimStart_length (rev s)) as H. now rewrite length_rev in H.
Qed.

Lemma trim_length (s : str) : (length (trim s) <= length s)%nat.
Proof.
  unfold trim. pose proof (trimEnd_length (trimStart s)).
  pose proof (trimStart_length s). lia.
Qed.

End JSFacts.

(** ** Lyric segmenter *)

Module LyricsFacts.
Import JS Unicode Lyrics JSFacts.

(** The fuel [splitLyricLine] gives its loop is never used up: more fuel does
    not change the result. *)
Lemma splitLoop_fuel (fuel k maxLength : nat) :
  forall (segments : list str) (remaining : str),
    (length remaining <= fuel)%nat ->
    splitLoop (fuel + k) maxLength segments remaining
    = splitLoop fuel maxLength segments remaining.
Proof.
  induction fuel as [|fuel IH]; intros segments remaining Hlen.
  - assert (remaining = []) as -> by (destruct remaining; simpl in *; [reflexivity | lia]).
    destruct k; reflexivity.
  - simpl. destruct (length remaining <=? maxLength)%nat eqn:Hshort; [reflexivity|].
    set (b0 := lastIndexOf remaining 32 maxLength).
    set (b := if (b0 <=? 0)%Z then indexOf remaining 32 maxLength else b0).
    destruct (b <=? 0)%Z eqn:Hb; [reflexivity|].
    apply IH.
    apply Z.leb_gt in Hb.
    pose proof (trim_length (sliceFrom remaining (Z.to_nat b))) as Ht.
    unfold sliceFrom in *. rewrite length_skipn in Ht.
    apply Nat.leb_gt in Hshort.
    assert (1 <= Z.to_nat b)%nat by lia. lia.
Qed.

(** A line of a slide: not empty, and without white space at its ends, so not
    blank. *)
Definition goodLine (l : str) : Prop := l <> [] /\ trim l = l.

Definition goodSlide (s : list str) : Prop :=
  (1 <= length s <= 2)%nat /\ Forall goodLine s.

(** What [buildLyricSlides] keeps true between two steps. *)
Record invariant (b : builder) : Prop := {
  inv_concat : concat (slides b) ++ current b = expanded b;
  inv_slides : Forall goodSlide (slides b);
  inv_current : Forall goodLine (current b);
  inv_length : (length (current b) <= 1)%nat
}.

(** The cleaned, wrapped lines one source line contributes. *)
Definition cleanParts (raw : str) : list str :=
  if isEmpty (trim raw) then []
  else List.filter (fun s => negb (isEmpty s)) (List.map trim (splitLyricLine (trim raw))).

(** The cleaned, wrapped line stream of a block. *)
Definition wrappedLines (lines : list str) : list str := flat_map cleanParts lines.

Lemma flush_expanded (b : builder) : expanded (flush b) = expanded b.
Proof. unfold flush. now destruct (current b). Qed.

Lemma flush_current (b : builder) : current (flush b) = [].
Proof. unfold flush. destruct (current b) eqn:E; [exact E | reflexivity]. Qed.

(** Flushing keeps the slides well formed as soon as the open slide holds at
    most two lines. *)
Lemma flush_invariant (b : builder) :
  concat (slides b) ++ current b = expanded b ->
  Forall goodSlide (slides b) ->
  Forall goodLine (current b) ->
  (length (current b) <= 2)%nat ->
  invariant (flush b).
Proof.
  intros Hc Hs Hcur Hlen. unfold flush.
  destruct (current b) as [|x cur] eqn:E.
  - constructor; rewrite ?E; simpl; auto.
  - constructor; simpl.
    + rewrite concat_app. simpl. now rewrite !app_nil_r.
    + apply Forall_app. split; [exact Hs|].
      constructor; [|constructor]. split; [simpl in *; lia | exact Hcur].
    + constructor.
    + lia.
Qed.

Lemma pushPart_expanded (b : builder) (part : str) :
  expanded (pushPart b part)
  = expanded b ++ (if isEmpty (trim part) then [] else [trim part]).
Proof.
  unfold pushPart. destruct (isEmpty (trim part)); [now rewrite app_nil_r|].
  unfold flushIfFull. simpl.
  repeat (match goal with
          | |- context [if ?c then _ else _] => destruct c
          end; simpl; rewrite ?flush_expanded; simpl); reflexivity.
Qed.

Lemma flushIfFull_short (b : builder) :
  (length (current b) <= 1)%nat -> flushIfFull b = b.
Proof.
  intros H. unfold flushIfFull.
  destruct (length (current b) =? 2)%nat eqn:E; [|reflexivity].
  apply Nat.eqb_eq in E. lia.
Qed.

Lemma pushPart_invariant (b : builder) (part : str) :
  invariant b -> invariant (pushPart b part).
Proof.
  intros [Hc Hs Hcur Hlen]. unfold pushPart.
  destruct (isEmpty (trim part)) eqn:Hempty; [now constructor|].
  assert (goodLine (trim part)) as Hgood.
  { split; [now apply isEmpty_false | apply trim_idem]. }
  rewrite (flushIfFull_short
             {| expanded := expanded b ++ [trim part]; slides := slides b;
                current := current b |}) by exact Hlen.
  simpl.
  unfold flushIfFull. simpl.
  destruct (length (current b ++ [trim part]) =? 2)%nat eqn:Hnow.
  - apply flush_invariant; simpl; auto.
    + rewrite app_assoc. now rewrite Hc.
    + apply Forall_app. split; [exact Hcur | now constructor].
    + apply Nat.eqb_eq in Hnow. lia.
  - rewrite length_app in Hnow. simpl in Hnow. apply Nat.eqb_neq in Hnow.
    constructor; simpl.
    + rewrite app_assoc. now rewrite Hc.
    + exact Hs.
    + apply Forall_app. split; [exact Hcur | now constructor].
    + rewrite length_app. simpl. lia.
Qed.

Lemma pushParts_invariant (parts : list str) :
  forall b, invariant b -> invariant (fold_left pushPart parts b).
Proof.
  induction parts as [|x parts IH]; intros b Hb; simpl; [exact Hb|].
  apply IH. now apply pushPart_invariant.
Qed.

Lemma pushParts_expanded (parts : list str) :
  forall b,
    expanded (fold_left pushPart parts b)
    = expanded b ++ List.filter (fun s => negb (isEmpty s)) (List.map trim parts).
Proof.
  induction parts as [|x parts IH]; intros b; simpl; [now rewrite app_nil_r|].
  rewrite IH, pushPart_expanded.
  destruct (isEmpty (trim x)); simpl; rewrite <- app_assoc; reflexivity.
Qed.

Lemma pushLine_invariant (b : builder) (raw : str) :
  invariant b -> invariant (pushLine b raw).
Proof.
  intros Hb. unfold pushLine.
  destruct (isEmpty (trim raw)).
  - destruct Hb as [Hc Hs Hcur Hlen]. apply flush_invariant; auto.
  - now apply pushParts_invariant.
Qed.

Lemma pushLine_expanded (b : builder) (raw : str) :
  expanded (pushLine b raw) = expanded b ++ cleanParts raw.
Proof.
  unfold pushLine, cleanParts. destruct (isEmpty (trim raw)).
  - now rewrite flush_expanded, app_nil_r.
  - apply pushParts_expanded.
Qed.

Lemma pushLines_invariant (lines : list str) :
  forall b, invariant b -> invariant (fold_left pushLine lines b).
Proof.
  induction lines as [|x lines IH]; intros b Hb; simpl; [exact Hb|].
  apply IH. now apply pushLine_invariant.
Qed.

Lemma pushLines_expanded (lines : list str) :
  forall b, expanded (fold_left pushLine lines b) = expanded b ++ wrappedLines lines.
Proof.
  induction lines as [|x lines IH]; intros b; simpl; [now rewrite app_nil_r|].
  rewrite IH, pushLine_expanded. now rewrite <- app_assoc.
Qed.

Lemma initial_invariant :
  invariant {| expanded := []; slides := []; current := [] |}.
Proof. constructor; simpl; auto. Qed.

(** The result of [buildLyricSlides] on any list of source lines. *)
Lemma buildLyricSlides_result (lines : list str) :
  let '(stream, slides) := buildLyricSlides lines in
  stream = wrappedLines lines
  /\ concat slides = stream
  /\ Forall (fun slide => (1 <= length slide <= 2)%nat) slides
  /\ Forall (Forall goodLine) slides.
Proof.
  unfold buildLyricSlides.
  set (b := fold_left pushLine lines _).
  assert (invariant b) as Hb by (apply pushLines_invariant, initial_invariant).
  assert (expanded b = wrappedLines lines) as He by (unfold b; now rewrite pushLines_expanded).
  destruct Hb as [Hc Hs Hcur Hlen].
  assert (invariant (flush b)) as [Hc' Hs' _ _] by (apply flush_invariant; auto).
  rewrite flush_current, app_nil_r in Hc'.
  rewrite flush_expanded in *.
  repeat split.
  - exact He.
  - exact Hc'.
  - eapply List.Forall_impl; [|exact Hs']. intros s [H _]. exact H.
  - eapply List.Forall_impl; [|exact Hs']. intros s [_ H]. exact H.
Qed.

(** [x ?? []] on the optional arrays of a section. *)
Definition orNone {A} (o : option (list A)) : list A :=
  match o with Some l => l | None => [] end.

Lemma orNone_nonEmptyArray {A} (l : list A) : orNone (nonEmptyArray l) = l.
Proof. now destruct l. Qed.

(** C7.  For every list of source lines, [buildLyricSlides] returns the
    cleaned, wrapped line stream as [lines]; the slides, concatenated in
    order, are exactly that stream; every slide holds one or two lines; and
    every line of a slide is non-empty and carries no white space at its
    ends, so no blank source line appears in a slide.  The same holds of the
    [lyricLines] and [lyricSlides] that [enrichSectionLyrics] sets on a
    section, whatever its lyrics. *)
Theorem segmenter_slides :
  (forall lines : list str,
     let '(stream, slides) := buildLyricSlides lines in
     stream = wrappedLines lines
     /\ concat slides = stream
     /\ Forall (fun slide => (1 <= length slide <= 2)%nat) slides
     /\ Forall (Forall (fun line => line <> [] /\ trim line = line)) slides)
  /\ (forall lyr : option str,
        let sec := enrichSectionLyrics lyr in
        let slides := orNone (lyricSlides sec) in
        concat slides = orNone (lyricLines sec)
        /\ Forall (fun slide => (1 <= length slide <= 2)%nat) slides
        /\ Forall (Forall (fun line => line <> [] /\ trim line = line)) slides).
Proof.
  split.
  - intros lines. apply buildLyricSlides_result.
  - intros lyr. unfold enrichSectionLyrics.
    destruct lyr as [[|c text]|]; try (simpl; repeat split; constructor).
    set (base := List.map stripEnds (split 10 (c :: text))).
    pose proof (buildLyricSlides_result base) as H.
    destruct (buildLyricSlides base) as [stream slides].
    cbn [lyricSlides lyricLines]. rewrite !orNone_nonEmptyArray.
    destruct H as (_ & Hc & Hlen & Hgood). repeat split; assumption.
Qed.

End LyricsFacts.

(** ** Playlist differ *)

Module PlaylistFacts.
Import JS Unicode Playlist JSFacts.

(** The index test of [every] compares position by position. *)
Lemma everySame_spec (xs ys : list str) :
  forall i : nat,
    everySame xs ys i = true
    <-> (forall (k : nat) (x : str),
           nth_error xs k = Some x -> nth_error ys (i + k) = Some x).
Proof.
  induction xs as [|x xs IH]; intros i; simpl.
  - split; [|reflexivity]. intros _ k y Hk. destruct k; discriminate.
  - split.
    + intros H k y Hk.
      destruct (nth_error ys i) as [y0|] eqn:Hy; [|discriminate].
      apply andb_true_iff in H as [Hxy Hrest]. apply eqb_eq in Hxy. subst y0.
      destruct k as [|k]; simpl in Hk.
      * injection Hk as <-. now rewrite Nat.add_0_r.
      * replace (i + S k)%nat with (S i + k)%nat by lia.
        now apply (proj1 (IH (S i)) Hrest).
    + intros H.
      pose proof (H 0%nat x eq_refl) as H0. rewrite Nat.add_0_r in H0.
      rewrite H0, eqb_refl. simpl.
      apply IH. intros k y Hk.
      replace (S i + k)%nat with (i + S k)%nat by lia. now apply H.
Qed.

Lemma nth_error_eq_all (xs ys : list str) :
  length xs = length ys ->
  (forall i : nat, (i < length xs)%nat -> nth_error xs i = nth_error ys i) ->
  xs = ys.
Proof.
  revert ys; induction xs as [|x xs IH]; intros [|y ys] Hlen Hnth;
    simpl in *; try discriminate; [reflexivity|].
  f_equal.
  - specialize (Hnth 0%nat ltac:(lia)). simpl in Hnth. congruence.
  - apply IH; [lia|]. intros i Hi. apply (Hnth (S i)). lia.
Qed.

(** The differ answers "equal" exactly for the same sequence. *)
Lemma refsEqual_eq (current desired : list str) :
  refsEqual current desired = true <-> current = desired.
Proof.
  unfold refsEqual. split.
  - intros H. apply andb_true_iff in H as [Hlen Hall].
    apply Nat.eqb_eq in Hlen.
    apply nth_error_eq_all; [exact Hlen|].
    intros i Hi.
    destruct (nth_error current i) as [x|] eqn:Hx.
    + symmetry. now apply (proj1 (everySame_spec current desired 0) Hall i x).
    + apply nth_error_None in Hx. lia.
  - intros <-. rewrite Nat.eqb_refl. simpl.
    apply everySame_spec. intros k x Hk. exact Hk.
Qed.

Definition isPut (r : request) : bool :=
  match r with
  | PutReplace _ _ => true
  | PostCreate _ => false
  end.

(** A run sends the replacing PUT. *)
Definition replaces (sent : list request) : bool := existsb isPut sent.

(** A run gets as far as the comparison: host and port are given and the
    playlist is found or created. *)
Definition reachesDiffer (p : payload) (h : hostAnswers) : bool :=
  negb (isEmpty (host p) || (port p =? 0)%Z) &&
  match nonEmpty (foundPlaylist h) with
  | Some _ => true
  | None => if is2xx (createStatus h) then
              match nonEmpty (createId h) with Some _ => true | None => false end
            else false
  end.

(** The two sequences [syncPlaylist] compares. *)
Definition comparedCurrent (U : UnicodeTables) (h : hostAnswers) : list str :=
  currentRefs U (currentItems h).
Definition comparedDesired (U : UnicodeTables) (p : payload) (h : hostAnswers) : list str :=
  desiredRefs U (buildDesired U (refsByNorm h) 0 (desiredSource p)).

Lemma syncPlaylist_replaces (U : UnicodeTables) (p : payload) (h : hostAnswers) :
  replaces (snd (syncPlaylist U p h))
  = reachesDiffer p h && negb (refsEqual (comparedCurrent U h) (comparedDesired U p h)).
Proof.
  unfold syncPlaylist, reachesDiffer, comparedCurrent, comparedDesired.
  destruct (isEmpty (host p) || (port p =? 0)%Z); [reflexivity|]. simpl negb.
  destruct (nonEmpty (foundPlaylist h)) as [pl|]; simpl.
  - destruct (refsEqual _ _); [reflexivity|].
    destruct (is2xx (putStatus h)); reflexivity.
  - destruct (is2xx (createStatus h)); [|reflexivity].
    destruct (nonEmpty (createId h)) as [pl|]; [|reflexivity]. simpl.
    destruct (refsEqual _ _); [reflexivity|].
    destruct (is2xx (putStatus h)); reflexivity.
Qed.

Lemma syncPlaylist_changed (U : UnicodeTables) (p : payload) (h : hostAnswers) :
  changed (fst (syncPlaylist U p h))
  = reachesDiffer p h
    && negb (refsEqual (comparedCurrent U h) (comparedDesired U p h))
    && is2xx (putStatus h).
Proof.
  unfold syncPlaylist, reachesDiffer, comparedCurrent, comparedDesired.
  destruct (isEmpty (host p) || (port p =? 0)%Z); [reflexivity|]. simpl negb.
  destruct (nonEmpty (foundPlaylist h)) as [pl|]; simpl.
  - destruct (refsEqual _ _); [reflexivity|].
    destruct (is2xx (putStatus h)); reflexivity.
  - destruct (is2xx (createStatus h)); [|reflexivity].
    destruct (nonEmpty (createId h)) as [pl|]; [|reflexivity]. simpl.
    destruct (refsEqual _ _); [reflexivity|].
    destruct (is2xx (putStatus h)); reflexivity.
Qed.

(** C6.  The differ reports "unchanged" exactly when the two reference
    sequences have the same length and the same key at every index; a
    sequence is unchanged against itself, the empty one included; a
    reordering that is not the same sequence is a change.  In a run, the
    replacing PUT is sent exactly when the run reaches the comparison and the
    sequences differ, and [changed] is true exactly when that PUT succeeds:
    with equal sequences the run reports [changed = false] and replaces
    nothing. *)
Theorem differ_positional_exact :
  (forall current desired : list str,
     refsEqual current desired = true
     <-> (length current = length desired
          /\ forall i : nat, (i < length current)%nat ->
               nth_error current i = nth_error desired i))
  /\ (forall refs : list str, refsEqual refs refs = true)
  /\ refsEqual [] [] = true
  /\ (forall current desired : list str,
        Permutation current desired -> current <> desired ->
        refsEqual current desired = false)
  /\ (forall (U : UnicodeTables) (p : payload) (h : hostAnswers),
        let equal := refsEqual (comparedCurrent U h) (comparedDesired U p h) in
        let '(result, sent) := syncPlaylist U p h in
        replaces sent = reachesDiffer p h && negb equal
        /\ changed result = reachesDiffer p h && negb equal && is2xx (putStatus h)
        /\ (reachesDiffer p h = true ->
            (changed result = false /\ replaces sent = false <-> equal = true))).
Proof.
  split; [|split; [|split; [|split]]].
  - intros current desired. rewrite refsEqual_eq. split.
    + intros <-. split; [reflexivity | intros; reflexivity].
    + intros [Hlen Hnth]. now apply nth_error_eq_all.
  - intros refs. now apply refsEqual_eq.
  - reflexivity.
  - intros current desired _ Hne.
    destruct (refsEqual current desired) eqn:E; [|reflexivity].
    apply refsEqual_eq in E. contradiction.
  - intros U p h equal.
    pose proof (syncPlaylist_replaces U p h) as Hr.
    pose proof (syncPlaylist_changed U p h) as Hc.
    destruct (syncPlaylist U p h) as [result sent]. simpl in Hr, Hc.
    fold equal in Hr, Hc.
    split; [exact Hr | split; [exact Hc|]].
    intros Hreach. rewrite Hreach in Hr, Hc. simpl in Hr, Hc.
    rewrite Hr, Hc. destruct equal, (is2xx (putStatus h)); simpl; intuition congruence.
Qed.

(** The scenario of the specification: the desired sequence
    [p:A, h:intro, p:B] against itself, and against [p:B, h:intro, p:A]. *)
Example differ_scenario :
  let desired := [lit "p:A"; lit "h:intro"; lit "p:B"] in
  refsEqual [lit "p:A"; lit "h:intro"; lit "p:B"] desired = true
  /\ refsEqual [lit "p:B"; lit "h:intro"; lit "p:A"] desired = false.
Proof. split; reflexivity. Qed.

End PlaylistFacts.

(** ** Playlist synchronization: unresolved presentations *)

Module PlaylistDropFacts.
Import JS Unicode Playlist JSFacts.

Section Desired.

Variable U : UnicodeTables.
Variable refs : gmap str (list libraryRef).

Lemma buildDesired_app (l1 l2 : list sourceItem) :
  forall i : nat,
    buildDesired U refs i (l1 ++ l2)
    = buildDesired U refs i l1 ++ buildDesired U refs (i + length l1) l2.
Proof.
  induction l1 as [|it l1 IH]; intros i; simpl.
  - now rewrite Nat.add_0_r.
  - replace (i + S (length l1))%nat with (S i + length l1)%nat by lia.
    destruct (type it).
    + simpl. now rewrite IH.
    + destruct (refs !! Title.normalizeTitle U (title it)) as [[|ref rest]|];
        simpl; now rewrite IH.
Qed.

Lemma buildDesired_length (source : list sourceItem) :
  forall i : nat, (length (buildDesired U refs i source) <= length source)%nat.
Proof.
  induction source as [|it source IH]; intros i; simpl; [lia|].
  destruct (type it); simpl.
  - specialize (IH (S i)). lia.
  - destruct (refs !! Title.normalizeTitle U (title it)) as [[|ref rest]|];
      simpl; specialize (IH (S i)); lia.
Qed.

(** One presentation without an entry makes the payload strictly shorter
    than the request. *)
Lemma buildDesired_unresolved_shorter (pre post : list sourceItem) (it : sourceItem) :
  type it = presentation ->
  refs !! Title.normalizeTitle U (title it) = None ->
  (length (buildDesired U refs 0 (pre ++ it :: post)) < length (pre ++ it :: post))%nat.
Proof.
  intros Hty Hnone. rewrite buildDesired_app. simpl.
  rewrite Hty, Hnone. rewrite !length_app. simpl.
  pose proof (buildDesired_length pre 0).
  pose proof (buildDesired_length post (S (length pre))). lia.
Qed.

End Desired.

(** A request of three items, one of them unknown to the library, against a
    host holding an empty playlist and accepting the PUT. *)
Definition dropRequest : payload :=
  {| host := lit "127.0.0.1"; port := 1025; name := lit "Sunday Service";
     titles := None;
     items := Some [ {| type := header; title := lit "SERVICE" |};
                     {| type := presentation; title := lit "Living Hope" |};
                     {| type := presentation; title := lit "Unknown Song" |} ] |}.

Definition dropHost : hostAnswers :=
  {| refsByNorm :=
       {[ lit "living hope" :=
            [ {| library_id := lit "LIB"; ref_id := lit "UUID-1";
                 ref_name := lit "Living Hope" |} ] ]};
     foundPlaylist := Some (lit "PL-1");
     createStatus := 0; createId := None;
     currentItems := [];
     putStatus := 200 |}.

(** The desired payload and the totals.  In the desired payload every header
    of the request is present, with its name and its index in the request; a
    presentation whose normalized title has no entry in the library index
    contributes nothing, and one that has an entry contributes the first
    reference of the entry.  So the number of payload items
    ([totalResolved]) is at most the number of requested items, which is the
    [totalDesired] of every result but that of a playlist neither found nor
    created.  And a run reports [ok = true] after replacing the playlist by
    fewer items than were requested. *)
Theorem unresolved_presentations_dropped :
  (forall (U : UnicodeTables) (refs : gmap str (list libraryRef))
          (pre post : list sourceItem) (it : sourceItem),
     buildDesired U refs 0 (pre ++ it :: post)
     = buildDesired U refs 0 pre
       ++ match type it with
          | header => [DesiredHeader (title it) (length pre)]
          | presentation =>
              match refs !! Title.normalizeTitle U (title it) with
              | None | Some [] => []
              | Some (ref :: _) => [DesiredPresentation (ref_id ref)]
              end
          end
       ++ buildDesired U refs (S (length pre)) post)
  /\ (forall (U : UnicodeTables) (refs : gmap str (list libraryRef))
             (source : list sourceItem),
        (length (buildDesired U refs 0 source) <= length source)%nat)
  /\ (forall (U : UnicodeTables) (p : payload) (h : hostAnswers),
        let result := fst (syncPlaylist U p h) in
        (totalResolved result <= length (desiredSource p))%nat
        /\ (error result <> Some NoPlaylist ->
            totalDesired result = length (desiredSource p)
            /\ (totalResolved result <= totalDesired result)%nat)
        /\ (ok result = true ->
            totalResolved result
            = length (buildDesired U (refsByNorm h) 0 (desiredSource p))))
  /\ (let '(result, sent) := syncPlaylist asciiTables dropRequest dropHost in
      ok result = true /\ changed result = true
      /\ totalDesired result = 3%nat /\ totalResolved result = 2%nat
      /\ sent = [PutReplace (lit "PL-1")
                   [DesiredHeader (lit "SERVICE") 0;
                    DesiredPresentation (lit "UUID-1")]]).
Proof.
  split; [|split; [|split]].
  - intros U refs pre post it. rewrite buildDesired_app. simpl.
    destruct (type it); [reflexivity|].
    destruct (refs !! Title.normalizeTitle U (title it)) as [[|ref rest]|]; reflexivity.
  - intros U refs source. apply buildDesired_length.
  - intros U p h.
    pose proof (buildDesired_length U (refsByNorm h) (desiredSource p) 0) as Hlen.
    unfold syncPlaylist.
    destruct (isEmpty (host p) || (port p =? 0)%Z); simpl.
    { repeat split; try lia; try discriminate. }
    destruct (nonEmpty (foundPlaylist h)) as [pl|].
    + destruct (refsEqual _ _); [|destruct (is2xx (putStatus h))]; simpl;
        repeat split; auto; try lia; try discriminate.
    + destruct (if is2xx (createStatus h) then nonEmpty (createId h) else None) as [pl|].
      * destruct (refsEqual _ _); [|destruct (is2xx (putStatus h))]; simpl;
          repeat split; auto; try lia; try discriminate.
      * simpl. repeat split; auto; try lia; try discriminate; try congruence.
  - vm_compute. repeat split.
Qed.

(** The same request against a playlist that already holds the two resolved
    items: nothing is sent and the run reports no change. *)
Example same_sequence_not_replaced :
  syncPlaylist asciiTables dropRequest
    {| refsByNorm := refsByNorm dropHost; foundPlaylist := Some (lit "PL-1");
       createStatus := 0; createId := None;
       currentItems := [CurrentHeader (Some (lit "Service"));
                        CurrentPresentation (Some (lit "UUID-1"))];
       putStatus := 200 |}
  = ({| ok := true; changed := false; created := Some false;
        playlistId := Some (lit "PL-1"); totalDesired := 3; totalResolved := 2;
        error := None |}, []).
Proof. vm_compute. reflexivity. Qed.

(** A host on which no playlist of the name is found and the creating POST
    is refused. *)
Definition refusingHost : hostAnswers :=
  {| refsByNorm := refsByNorm dropHost;
     foundPlaylist := None;
     createStatus := 500; createId := None;
     currentItems := [];
     putStatus := 0 |}.

(** C10 on the code.  The request of three items, given as [items] without
    [titles], against a host where the playlist is neither found nor
    created: the result counts the titles of the request, none, as desired,
    and the two resolved items as resolved, so [totalResolved] exceeds
    [totalDesired].  Every other result takes [totalDesired] from the
    requested items. *)
Theorem totals_without_playlist :
  syncPlaylist asciiTables dropRequest refusingHost
  = ({| ok := false; changed := false; created := None; playlistId := None;
        totalDesired := 0; totalResolved := 2; error := Some NoPlaylist |},
     [PostCreate (lit "Sunday Service")])
  /\ length (desiredSource dropRequest) = 3%nat
  /\ ~ (totalResolved (fst (syncPlaylist asciiTables dropRequest refusingHost))
        <= totalDesired (fst (syncPlaylist asciiTables dropRequest refusingHost)))%nat.
Proof.
  split; [vm_compute; reflexivity|]. split; [reflexivity|].
  vm_compute. lia.
Qed.

End PlaylistDropFacts.

(** ** Plan ingestion: the SERVICE header *)

Module PlanFacts.
Import JS Unicode Plan JSFacts.

Section Slicing.

Variable U : UnicodeTables.
Variable classifyPlanItem : kind -> str -> bool -> category.
Variable extractNotes : attributes -> option str * option str.

(** The item the slicing loop builds from a node when [built] items are
    already there. *)
Definition rebuiltItem (built : nat) (n : node) : PCOPlanItem :=
  let a := attrs n in
  let header := isHeaderType (itemTypeOf U a) in
  let k := kindOf (itemTypeOf U a) in
  {| id := node_id n; item_kind := k; title := titleOf a;
     order := orderOf a built;
     description := fst (extractNotes a); notes := snd (extractNotes a);
     item_category := classifyPlanItem k (titleOf a) header;
     isHeader := if header then Some true else None;
     lengthSeconds := lengthOf a |}.

(** One item per node, in the order of the nodes. *)
Fixpoint itemsOf (built : nat) (nodes : list node) : list PCOPlanItem :=
  match nodes with
  | [] => []
  | n :: r => rebuiltItem built n :: itemsOf (S built) r
  end.

Lemma rebuild_fold (nodes : list node) :
  forall rebuilt : list PCOPlanItem,
    fold_left (rebuildNode U classifyPlanItem extractNotes) nodes rebuilt
    = rebuilt ++ itemsOf (length rebuilt) nodes.
Proof.
  induction nodes as [|n nodes IH]; intros rebuilt; simpl.
  - now rewrite app_nil_r.
  - rewrite IH.
    change (rebuildNode U classifyPlanItem extractNotes rebuilt n)
      with (rebuilt ++ [rebuiltItem (length rebuilt) n]).
    rewrite length_app. simpl. rewrite <- app_assoc. simpl.
    replace (length rebuilt + 1)%nat with (S (length rebuilt)) by lia.
    reflexivity.
Qed.

Lemma itemsOf_ids (nodes : list node) :
  forall built, List.map id (itemsOf built nodes) = List.map node_id nodes.
Proof.
  induction nodes as [|n nodes IH]; intros built; simpl; [reflexivity|].
  now rewrite IH.
Qed.

Lemma ingest_ids (nodes : list node) :
  forall items : list PCOPlanItem,
    List.map id (fold_left (ingestNode U classifyPlanItem extractNotes) nodes items)
    = List.map id items ++ List.map node_id nodes.
Proof.
  induction nodes as [|n nodes IH]; intros items; simpl.
  - now rewrite app_nil_r.
  - rewrite IH. unfold ingestNode at 1. rewrite map_app. simpl.
    now rewrite <- app_assoc.
Qed.

(** [findIndex] returns the first position that satisfies the predicate. *)
Lemma findIndex_first (pred : node -> bool) (pre post : list node) (h : node) :
  Forall (fun n => pred n = false) pre -> pred h = true ->
  findIndex pred (pre ++ h :: post) = Some (length pre).
Proof.
  intros Hpre Hh. induction Hpre as [|n pre Hn _ IH]; simpl.
  - now rewrite Hh.
  - now rewrite Hn, IH.
Qed.

Lemma findIndex_none (pred : node -> bool) (nodes : list node) :
  Forall (fun n => pred n = false) nodes -> findIndex pred nodes = None.
Proof.
  intros H. induction H as [|n nodes Hn _ IH]; simpl; [reflexivity|].
  now rewrite Hn, IH.
Qed.

(** A list with a service header splits at the first one. *)
Lemma first_service_header (pred : node -> bool) (nodes : list node) :
  Exists (fun n => pred n = true) nodes ->
  exists pre h post,
    nodes = pre ++ h :: post /\ pred h = true
    /\ Forall (fun n => pred n = false) pre.
Proof.
  induction nodes as [|n nodes IH]; intros H; [inversion H|].
  destruct (pred n) eqn:Hn.
  - exists [], n, nodes. repeat split; [exact Hn | constructor].
  - assert (Exists (fun n => pred n = true) nodes) as H'.
    { inversion H; subst; [congruence | assumption]. }
    destruct (IH H') as (pre & h & post & -> & Hh & Hpre).
    exists (n :: pre), h, post. repeat split; [exact Hh | now constructor].
Qed.

(** The two exclusions of [isServiceHeader] never decide: a title that
    starts with the word "service" starts with neither prefix.  A service
    header is a header whose normalized title starts with that word. *)
Lemma isServiceHeader_spec (n : node) :
  isServiceHeader U n
  = isHeaderType (itemTypeOf U (attrs n))
    && startsWithServiceWord
         (norm U (orElse (orStr (a_title (attrs n)) (a_description (attrs n))) [])).
Proof.
  unfold isServiceHeader, startsWithServiceWord.
  destruct (isHeaderType (itemTypeOf U (attrs n))); [|reflexivity]. simpl.
  set (t := norm U _).
  destruct (startsWith t (lit "pre-service")) eqn:Hpre.
  - destruct t as [|x t']; [discriminate|].
    change (startsWith (x :: t') (lit "pre-service"))
      with ((112 =? x) && startsWith t' (lit "re-service")) in Hpre.
    apply andb_true_iff in Hpre as [Hx _]. apply N.eqb_eq in Hx. subst x.
    reflexivity.
  - destruct (startsWith t (lit "post-service")) eqn:Hpost; [|reflexivity].
    destruct t as [|x t']; [discriminate|].
    change (startsWith (x :: t') (lit "post-service"))
      with ((112 =? x) && startsWith t' (lit "ost-service")) in Hpost.
    apply andb_true_iff in Hpost as [Hx _]. apply N.eqb_eq in Hx. subst x.
    reflexivity.
Qed.

(** A service header is a header: its item carries [isHeader = true]. *)
Lemma service_header_is_header (n : node) :
  isServiceHeader U n = true ->
  isHeader (rebuiltItem 0 n) = Some true.
Proof.
  unfold isServiceHeader, rebuiltItem. simpl.
  destruct (isHeaderType (itemTypeOf U (attrs n))); simpl; [reflexivity | discriminate].
Qed.

End Slicing.

(** C9.  With a service header among the fetched nodes, the returned items
    are built, one per node and in source order, from the first such header
    and every node after it, and from no node before it; the first item is
    that header.  Without one, the items are those of the full list, as the
    first loop built them. *)
Theorem plan_sliced_at_service_header
  (U : UnicodeTables) (classifyPlanItem : kind -> str -> bool -> category)
  (extractNotes : attributes -> option str * option str)
  (st : Z) (nodes : list node) :
  let resp := {| status := st; data := Some nodes |} in
  let items := planItems U classifyPlanItem extractNotes resp in
  (Exists (fun n => isServiceHeader U n = true) nodes ->
   exists pre h post,
     nodes = pre ++ h :: post
     /\ isServiceHeader U h = true
     /\ Forall (fun n => isServiceHeader U n = false) pre
     /\ items = itemsOf U classifyPlanItem extractNotes 0 (h :: post)
     /\ List.map id items = List.map node_id (h :: post)
     /\ length items = S (length post)
     /\ option_map isHeader (head items) = Some (Some true)
     /\ option_map id (head items) = Some (node_id h))
  /\ (Forall (fun n => isServiceHeader U n = false) nodes ->
      items
      = (if (200 <=? st)%Z && (st <? 300)%Z
         then fold_left (ingestNode U classifyPlanItem extractNotes) nodes []
         else [])
      /\ ((200 <=? st)%Z && (st <? 300)%Z = true ->
          List.map id items = List.map node_id nodes)).
Proof.
  intros resp items. unfold items, planItems, resp. simpl. split.
  - intros Hex.
    destruct (first_service_header _ _ Hex) as (pre & h & post & -> & Hh & Hpre).
    exists pre, h, post.
    rewrite (findIndex_first _ pre post h Hpre Hh).
    replace (skipn (length pre) (pre ++ h :: post)) with (h :: post).
    2:{ rewrite skipn_app, Nat.sub_diag, skipn_all. reflexivity. }
    rewrite rebuild_fold. simpl.
    repeat split; auto.
    + f_equal. apply itemsOf_ids.
    + f_equal. clear. generalize 1%nat. induction post; intros; simpl; auto.
    + f_equal. now apply (service_header_is_header U classifyPlanItem extractNotes).
  - intros Hnone. rewrite (findIndex_none _ _ Hnone). split; [reflexivity|].
    intros ->. now rewrite ingest_ids.
Qed.

(** A plan with a pre-service block: a countdown, the SERVICE header, a
    song. *)
Definition headerNode (nid title : string) : node :=
  {| node_id := lit nid;
     node_attributes :=
       Some {| item_type := Some (lit "header"); a_category := None;
               a_title := Some (lit title); a_description := None;
               a_sequence := None; a_position := None; a_length := None;
               a_length_seconds := None; a_length_in_seconds := None |} |}.

Definition itemNode (nid type title : string) : node :=
  {| node_id := lit nid;
     node_attributes :=
       Some {| item_type := Some (lit type); a_category := None;
               a_title := Some (lit title); a_description := None;
               a_sequence := None; a_position := None; a_length := None;
               a_length_seconds := None; a_length_in_seconds := None |} |}.

Example sliced_plan :
  List.map (fun it => (id it, isHeader it, order it))
    (planItems asciiTables (fun _ _ _ => Transitions) (fun _ => (None, None))
       {| status := 200;
          data := Some [headerNode "1" "Pre-Service"; itemNode "2" "media" "Countdown";
                        headerNode "3" "SERVICE"; itemNode "4" "song" "Living Hope"] |})
  = [(lit "3", Some true, 1%Z); (lit "4", None, 2%Z)].
Proof. reflexivity. Qed.

End PlanFacts.

(** ** Title normalizer *)

Module TitleFacts.
Import JS Unicode Title JSFacts.

(** Facts on ranges of code units: every comparison of the goal is settled
    by arithmetic. *)
Ltac settle_comparisons :=
  repeat match goal with
         | |- context [N.leb ?a ?b] =>
             first [ replace (N.leb a b) with true by (symmetry; apply N.leb_le; lia)
                   | replace (N.leb a b) with false by (symmetry; apply N.leb_gt; lia) ]
         | |- context [N.eqb ?a ?b] =>
             first [ replace (N.eqb a b) with false by (symmetry; apply N.eqb_neq; lia)
                   | replace (N.eqb a b) with true by (symmetry; apply N.eqb_eq; lia) ]
         | |- context [N.ltb ?a ?b] =>
             first [ replace (N.ltb a b) with true by (symmetry; apply N.ltb_lt; lia)
                   | replace (N.ltb a b) with false by (symmetry; apply N.ltb_ge; lia) ]
         end.

Lemma alnum_range (c : N) :
  notLowerAlnum c = false -> (97 <= c <= 122) \/ (48 <= c <= 57).
Proof.
  unfold notLowerAlnum. intros H. apply negb_false_iff in H.
  apply orb_true_iff in H as [H|H]; apply andb_true_iff in H as [H1 H2];
    apply N.leb_le in H1, H2; lia.
Qed.

Lemma alnum_not_white (c : N) : notLowerAlnum c = false -> isWhite c = false.
Proof.
  intros H. apply alnum_range in H. unfold isWhite.
  destruct H; settle_comparisons; reflexivity.
Qed.

Lemma alnum_not_space (c : N) : notLowerAlnum c = false -> (c =? 32) = false.
Proof. intros H. apply alnum_range in H. apply N.eqb_neq. lia. Qed.

Lemma alnum_ascii (c : N) : notLowerAlnum c = false -> isAscii c = true.
Proof. intros H. apply alnum_range in H. apply N.ltb_lt. lia. Qed.

Lemma alnum_lower (c : N) : notLowerAlnum c = false -> lowerUnit c = c.
Proof.
  intros H. apply alnum_range in H. unfold lowerUnit.
  destruct H; settle_comparisons; reflexivity.
Qed.

(** The output of [replace(/[^a-z0-9]+/g, ' ')]: lower-case letters, digits
    and single spaces.  [prevSpace] tells that the unit before is a space. *)
Fixpoint weak (prevSpace : bool) (s : str) : bool :=
  match s with
  | [] => true
  | c :: r =>
      if c =? 32 then negb prevSpace && weak true r
      else negb (notLowerAlnum c) && weak false r
  end.

(** The same without a space at the end: words joined by single spaces. *)
Fixpoint strict (prevSpace : bool) (s : str) : bool :=
  match s with
  | [] => negb prevSpace
  | c :: r =>
      if c =? 32 then negb prevSpace && strict true r
      else negb (notLowerAlnum c) && strict false r
  end.

Lemma replaceRuns_weak (z : str) :
  forall inRun : bool, weak inRun (replaceRuns notLowerAlnum inRun z) = true.
Proof.
  induction z as [|c z IH]; intros inRun; simpl; [reflexivity|].
  destruct (notLowerAlnum c) eqn:Hc.
  - destruct inRun; [apply IH|]. simpl. apply IH.
  - simpl. rewrite (alnum_not_space c Hc), Hc. simpl. apply IH.
Qed.

Lemma weak_trimStart (s : str) :
  forall p : bool, weak p s = true -> forall q : bool, weak q (trimStart s) = true.
Proof.
  induction s as [|c s IH]; intros p H q; simpl in *; [reflexivity|].
  destruct (c =? 32) eqn:Hsp.
  - apply N.eqb_eq in Hsp. subst c. simpl.
    apply andb_true_iff in H as [_ H]. now apply (IH true).
  - apply andb_true_iff in H as [Hc H]. apply negb_true_iff in Hc.
    rewrite (alnum_not_white c Hc). simpl. now rewrite Hsp, Hc, H.
Qed.

(** [trimEnd], from the front of the string. *)
Fixpoint trimEndRec (s : str) : str :=
  match s with
  | [] => []
  | c :: r =>
      match trimEndRec r with
      | [] => if isWhite c then [] else [c]
      | t => c :: t
      end
  end.

Lemma trimStart_app (l m : str) :
  trimStart (l ++ m)
  = match trimStart l with
    | [] => trimStart m
    | t => t ++ m
    end.
Proof.
  induction l as [|x l IH]; simpl; [reflexivity|].
  destruct (isWhite x); [exact IH | reflexivity].
Qed.

Lemma trimEnd_rec (s : str) : trimEnd s = trimEndRec s.
Proof.
  induction s as [|c s IH]; [reflexivity|].
  unfold trimEnd in *. simpl. rewrite trimStart_app, <- IH.
  destruct (trimStart (rev s)) as [|x t] eqn:E; simpl.
  - destruct (isWhite c); reflexivity.
  - rewrite rev_app_distr. simpl.
    destruct (rev t ++ [x]) eqn:E'; [|reflexivity].
    destruct (rev t); discriminate.
Qed.

Lemma weak_trimEnd (s : str) :
  forall p : bool,
    weak p s = true -> trimEndRec s = [] \/ strict p (trimEndRec s) = true.
Proof.
  induction s as [|c s IH]; intros p H; simpl in *; [now left|].
  destruct (c =? 32) eqn:Hsp.
  - apply N.eqb_eq in Hsp. subst c.
    apply andb_true_iff in H as [Hp H].
    destruct (IH true H) as [E|E].
    + rewrite E. now left.
    + right. destruct (trimEndRec s) as [|x t]; [discriminate|].
      simpl. rewrite Hp. exact E.
  - apply andb_true_iff in H as [Hc H].
    right. destruct (IH false H) as [E|E].
    + rewrite E. apply negb_true_iff in Hc.
      rewrite (alnum_not_white c Hc). simpl. now rewrite Hsp, Hc.
    + destruct (trimEndRec s) as [|x t] eqn:Et.
      * apply negb_true_iff in Hc. rewrite (alnum_not_white c Hc).
        simpl. now rewrite Hsp, Hc.
      * simpl in *. now rewrite Hsp, Hc.
Qed.

(** A normalized title is empty or made of words joined by single spaces. *)
Lemma normalized_shape (z : str) :
  let y := trim (replaceRuns notLowerAlnum false z) in
  y = [] \/ strict true y = true.
Proof.
  simpl. unfold trim. rewrite trimEnd_rec.
  apply weak_trimEnd.
  apply (weak_trimStart _ false). apply replaceRuns_weak.
Qed.

Lemma strict_replaceRuns (s : str) :
  forall prev inRun : bool,
    (inRun = true -> prev = true) ->
    strict prev s = true ->
    replaceRuns notLowerAlnum inRun s = s.
Proof.
  induction s as [|c s IH]; intros prev inRun Himp H; simpl in *; [reflexivity|].
  destruct (c =? 32) eqn:Hsp.
  - apply N.eqb_eq in Hsp. subst c. simpl.
    apply andb_true_iff in H as [Hp H]. apply negb_true_iff in Hp. subst prev.
    destruct inRun; [specialize (Himp eq_refl); discriminate|].
    f_equal. now apply (IH true).
  - apply andb_true_iff in H as [Hc H]. apply negb_true_iff in Hc.
    rewrite Hc. f_equal. apply (IH false); [discriminate | exact H].
Qed.

Lemma strict_units (s : str) :
  forall prev : bool,
    strict prev s = true ->
    Forall (fun c => c = 32 \/ notLowerAlnum c = false) s.
Proof.
  induction s as [|c s IH]; intros prev H; simpl in *; [constructor|].
  destruct (c =? 32) eqn:Hsp.
  - apply N.eqb_eq in Hsp. apply andb_true_iff in H as [_ H].
    constructor; [now left | now apply (IH true)].
  - apply andb_true_iff in H as [Hc H]. apply negb_true_iff in Hc.
    constructor; [now right | now apply (IH false)].
Qed.

Lemma stripGroup_absent (opening closing : N) (s : str) :
  Forall (fun c => c <> opening) s -> stripGroup opening closing None s = s.
Proof.
  intros H. induction H as [|c s Hc _ IH]; simpl; [reflexivity|].
  apply N.eqb_neq in Hc. now rewrite Hc, IH.
Qed.

Lemma units_ascii (s : str) :
  Forall (fun c => c = 32 \/ notLowerAlnum c = false) s -> forallb isAscii s = true.
Proof.
  intros H. induction H as [|c s Hc _ IH]; simpl; [reflexivity|].
  rewrite IH, andb_true_r. destruct Hc as [->|Hc]; [reflexivity | now apply alnum_ascii].
Qed.

Lemma units_lower (s : str) :
  Forall (fun c => c = 32 \/ notLowerAlnum c = false) s -> List.map lowerUnit s = s.
Proof.
  intros H. induction H as [|c s Hc _ IH]; simpl; [reflexivity|].
  rewrite IH. f_equal. destruct Hc as [->|Hc]; [reflexivity | now apply alnum_lower].
Qed.

Lemma units_not (s : str) (o : N) :
  o <> 32 -> notLowerAlnum o = true ->
  Forall (fun c => c = 32 \/ notLowerAlnum c = false) s ->
  Forall (fun c => c <> o) s.
Proof.
  intros Ho Hn H. eapply List.Forall_impl; [|exact H].
  intros c [->|Hc]; [congruence | intros ->; congruence].
Qed.

Lemma forallb_ascii_app (l m : str) :
  forallb isAscii (l ++ m) = forallb isAscii l && forallb isAscii m.
Proof. apply forallb_app. Qed.

Lemma stripGroup_ascii (opening closing : N) (s : str) :
  isAscii opening = true ->
  forall pending : option str,
    forallb isAscii s = true ->
    forallb isAscii (match pending with Some sk => sk | None => [] end) = true ->
    forallb isAscii (stripGroup opening closing pending s) = true.
Proof.
  intros Ho. induction s as [|x s IH]; intros pending Hs Hp; simpl in *.
  - destruct pending as [sk|]; [|reflexivity]. simpl. rewrite Ho. simpl.
    rewrite forallb_forall in *. intros c Hc. apply Hp. now apply in_rev.
  - apply andb_true_iff in Hs as [Hx Hs].
    destruct pending as [sk|].
    + destruct (x =? closing); simpl.
      * now apply (IH None).
      * apply (IH (Some (x :: sk))); [exact Hs|]. simpl. now rewrite Hx.
    + destruct (x =? opening); simpl.
      * now apply (IH (Some [])).
      * rewrite Hx. simpl. now apply (IH None).
Qed.

Lemma lowerUnit_ascii (s : str) :
  forallb isAscii s = true -> forallb isAscii (List.map lowerUnit s) = true.
Proof.
  induction s as [|c s IH]; simpl; [reflexivity|].
  intros H. apply andb_true_iff in H as [Hc Hs]. rewrite (IH Hs), andb_true_r.
  unfold lowerUnit, isAscii in *. apply N.ltb_lt in Hc.
  destruct ((65 <=? c) && (c <=? 90)) eqn:E; apply N.ltb_lt; [|lia].
  apply andb_true_iff in E as [_ E]. apply N.leb_le in E. lia.
Qed.

(** On ASCII text the normalizer does not depend on the tables. *)
Lemma normalizeTitle_ascii (U : UnicodeTables) (x : str) :
  forallb isAscii x = true -> normalizeTitle U x = normalizeTitle asciiTables x.
Proof.
  intros Hx. unfold normalizeTitle, mapAlias.
  set (t := stripBrackets (stripParens x)).
  assert (forallb isAscii t = true) as Ht.
  { unfold t, stripBrackets, stripParens.
    apply stripGroup_ascii; [reflexivity | | reflexivity].
    apply stripGroup_ascii; [reflexivity | exact Hx | reflexivity]. }
  rewrite (toLowerCase_ascii U t Ht). simpl toLowerCase. simpl normalizeNFKD.
  destruct (aliasTest false (List.map lowerUnit t)).
  - rewrite (toLowerCase_ascii U (lit "closing worship") eq_refl).
    now rewrite (normalizeNFKD_ascii U (List.map lowerUnit (lit "closing worship")) eq_refl).
  - rewrite (toLowerCase_ascii U t Ht).
    now rewrite (normalizeNFKD_ascii U _ (lowerUnit_ascii t Ht)).
Qed.

(** A title in normalized shape on which the alias pattern does not match is
    a fixed point of the normalizer. *)
Lemma normalizeTitle_fixed (U : UnicodeTables) (y : str) :
  y = [] \/ strict true y = true ->
  trim y = y ->
  normalizeTitle U y
  = if aliasTest false y then lit "closing worship" else y.
Proof.
  intros Hshape Htrim.
  assert (Forall (fun c => c = 32 \/ notLowerAlnum c = false) y) as Hunits.
  { destruct Hshape as [->|H]; [constructor | now apply (strict_units y true)]. }
  assert (replaceRuns notLowerAlnum false y = y) as Hruns.
  { destruct Hshape as [->|H]; [reflexivity|].
    apply (strict_replaceRuns y true false); [discriminate | exact H]. }
  unfold normalizeTitle, mapAlias, stripParens, stripBrackets.
  rewrite (stripGroup_absent 40 41 y)
    by (apply units_not; [discriminate | reflexivity | exact Hunits]).
  rewrite (stripGroup_absent 91 93 y)
    by (apply units_not; [discriminate | reflexivity | exact Hunits]).
  rewrite (toLowerCase_ascii U y (units_ascii y Hunits)), (units_lower y Hunits).
  destruct (aliasTest false y).
  - rewrite (toLowerCase_ascii U (lit "closing worship") eq_refl).
    rewrite (normalizeNFKD_ascii U (List.map lowerUnit (lit "closing worship")) eq_refl).
    reflexivity.
  - rewrite (toLowerCase_ascii U y (units_ascii y Hunits)), (units_lower y Hunits).
    rewrite (normalizeNFKD_ascii U y (units_ascii y Hunits)).
    now rewrite Hruns.
Qed.

(** What a second normalization does, for every title. *)
Lemma normalizeTitle_twice (U : UnicodeTables) (x : str) :
  normalizeTitle U (normalizeTitle U x)
  = if aliasTest false (normalizeTitle U x) then lit "closing worship"
    else normalizeTitle U x.
Proof.
  apply normalizeTitle_fixed.
  - unfold normalizeTitle. apply normalized_shape.
  - unfold normalizeTitle. apply trim_idem.
Qed.

(** A title that triggers the alias table normalizes to the alias. *)
Lemma normalizeTitle_alias (U : UnicodeTables) (x : str) :
  aliasTest false (toLowerCase U (stripBrackets (stripParens x))) = true ->
  normalizeTitle U x = lit "closing worship".
Proof.
  intros H. unfold normalizeTitle, mapAlias. rewrite H.
  rewrite (toLowerCase_ascii U (lit "closing worship") eq_refl).
  rewrite (normalizeNFKD_ascii U (List.map lowerUnit (lit "closing worship")) eq_refl).
  reflexivity.
Qed.

(** C8, as the code has it.  The normalizer is idempotent on every title
    that triggers the alias table, and on every title whose normalized form
    does not contain the alias phrase (closing, white space, worship, as
    whole words). *)
Theorem normalizeTitle_idempotent_off_alias (U : UnicodeTables) (x : str) :
  aliasTest false (toLowerCase U (stripBrackets (stripParens x))) = true
  \/ aliasTest false (normalizeTitle U x) = false ->
  normalizeTitle U (normalizeTitle U x) = normalizeTitle U x.
Proof.
  intros [H|H].
  - rewrite (normalizeTitle_alias U x H).
    rewrite (normalizeTitle_ascii U (lit "closing worship") eq_refl). reflexivity.
  - rewrite normalizeTitle_twice. now rewrite H.
Qed.

(** The scenario of the specification, [Closing Worship (Song)], triggers the
    alias table and is normalized idempotently. *)
Lemma normalizeTitle_idempotent_off_alias_witness :
  normalizeTitle asciiTables (normalizeTitle asciiTables (lit "Closing Worship (Song)"))
  = normalizeTitle asciiTables (lit "Closing Worship (Song)").
Proof.
  apply (normalizeTitle_idempotent_off_alias asciiTables (lit "Closing Worship (Song)")).
  left. reflexivity.
Defined.

(** C8 fails on the code: the title [Closing-Worship Set] does not trigger
    the alias table (the pattern asks for white space between the two
    words), its normalized form does, and a second normalization cuts it
    down to the alias. *)
Lemma normalizeTitle_not_idempotent :
  let x := lit "Closing-Worship Set" in
  normalizeTitle asciiTables x = lit "closing worship set"
  /\ normalizeTitle asciiTables (normalizeTitle asciiTables x) = lit "closing worship"
  /\ normalizeTitle asciiTables (normalizeTitle asciiTables x)
     <> normalizeTitle asciiTables x.
Proof.
  split; [reflexivity | split; [reflexivity | discriminate]].
Qed.

(** The same with the tables of any engine. *)
Lemma closing_worship_set_any_tables (U : UnicodeTables) :
  normalizeTitle U (lit "Closing-Worship Set") = lit "closing worship set"
  /\ normalizeTitle U (normalizeTitle U (lit "Closing-Worship Set"))
     = lit "closing worship".
Proof.
  rewrite (normalizeTitle_ascii U (lit "Closing-Worship Set") eq_refl).
  change (normalizeTitle asciiTables (lit "Closing-Worship Set"))
    with (lit "closing worship set").
  rewrite (normalizeTitle_ascii U (lit "closing worship set") eq_refl).
  split; reflexivity.
Qed.

End TitleFacts.

(** ** Numbers: order and sums *)

Module NumberFacts.
Import SpecFloat Number.

(** *** The order of the numbers *)

Lemma pos_compare (m1 m2 : positive) :
  PosDef.Pos.compare_cont Eq m1 m2 = (m1 ?= m2)%positive.
Proof. reflexivity. Qed.

Ltac order_step :=
  match goal with
  | |- context [(?a ?= ?b)%Z] => destruct (Z.compare_spec a b)
  | H : context [(?a ?= ?b)%Z] |- _ => destruct (Z.compare_spec a b)
  | |- context [(?a ?= ?b)%positive] => destruct (Pos.compare_spec a b)
  | H : context [(?a ?= ?b)%positive] |- _ => destruct (Pos.compare_spec a b)
  end.

(** Case analysis on the numbers compared, then on their exponents and
    mantissas. *)
Ltac order :=
  unfold gt, ge, strictEq, SFltb, SFleb, SFeqb, SFcompare; intros;
  repeat match goal with
         | x : number |- _ => destruct x as [[]|[]| |[] ? ?]
         end;
  simpl in *; rewrite ?pos_compare in *;
  try discriminate; try reflexivity; try congruence;
  repeat (order_step; simpl in *; rewrite ?pos_compare in *; subst;
          try discriminate; try reflexivity; try lia);
  try lia; auto.

Lemma gt_trans (x y z : number) : gt x y = true -> gt y z = true -> gt x z = true.
Proof. order. Qed.

Lemma strictEq_refl (x : number) : x <> S754_nan -> strictEq x x = true.
Proof. order. Qed.

Lemma strictEq_sym (x y : number) : strictEq x y = true -> strictEq y x = true.
Proof. order. Qed.

Lemma strictEq_trans (x y z : number) :
  strictEq x y = true -> strictEq y z = true -> strictEq x z = true.
Proof. order. Qed.

Lemma gt_strictEq (x y z : number) : gt x y = true -> strictEq y z = true -> gt x z = true.
Proof. order. Qed.

Lemma strictEq_gt (x y z : number) : strictEq x y = true -> gt y z = true -> gt x z = true.
Proof. order. Qed.


Lemma gt_asym (x y : number) : gt x y = true -> gt y x = false.
Proof. order. Qed.


(** Two numbers, neither of them [NaN], compare. *)
Lemma compare_total (x y : number) :
  x <> S754_nan -> y <> S754_nan ->
  gt x y = true \/ strictEq x y = true \/ gt y x = true.
Proof. order. Qed.

(** *** Sums of numbers that are not negative *)

(** [+0], a positive number or [+Infinity]. *)
Definition nonneg (x : number) : Prop :=
  match x with
  | S754_zero false | S754_finite false _ _ | S754_infinity false => True
  | _ => False
  end.

Lemma nonneg_number (x : number) : nonneg x -> x <> S754_nan.
Proof. intros H ->. exact H. Qed.

Lemma shr_1_mantissa (mrs : shr_record) : (0 <= shr_m mrs)%Z -> (0 <= shr_m (shr_1 mrs))%Z.
Proof.
  destruct mrs as [m r s]. simpl. intros H.
  destruct m as [|[p|p|]|p]; simpl; lia.
Qed.

Lemma iter_pos_mantissa (p : positive) :
  forall mrs : shr_record,
    (0 <= shr_m mrs)%Z -> (0 <= shr_m (iter_pos shr_1 p mrs))%Z.
Proof.
  induction p as [p IH|p IH|]; intros mrs H; simpl.
  - apply IH, IH, shr_1_mantissa, H.
  - apply IH, IH, H.
  - apply shr_1_mantissa, H.
Qed.

Lemma shr_fexp_mantissa (prec emax m e : Z) (l : location) :
  (0 <= m)%Z -> (0 <= shr_m (fst (shr_fexp prec emax m e l)))%Z.
Proof.
  intros H. unfold shr_fexp, shr.
  assert (shr_m (shr_record_of_loc m l) = m) as Hm by (destruct l as [|[]]; reflexivity).
  destruct (fexp prec emax (Zdigits2 m + e) - e)%Z; simpl; rewrite ?Hm; try exact H.
  apply iter_pos_mantissa. now rewrite Hm.
Qed.

Lemma round_nearest_even_mantissa (m : Z) (l : location) :
  (0 <= m)%Z -> (0 <= round_nearest_even m l)%Z.
Proof.
  intros H. unfold round_nearest_even.
  destruct l as [|[]]; try destruct (Z.even m); lia.
Qed.

(** Rounding a mantissa that is not negative gives a zero, a finite number
    or an infinity of the sign asked for. *)
Lemma binary_round_aux_signed (prec emax : Z) (sx : bool) (mx ex : Z) (lx : location) :
  (0 <= mx)%Z ->
  match binary_round_aux prec emax sx mx ex lx with
  | S754_zero s | S754_finite s _ _ | S754_infinity s => s = sx
  | S754_nan => False
  end.
Proof.
  intros H. unfold binary_round_aux.
  pose proof (shr_fexp_mantissa prec emax mx ex lx H) as H1.
  destruct (shr_fexp prec emax mx ex lx) as [mrs' e']. simpl in H1.
  pose proof (shr_fexp_mantissa prec emax
                (round_nearest_even (shr_m mrs') (loc_of_shr_record mrs')) e' loc_Exact
                (round_nearest_even_mantissa _ _ H1)) as H2.
  destruct (shr_fexp prec emax _ e' loc_Exact) as [mrs'' e'']. simpl in H2.
  destruct (shr_m mrs'') as [|m|m]; [reflexivity | | lia].
  destruct (e'' <=? emax - prec)%Z; reflexivity.
Qed.

Lemma binary_normalize_number (prec emax m e : Z) :
  binary_normalize prec emax m e false <> S754_nan.
Proof.
  unfold binary_normalize, binary_round.
  destruct m as [|p|p]; [discriminate | |];
    destruct (shl_align p e _) as [mz ez];
    [pose proof (binary_round_aux_signed prec emax false (Zpos mz) ez loc_Exact) as H
    |pose proof (binary_round_aux_signed prec emax true (Zpos mz) ez loc_Exact) as H];
    intros E; rewrite E in H; apply H; lia.
Qed.

Lemma binary_normalize_nonneg (prec emax m e : Z) :
  (0 <= m)%Z -> nonneg (binary_normalize prec emax m e false).
Proof.
  unfold binary_normalize, binary_round. intros Hm.
  destruct m as [|p|p]; [exact I | | lia].
  destruct (shl_align p e _) as [mz ez].
  pose proof (binary_round_aux_signed prec emax false (Zpos mz) ez loc_Exact) as H.
  destruct (binary_round_aux prec emax false (Zpos mz) ez loc_Exact);
    try (rewrite H by lia; exact I).
  apply H. lia.
Qed.

Lemma ofZ_nonneg (z : Z) : (0 <= z)%Z -> nonneg (ofZ z).
Proof. apply binary_normalize_nonneg. Qed.

Lemma add_nonneg (x y : number) : nonneg x -> nonneg y -> nonneg (add x y).
Proof.
  intros Hx Hy.
  destruct x as [[]|[]| |[] mx ex]; try contradiction;
    destruct y as [[]|[]| |[] my ey]; try contradiction; try exact I.
  unfold add, SFadd. apply binary_normalize_nonneg.
  cbn [cond_Zopp]. lia.
Qed.

Lemma sub_number (x y : number) :
  isFinite x = true -> isFinite y = true -> sub x y <> S754_nan.
Proof.
  intros Hx Hy.
  destruct x as [[]|[]| |sx mx ex]; try discriminate Hx;
    destruct y as [[]|[]| |sy my ey]; try discriminate Hy; try discriminate.
  unfold sub, SFsub. apply binary_normalize_number.
Qed.

Lemma max0_nonneg (x : number) : x <> S754_nan -> nonneg (max0 x).
Proof.
  destruct x as [[]|[]| |[] m e]; try congruence; intros _; exact I.
Qed.

End NumberFacts.

(** ** Media matching *)

Module MediaFacts.
Import JS Unicode Number Media JSFacts NumberFacts.

(** *** The score, as the specification words it *)














(** *** Scores are numbers *)

Lemma tokenScore_nonneg (hayString hayCompact token : str) (score : number) :
  nonneg score -> nonneg (tokenScore hayString hayCompact score token).
Proof.
  intros H. unfold tokenScore.
  repeat match goal with
         | |- context [if ?c then _ else _] => destruct c
         end;
    try exact H; apply add_nonneg; try exact H; apply ofZ_nonneg; lia.
Qed.

Lemma recencyScore_nonneg (now : Z) (it : MediaPlaylistItem) (score : number) :
  nonneg score -> nonneg (recencyScore now it score).
Proof.
  intros H. unfold recencyScore.
  destruct (updatedAt it) as [t|]; [|exact H].
  destruct (t =? 0)%Z; [exact H|].
  destruct (isFinite _) eqn:Hfinite; [|exact H].
  apply add_nonneg; [exact H|].
  apply max0_nonneg, sub_number; [reflexivity | exact Hfinite].
Qed.

Lemma tokens_nonneg (hayString hayCompact : str) (tokens : list str) :
  forall score : number,
    nonneg score -> nonneg (fold_left (tokenScore hayString hayCompact) tokens score).
Proof.
  induction tokens as [|t tokens IH]; intros score H; simpl; [exact H|].
  now apply IH, tokenScore_nonneg.
Qed.

Lemma itemScore_nonneg (U : UnicodeTables) (now : Z) (topic : str)
  (it : MediaPlaylistItem) : nonneg (itemScore U now topic it).
Proof.
  unfold itemScore. apply recencyScore_nonneg, tokens_nonneg.
  repeat match goal with
         | |- context [if ?c then _ else _] => destruct c
         end;
    repeat apply add_nonneg; apply ofZ_nonneg; lia.
Qed.

Lemma itemScore_number (U : UnicodeTables) (now : Z) (topic : str)
  (it : MediaPlaylistItem) : itemScore U now topic it <> SpecFloat.S754_nan.
Proof. apply nonneg_number, itemScore_nonneg. Qed.

(** *** The selection *)

(** The asset [b], at position [ib], is preferred to an asset scored [s] at
    position [j]: a higher score; or the same score and a later update; or
    the same score, the same update and an earlier position. *)
Definition beats (b : MediaMatch) (ib : nat) (s : number) (it : MediaPlaylistItem)
  (j : nat) : Prop :=
  gt (score b) s = true
  \/ (strictEq s (score b) = true
      /\ ((updatedOrZero it < updatedOrZero (item b))%Z
          \/ (updatedOrZero it = updatedOrZero (item b) /\ (ib <= j)%nat))).

Lemma beats_refl (b : MediaMatch) (i : nat) :
  score b <> SpecFloat.S754_nan -> beats b i (score b) (item b) i.
Proof.
  intros H. right. split; [now apply strictEq_refl | right; split; [reflexivity | lia]].
Qed.

Lemma beats_trans (b b0 : MediaMatch) (ib i0 j : nat) (s : number)
  (it : MediaPlaylistItem) :
  beats b ib (score b0) (item b0) i0 -> beats b0 i0 s it j -> beats b ib s it j.
Proof.
  intros [H1|[H1 U1]] [H2|[H2 U2]].
  - left. eapply gt_trans; eassumption.
  - left. eapply gt_strictEq; [exact H1 | now apply strictEq_sym].
  - left. eapply strictEq_gt; [apply strictEq_sym, H1 | exact H2].
  - right. split; [eapply strictEq_trans; eassumption | lia].
Qed.

Lemma replacesBest_true (b0 : MediaMatch) (it : MediaPlaylistItem) (s : number)
  (i0 i : nat) :
  replacesBest (Some b0) it s = true ->
  beats {| item := it; score := s |} i (score b0) (item b0) i0.
Proof.
  unfold replacesBest, beats. simpl. intros H.
  apply orb_true_iff in H as [H|H]; [now left|].
  apply andb_true_iff in H as [He Hu]. apply Z.ltb_lt in Hu.
  right. split; [now apply strictEq_sym | now left].
Qed.

Lemma replacesBest_false (b0 : MediaMatch) (it : MediaPlaylistItem) (s : number)
  (i0 i : nat) :
  s <> SpecFloat.S754_nan -> score b0 <> SpecFloat.S754_nan -> (i0 <= i)%nat ->
  replacesBest (Some b0) it s = false -> beats b0 i0 s it i.
Proof.
  unfold replacesBest, beats. intros Hs Hb Hi H.
  apply orb_false_iff in H as [Hgt H].
  destruct (compare_total s (score b0) Hs Hb) as [Hc|[Hc|Hc]].
  - congruence.
  - right. split; [exact Hc|]. rewrite Hc in H. simpl in H.
    apply Z.ltb_ge in H. lia.
  - now left.
Qed.

Section Scan.

Variable U : UnicodeTables.
Variable clock : nat -> Z.
Variable topic : str.

(** The loop, started at position [i] with [best] found at position [ib]. *)
Lemma scanItems_spec (items : list MediaPlaylistItem) :
  forall (i : nat) (best : option MediaMatch) (ib : nat),
    (forall b0, best = Some b0 -> score b0 <> SpecFloat.S754_nan /\ (ib <= i)%nat) ->
    match scanItems U clock topic items i best with
    | None => best = None /\ items = []
    | Some b =>
        exists ir : nat,
          ((best = Some b /\ ir = ib)
           \/ exists k it,
                nth_error items k = Some it /\ ir = (i + k)%nat
                /\ b = {| item := it; score := itemScore U (clock (i + k)) topic it |})
          /\ (forall k it, nth_error items k = Some it ->
                 beats b ir (itemScore U (clock (i + k)) topic it) it (i + k))
          /\ (forall b0, best = Some b0 -> beats b ir (score b0) (item b0) ib)
    end.
Proof.
  induction items as [|it items IH]; intros i best ib Hbest; simpl.
  - destruct best as [b|]; [|split; reflexivity].
    exists ib. split; [now left | split].
    + intros k x Hk. destruct k; discriminate.
    + intros b0 [= <-]. apply beats_refl. now apply (Hbest b).
  - set (s := itemScore U (clock i) topic it).
    assert (s <> SpecFloat.S754_nan) as Hs by apply itemScore_number.
    set (best' := if replacesBest best it s then Some {| item := it; score := s |} else best).
    set (ib' := if replacesBest best it s then i else ib).
    assert (forall b0, best' = Some b0 ->
                       score b0 <> SpecFloat.S754_nan /\ (ib' <= S i)%nat) as Hbest'.
    { intros b0. unfold best', ib'. destruct (replacesBest best it s).
      - intros [= <-]. split; [exact Hs | lia].
      - intros E. destruct (Hbest b0 E). split; [assumption | lia]. }
    specialize (IH (S i) best' ib' Hbest').
    destruct (scanItems U clock topic items (S i) best') as [b|].
    + destruct IH as (ir & Horigin & Hall & Hprev).
      assert (beats b ir s it i) as Hit.
      { unfold best', ib' in Hprev. destruct (replacesBest best it s) eqn:E.
        - apply (Hprev _ eq_refl).
        - destruct best as [b0|]; [|discriminate].
          destruct (Hbest b0 eq_refl) as [Hb0 Hi].
          eapply beats_trans; [apply (Hprev _ eq_refl)|].
          now apply replacesBest_false. }
      exists ir. split; [|split].
      * destruct Horigin as [[Hb Hir]|(k & x & Hk & Hir & Hb)].
        -- unfold best', ib' in Hb, Hir. destruct (replacesBest best it s).
           ++ right. exists 0%nat, it. split; [reflexivity|].
              rewrite Nat.add_0_r. split; [exact Hir | now injection Hb as <-].
           ++ now left.
        -- right. exists (S k), x. split; [exact Hk|].
           now replace (i + S k)%nat with (S i + k)%nat by lia.
      * intros k x Hk. destruct k as [|k]; simpl in Hk.
        -- injection Hk as <-. now rewrite Nat.add_0_r.
        -- replace (i + S k)%nat with (S i + k)%nat by lia. now apply Hall.
      * intros b0 ->. unfold best', ib' in Hprev.
        destruct (replacesBest (Some b0) it s) eqn:E.
        -- eapply beats_trans; [apply (Hprev _ eq_refl)|].
           now apply replacesBest_true.
        -- now apply Hprev.
    + destruct IH as [Hb _]. unfold best' in Hb.
      destruct (replacesBest best it s) eqn:E; [discriminate|].
      subst best. discriminate.
Qed.

End Scan.




(** Two assets for the topic [alpha beta], read at the same instant: the
    first holds the token [alpha] (10 points) and was updated four days and
    75 ms before, the second holds it collapsed only (6 points) and was
    updated 75 ms before. *)
Definition alphaOld : MediaPlaylistItem :=
  {| uuid := lit "A"; name := lit "first"; updatedAt := Some 1699654399925%Z;
     keywords := [lit "alpha"]; filePath := None |}.
Definition alphaNew : MediaPlaylistItem :=
  {| uuid := lit "B"; name := lit "second"; updatedAt := Some 1699999999925%Z;
     keywords := [lit "al pha"]; filePath := None |}.

(** Rounding decides: taken exactly both scores are [16 - 75/86400000];
    as numbers the first is one unit in the last place above the second,
    and the first asset is returned although the second is the more
    recent. *)
Example rounding_decides :
  let now := 1700000000000%Z in
  ((10 + 10) * 86400000 - (now - 1699654399925)
   = (6 + 10) * 86400000 - (now - 1699999999925))%Z
  /\ itemScore asciiTables now (lit "alpha beta") alphaOld
     = SpecFloat.S754_finite false 9007198766069158 (-49)
  /\ itemScore asciiTables now (lit "alpha beta") alphaNew
     = SpecFloat.S754_finite false 9007198766069157 (-49)
  /\ option_map item
       (selectMediaMatch asciiTables (fun _ => now) (lit "alpha beta") [alphaOld; alphaNew])
     = Some alphaOld.
Proof.
  split; [reflexivity|]. repeat split; vm_compute; reflexivity.
Qed.

End MediaFacts.

(** ** Orchestrator: the run summary *)

Module SummaryFacts.
Import JS Unicode Orchestrator JSFacts.

(** The calls of a run before the host is closed, in order. *)
Definition preparation : list event :=
  [FetchPlan; MatchPresentations; EnsureTimer; EnsureStageLayout; IndexLibrary;
   PrefetchMedia; FetchProp].

(** What the loop does with one item.  [Excluded]: a header, or an item
    outside the id or category filter; [TransitionFailed]: the transition
    rewrite returned a failure; [ItemThrew]: the transition rewrite or the
    notes write threw; [songError]: the song rewrite failed or threw before. *)
Inductive verdict : Type :=
| Excluded
| SkippedNoTitle
| Unmatched
| NoDescription
| MissingFile
| TransitionFailed
| Updated (songError : bool)
| NotesFailed (songError : bool)
| ItemThrew (songError : bool).

Definition bump (b : bool) : nat := if b then 1%nat else 0%nat.

(** The counters one item moves. *)
Definition tally (v : verdict) : Summary :=
  match v with
  | Excluded => {| updated := 0; skipped := 0; noDesc := 0; missingPath := 0; writeErrors := 0 |}
  | SkippedNoTitle | Unmatched =>
      {| updated := 0; skipped := 1; noDesc := 0; missingPath := 0; writeErrors := 0 |}
  | NoDescription =>
      {| updated := 0; skipped := 0; noDesc := 1; missingPath := 0; writeErrors := 0 |}
  | MissingFile =>
      {| updated := 0; skipped := 0; noDesc := 0; missingPath := 1; writeErrors := 0 |}
  | TransitionFailed =>
      {| updated := 0; skipped := 0; noDesc := 0; missingPath := 0; writeErrors := 1 |}
  | Updated e =>
      {| updated := 1; skipped := 0; noDesc := 0; missingPath := 0; writeErrors := bump e |}
  | NotesFailed e =>
      {| updated := 0; skipped := 1; noDesc := 0; missingPath := 0; writeErrors := S (bump e) |}
  | ItemThrew e =>
      {| updated := 0; skipped := 0; noDesc := 0; missingPath := 0; writeErrors := bump e |}
  end.

Definition addSummary (s t : Summary) : Summary :=
  {| updated := updated s + updated t; skipped := skipped s + skipped t;
     noDesc := noDesc s + noDesc t; missingPath := missingPath s + missingPath t;
     writeErrors := writeErrors s + writeErrors t |}.

Definition zeroSummary : Summary :=
  {| updated := 0; skipped := 0; noDesc := 0; missingPath := 0; writeErrors := 0 |}.

Fixpoint sumTallies (vs : list verdict) : Summary :=
  match vs with
  | [] => zeroSummary
  | v :: r => addSummary (tally v) (sumTallies r)
  end.

(** An item the loop took to an outcome: it is no header and passed the
    filters. *)
Definition processed (v : verdict) : bool :=
  match v with Excluded => false | _ => true end.

Definition crashed (v : verdict) : bool :=
  match v with ItemThrew _ => true | _ => false end.

Definition transitionFailed (v : verdict) : bool :=
  match v with TransitionFailed => true | _ => false end.

Definition count (f : verdict -> bool) (vs : list verdict) : nat :=
  length (List.filter f vs).

(** The sum of the four buckets of the claim. *)
Definition buckets (s : Summary) : nat :=
  (updated s + skipped s + noDesc s + missingPath s)%nat.

Section Verdicts.

Variable U : UnicodeTables.
Variable p : PresentationSyncPayload.
Variable c : collaborators.
Variable matches : str -> option str.
Variable entries : list (str * indexEntry).

Definition notesVerdict (i : nat) (songError : bool) : verdict :=
  match writeOperatorNotesFile c i with
  | Returned true => Updated songError
  | Returned false => NotesFailed songError
  | Threw _ => ItemThrew songError
  end.

Definition songError (i : nat) (item : PlanItem) : bool :=
  if (songSectionCount item =? 0)%nat then false
  else match applySongTemplate c i with
       | Returned true => false
       | _ => true
       end.

(** The verdict on the item at position [i], read off the item and the
    answers of the collaborators. *)
Definition itemVerdict (i : nat) (item : PlanItem) : verdict :=
  if isHeader item then Excluded
  else if idExcluded (idFilterOf p) (trim (id item)) then Excluded
  else if isEmpty (trim (title item)) then SkippedNoTitle
  else
    let label := resolvePlanItemCategory c item in
    if categoryExcluded U (categoryFilterOf U p) label then Excluded
    else
      let uuidRaw := strOrEmpty (matches (trim (title item))) in
      let descOverride := trim (strOrEmpty (description item)) in
      let notesOverride := trim (strOrEmpty (notes item)) in
      let desc := if isEmpty descOverride then notesOverride else descOverride in
      if isEmpty uuidRaw then Unmatched
      else if isEmpty desc then NoDescription
      else
        match findHit U c entries uuidRaw (trim (title item)) with
        | None => MissingFile
        | Some _ =>
            if isLabel label "Song" then notesVerdict i (songError i item)
            else if isLabel label "Transitions" then
              match applyTransitionTemplate c i with
              | Returned true => notesVerdict i false
              | Returned false => TransitionFailed
              | Threw _ => ItemThrew false
              end
            else notesVerdict i false
        end.

Fixpoint verdictsFrom (i : nat) (items : list PlanItem) : list verdict :=
  match items with
  | [] => []
  | it :: r => itemVerdict i it :: verdictsFrom (S i) r
  end.

Lemma addSummary_inc (s : Summary) :
  incUpdated s = addSummary s (tally (Updated false))
  /\ incSkipped s = addSummary s (tally Unmatched)
  /\ incNoDesc s = addSummary s (tally NoDescription)
  /\ incMissingPath s = addSummary s (tally MissingFile)
  /\ incWriteErrors s = addSummary s (tally TransitionFailed)
  /\ s = addSummary s (tally Excluded).
Proof.
  destruct s. unfold incUpdated, incSkipped, incNoDesc, incMissingPath,
    incWriteErrors, addSummary. simpl.
  repeat split; f_equal; lia.
Qed.

Ltac run_steps :=
  unfold songStep, transitionStep, notesStep, bind, ret, call, modifySummary,
    tryCatch, setCategory, pushMissing; simpl.

Ltac summaries :=
  repeat match goal with
         | |- context [summary ?s] => is_var s; destruct s as [[] ? ? ? ?]
         end;
  unfold addSummary, incUpdated, incSkipped, incNoDesc, incMissingPath,
    incWriteErrors; simpl; f_equal; lia.

(** The loop body moves the counters by the tally of the verdict, and throws
    exactly on a crash. *)
Lemma processItem_verdict (i : nat) (item : PlanItem) (st : runState) :
  let v := itemVerdict i item in
  let '(o, st') := processItem U p c matches entries i item st in
  summary st' = addSummary (summary st) (tally v)
  /\ (crashed v = false -> o = Returned tt)
  /\ (crashed v = true -> exists e, o = Threw e).
Proof.
  unfold itemVerdict, processItem.
  destruct (isHeader item); [run_steps; repeat split; try discriminate; summaries|].
  destruct (idExcluded _ _); [run_steps; repeat split; try discriminate; summaries|].
  destruct (isEmpty (trim (title item)));
    [run_steps; repeat split; try discriminate; summaries|].
  destruct (categoryExcluded _ _ _); [run_steps; repeat split; try discriminate; summaries|].
  destruct (isEmpty (strOrEmpty _)); [run_steps; repeat split; try discriminate; summaries|].
  destruct (isEmpty (if isEmpty _ then _ else _));
    [run_steps; repeat split; try discriminate; summaries|].
  destruct (findHit _ _ _ _ _) as [file|];
    [|run_steps; repeat split; try discriminate; summaries].
  unfold notesVerdict, songError, songStep, transitionStep, notesStep.
  destruct (isLabel (resolvePlanItemCategory c item) "Song").
  - destruct (songSectionCount item =? 0)%nat;
      [|destruct (applySongTemplate c i) as [[|]|e]];
      destruct (writeOperatorNotesFile c i) as [[|]|e'];
      destruct (resolvePlanItemCategory c item);
      run_steps; repeat split; try discriminate; try summaries; eauto.
  - destruct (isLabel (resolvePlanItemCategory c item) "Transitions").
    + destruct (applyTransitionTemplate c i) as [[|]|e];
        destruct (writeOperatorNotesFile c i) as [[|]|e'];
        destruct (resolvePlanItemCategory c item);
        run_steps; repeat split; try discriminate; try summaries; eauto.
    + destruct (writeOperatorNotesFile c i) as [[|]|e'];
        destruct (resolvePlanItemCategory c item);
        run_steps; repeat split; try discriminate; try summaries; eauto.
Qed.

Lemma addSummary_assoc (a b d : Summary) :
  addSummary (addSummary a b) d = addSummary a (addSummary b d).
Proof. unfold addSummary. simpl. f_equal; lia. Qed.

Lemma addSummary_zero (a : Summary) : addSummary a zeroSummary = a.
Proof. destruct a. unfold addSummary. simpl. f_equal; lia. Qed.

(** The whole loop: when it returns, the counters moved by the tallies of
    all the items and no item crashed; it returns when no item crashes. *)
Lemma forEach_verdicts (items : list PlanItem) :
  forall (i : nat) (st : runState),
    let vs := verdictsFrom i items in
    let '(o, st') := forEach (processItem U p c matches entries) i items st in
    (o = Returned tt ->
     summary st' = addSummary (summary st) (sumTallies vs)
     /\ existsb crashed vs = false)
    /\ (existsb crashed vs = false -> o = Returned tt).
Proof.
  induction items as [|item items IH]; intros i st; simpl.
  - unfold ret. split; [|reflexivity]. intros _. now rewrite addSummary_zero.
  - unfold bind.
    pose proof (processItem_verdict i item st) as Hitem. simpl in Hitem.
    destruct (processItem U p c matches entries i item st) as [o st1].
    destruct Hitem as (Hsum & Hok & Hcrash).
    destruct (crashed (itemVerdict i item)) eqn:Hv.
    + destruct (Hcrash eq_refl) as [e ->]. simpl. split; discriminate.
    + rewrite (Hok eq_refl). simpl.
      specialize (IH (S i) st1). simpl in IH.
      destruct (forEach (processItem U p c matches entries) (S i) items st1) as [o2 st2].
      destruct IH as [IH1 IH2]. split; [|exact IH2].
      intros Ho. destruct (IH1 Ho) as [Hs Hc]. split; [|exact Hc].
      now rewrite Hs, Hsum, addSummary_assoc.
Qed.

End Verdicts.

(** *** Counting *)

Lemma tally_buckets (v : verdict) :
  crashed v = false ->
  (buckets (tally v) + bump (transitionFailed v) = bump (processed v))%nat
  /\ (bump (transitionFailed v) <= writeErrors (tally v))%nat.
Proof. destruct v as [| | | | | |e|e|e]; try destruct e; simpl; intros; try discriminate; split; lia. Qed.

Lemma buckets_add (a b : Summary) :
  buckets (addSummary a b) = (buckets a + buckets b)%nat.
Proof. unfold buckets, addSummary. simpl. lia. Qed.

(** Without a crash, the four buckets count the processed items but those
    whose transition rewrite failed, which are among the write errors. *)
Lemma sumTallies_buckets (vs : list verdict) :
  existsb crashed vs = false ->
  (buckets (sumTallies vs) + count transitionFailed vs = count processed vs)%nat
  /\ (count transitionFailed vs <= writeErrors (sumTallies vs))%nat.
Proof.
  unfold count. induction vs as [|v vs IH]; simpl; [intros _; split; reflexivity|].
  intros H. apply orb_false_iff in H as [Hv Hvs].
  destruct (IH Hvs) as [IH1 IH2]. destruct (tally_buckets v Hv) as [T1 T2].
  rewrite buckets_add.
  destruct (transitionFailed v), (processed v); simpl in *; split; lia.
Qed.

(** One item moves at most one of the four buckets, by one. *)
Lemma tally_single_bucket (v : verdict) : (buckets (tally v) <= 1)%nat.
Proof. destruct v as [| | | | | |e|e|e]; simpl; unfold buckets; simpl; lia. Qed.

(** The plan, the matches and the library index a run takes into its loop. *)
Definition loopInputs (c : collaborators)
  : option (plan * (str -> option str) * list (str * indexEntry)) :=
  match pcoGetNextPlan c, matchPresentations c, indexPresentationsUuid c with
  | Returned next, Returned matches, Returned indexRes =>
      match (if fetch_ok next then fetch_plan next else None),
            (if index_ok indexRes then index_map indexRes else None) with
      | Some pl, Some entries => Some (pl, matches, entries)
      | _, _ => None
      end
  | _, _, _ => None
  end.

(** The verdicts of a run on the items of its plan, in order. *)
Definition runVerdicts (U : UnicodeTables) (p : PresentationSyncPayload)
  (c : collaborators) : list verdict :=
  match loopInputs c with
  | Some (pl, matches, entries) => verdictsFrom U p c matches entries 0 (items pl)
  | None => []
  end.

Lemma addSummary_zero_l (a : Summary) : addSummary zeroSummary a = a.
Proof. destruct a. reflexivity. Qed.

(** C1, as the code has it.  In the summary of a completed run every item
    moved the counters by its own tally, which touches at most one of the
    four buckets, by one; the four buckets count the non-header items taken
    to an outcome but those whose transition rewrite failed, which are
    counted as write errors only; with the write errors added the sum
    reaches the number of processed items. *)
Theorem summary_tallies (U : UnicodeTables) (p : PresentationSyncPayload)
  (c : collaborators) :
  match fst (runPresentationSync U p c) with
  | Success _ s _ _ _ =>
      let vs := runVerdicts U p c in
      s = sumTallies vs
      /\ Forall (fun v => (buckets (tally v) <= 1)%nat) vs
      /\ (buckets s + count transitionFailed vs = count processed vs)%nat
      /\ (buckets s + writeErrors s >= count processed vs)%nat
  | Failure _ => True
  end.
Proof.
  unfold runPresentationSync.
  destruct (isEmpty (host p) || (port p =? 0)%Z); [exact I|].
  destruct (isEmpty (libraryRoot p)); [exact I|].
  unfold runVerdicts, loopInputs, syncBody, closeHost, mutationLoop, relaunch,
    finish, tryFinally, setReopenOutcome, bind, call, ret.
  destruct (pcoGetNextPlan c) as [next|e]; simpl; [|exact I].
  destruct (if fetch_ok next then fetch_plan next else None) as [pl|]; simpl; [|exact I].
  destruct (matchPresentations c) as [matches|e]; simpl; [|exact I].
  destruct (ensureTransitionTimer c) as [timer|e]; simpl; [|exact I].
  destruct (ensureStageLayout c) as [layout|e]; simpl; [|exact I].
  destruct (indexPresentationsUuid c) as [indexRes|e]; simpl; [|exact I].
  destruct (if index_ok indexRes then index_map indexRes else None) as [entries|];
    simpl; [|exact I].
  destruct (getMediaPlaylistItems c) as [media|e]; simpl; [|exact I].
  destruct (fetchPropIdentifier c) as [prop|e]; simpl; [|exact I].
  assert (forall st0 : runState,
            summary st0 = zeroSummary ->
            match
              (let (o, st') := forEach (processItem U p c matches entries) 0 (items pl) st0 in
               (o, summary st'))
            with
            | (Returned _, s) =>
                let vs := verdictsFrom U p c matches entries 0 (items pl) in
                s = sumTallies vs
                /\ Forall (fun v => (buckets (tally v) <= 1)%nat) vs
                /\ (buckets s + count transitionFailed vs = count processed vs)%nat
                /\ (buckets s + writeErrors s >= count processed vs)%nat
            | (Threw _, _) => True
            end) as Hloop.
  { intros st0 Hzero.
    pose proof (forEach_verdicts U p c matches entries (items pl) 0 st0) as H.
    simpl in H.
    destruct (forEach (processItem U p c matches entries) 0 (items pl) st0) as [o st'].
    destruct o as [[]|e]; [|exact I].
    destruct H as [H _]. destruct (H eq_refl) as [Hs Hc].
    rewrite Hzero, addSummary_zero_l in Hs. rewrite Hs.
    destruct (sumTallies_buckets _ Hc) as [B1 B2].
    repeat split.
    - apply Forall_forall. intros v _. apply tally_single_bucket.
    - exact B1.
    - lia. }
  destruct (shouldReopen p c).
  - destruct (quitProPresenter c) as [quitRes|e]; simpl; [|exact I].
    destruct (step_ok quitRes); simpl; [|exact I].
    match goal with
    | |- context [forEach _ 0 (items pl) ?st0] =>
        specialize (Hloop st0 eq_refl);
        destruct (forEach (processItem U p c matches entries) 0 (items pl) st0) as [o st']
    end.
    destruct o as [[]|e]; simpl;
      destruct (launchProPresenter c) as [launchRes|e']; simpl; try exact I.
    exact Hloop.
  - simpl.
    match goal with
    | |- context [forEach _ 0 (items pl) ?st0] =>
        specialize (Hloop st0 eq_refl);
        destruct (forEach (processItem U p c matches entries) 0 (items pl) st0) as [o st']
    end.
    destruct o as [[]|e]; simpl; [exact Hloop | exact I].
Qed.

End SummaryFacts.

(** ** Orchestrator: runs on a small plan *)

Module Runs.
Import JS Unicode Orchestrator SummaryFacts.

(** A one-item plan: a transition with a description, matched to a
    presentation whose file is indexed. *)
Definition welcome : PlanItem :=
  {| isHeader := false; title := lit "Welcome"; id := lit "101"; notes := None;
     description := Some (lit "Greet the room");
     category := Some (lit "Transitions"); kind := Plan.announcement;
     songSectionCount := 0 |}.

Definition sunday : plan := {| planTitle := lit "Sunday"; items := [welcome] |}.

Definition request : PresentationSyncPayload :=
  {| host := lit "127.0.0.1"; port := 1025; libraryRoot := lit "/Library";
     reopen := None; categories := None; itemIds := None |}.

Definition goodIndex : indexResult :=
  {| index_ok := true;
     index_map := Some [(lit "AAAA-1111",
                         {| path := lit "/Library/Welcome.pro";
                            entry_title := Some (lit "Welcome") |})];
     index_err := None |}.

Definition failedIndex : indexResult :=
  {| index_ok := false; index_map := None; index_err := Some (lit "index failed") |}.

(** Collaborators that all succeed, but for the library index and the
    transition rewrite, which are given. *)
Definition world (indexRes : indexResult) (transition : outcome bool) : collaborators :=
  {| platformIsDarwin := true;
     pcoGetNextPlan :=
       Returned {| fetch_ok := true; fetch_plan := Some sunday; fetch_error := None |};
     matchPresentations :=
       Returned (fun t => if eqb t (lit "Welcome") then Some (lit "AAAA-1111") else None);
     ensureTransitionTimer := Returned None;
     ensureStageLayout := Returned None;
     indexPresentationsUuid := Returned indexRes;
     getMediaPlaylistItems := Returned None;
     fetchPropIdentifier := Returned None;
     quitProPresenter := Returned {| step_ok := true; step_message := None |};
     launchProPresenter := Returned {| step_ok := true; step_message := None |};
     applySongTemplate := fun _ => Returned true;
     applyTransitionTemplate := fun _ => transition;
     writeOperatorNotesFile := fun _ => Returned true;
     titleCategory := fun _ => None;
     baseName := fun s => s |}.

(** C1 fails on the code: the transition rewrite of the only item returns a
    failure.  The run completes; the item, no header and taken as far as its
    rewrite, is in none of the four buckets: their sum is 0 for 1 processed
    item. *)
Lemma failed_transition_in_no_bucket :
  let c := world goodIndex (Returned false) in
  runPresentationSync asciiTables request c
  = (Success (lit "Sunday")
       {| updated := 0; skipped := 0; noDesc := 0; missingPath := 0; writeErrors := 1 |}
       [] None ∅,
     preparation ++ [QuitHost; TransitionRewrite 0 (lit "/Library/Welcome.pro"); LaunchHost])
  /\ runVerdicts asciiTables request c = [TransitionFailed]
  /\ count processed (runVerdicts asciiTables request c) = 1%nat
  /\ (buckets {| updated := 0; skipped := 0; noDesc := 0; missingPath := 0;
                 writeErrors := 1 |}
      < count processed (runVerdicts asciiTables request c))%nat.
Proof. vm_compute. repeat split. lia. Qed.

(** The same plan when everything succeeds: one item, updated. *)
Example run_updates_item :
  runPresentationSync asciiTables request (world goodIndex (Returned true))
  = (Success (lit "Sunday")
       {| updated := 1; skipped := 0; noDesc := 0; missingPath := 0; writeErrors := 0 |}
       [] None {[ lit "AAAA-1111" := lit "Transitions" ]},
     preparation ++ [QuitHost; TransitionRewrite 0 (lit "/Library/Welcome.pro");
                    NotesWrite 0 (lit "/Library/Welcome.pro") (lit "Greet the room");
                    LaunchHost]).
Proof. vm_compute. reflexivity. Qed.

End Runs.

(** ** Orchestrator: aborts and the relaunch *)

Module RunFacts.
Import JS Unicode Orchestrator SummaryFacts.

Definition isReturned {A} (o : outcome A) : bool :=
  match o with Returned _ => true | Threw _ => false end.

(** A call of the mutation loop. *)
Definition isLoopCall (ev : event) : bool :=
  match ev with
  | SongRewrite _ _ | TransitionRewrite _ _ | NotesWrite _ _ _ => true
  | _ => false
  end.

(** The plan is fetched and the library indexed. *)
Definition planAndIndex (c : collaborators) : bool :=
  match loopInputs c with Some _ => true | None => false end.

(** The run gets to its mutation loop: its arguments are there, every call
    before the loop returns, the plan is fetched, the library is indexed and,
    when the host is to be reopened, it was closed. *)
Definition reachesLoop (p : PresentationSyncPayload) (c : collaborators) : bool :=
  negb (isEmpty (host p) || (port p =? 0)%Z)
  && negb (isEmpty (libraryRoot p))
  && planAndIndex c
  && isReturned (ensureTransitionTimer c)
  && isReturned (ensureStageLayout c)
  && isReturned (getMediaPlaylistItems c)
  && isReturned (fetchPropIdentifier c)
  && (if shouldReopen p c
      then match quitProPresenter c with
           | Returned quitRes => step_ok quitRes
           | Threw _ => false
           end
      else true).

Section Calls.

Variable U : UnicodeTables.
Variable p : PresentationSyncPayload.
Variable c : collaborators.
Variable matches : str -> option str.
Variable entries : list (str * indexEntry).

Ltac loop_steps :=
  unfold songStep, transitionStep, notesStep, bind, ret, call, modifySummary,
    tryCatch, setCategory, pushMissing; simpl.

Ltac no_call := exists []; split; [now rewrite app_nil_r | constructor].

Ltac some_calls :=
  loop_steps; eexists; split;
  [ rewrite <- ?app_assoc; simpl; first [ reflexivity | symmetry; apply app_nil_r ]
  | repeat constructor ].

(** The loop body only adds calls of the loop. *)
Lemma processItem_calls (i : nat) (item : PlanItem) (st : runState) :
  exists added,
    calls (snd (processItem U p c matches entries i item st)) = calls st ++ added
    /\ Forall (fun ev => isLoopCall ev = true) added.
Proof.
  unfold processItem.
  destruct (isHeader item); [no_call|].
  destruct (idExcluded _ _); [no_call|].
  destruct (isEmpty (trim (title item))); [no_call|].
  destruct (categoryExcluded _ _ _); [no_call|].
  destruct (isEmpty (strOrEmpty _)); [no_call|].
  destruct (isEmpty (if isEmpty _ then _ else _)); [no_call|].
  destruct (findHit _ _ _ _ _) as [file|]; [|no_call].
  unfold songStep, transitionStep, notesStep.
  destruct (isLabel (resolvePlanItemCategory c item) "Song").
  - destruct (songSectionCount item =? 0)%nat;
      [|destruct (applySongTemplate c i) as [[|]|e]];
      destruct (writeOperatorNotesFile c i) as [[|]|e'];
      destruct (resolvePlanItemCategory c item); some_calls.
  - destruct (isLabel (resolvePlanItemCategory c item) "Transitions").
    + destruct (applyTransitionTemplate c i) as [[|]|e];
        destruct (writeOperatorNotesFile c i) as [[|]|e'];
        destruct (resolvePlanItemCategory c item); some_calls.
    + destruct (writeOperatorNotesFile c i) as [[|]|e'];
        destruct (resolvePlanItemCategory c item); some_calls.
Qed.

Lemma forEach_calls (items : list PlanItem) :
  forall (i : nat) (st : runState),
  exists added,
    calls (snd (forEach (processItem U p c matches entries) i items st))
    = calls st ++ added
    /\ Forall (fun ev => isLoopCall ev = true) added.
Proof.
  induction items as [|item items IH]; intros i st; simpl.
  - exists []. split; [now rewrite app_nil_r | constructor].
  - unfold bind.
    destruct (processItem_calls i item st) as (a1 & H1 & F1).
    destruct (processItem U p c matches entries i item st) as [[[]|e] st1]; simpl in *.
    + destruct (IH (S i) st1) as (a2 & H2 & F2).
      exists (a1 ++ a2). split; [now rewrite H2, H1, app_assoc | now apply Forall_app].
    + exists a1. split; [exact H1 | exact F1].
Qed.

End Calls.

(** C5.  When the host is to be reopened and the run gets to its mutation
    loop, the relaunch is called, once, after every call of the loop and as
    the last call of the run, whatever the loop does: also when it throws. *)
Theorem relaunch_after_loop (U : UnicodeTables) (p : PresentationSyncPayload)
  (c : collaborators) :
  shouldReopen p c = true ->
  reachesLoop p c = true ->
  exists loopCalls,
    snd (runPresentationSync U p c)
    = preparation ++ [QuitHost] ++ loopCalls ++ [LaunchHost]
    /\ Forall (fun ev => isLoopCall ev = true) loopCalls.
Proof.
  intros Hreopen Hreach. unfold reachesLoop in Hreach. rewrite Hreopen in Hreach.
  repeat (apply andb_true_iff in Hreach; destruct Hreach as [Hreach ?]).
  apply negb_true_iff in Hreach.
  match goal with H : negb (isEmpty (libraryRoot p)) = true |- _ =>
    apply negb_true_iff in H; rename H into Hroot end.
  unfold runPresentationSync. rewrite Hreach, Hroot.
  unfold planAndIndex, loopInputs in *.
  unfold syncBody, closeHost, mutationLoop, relaunch, finish, tryFinally,
    setReopenOutcome, bind, call, ret.
  rewrite Hreopen.
  destruct (pcoGetNextPlan c) as [next|e]; [|discriminate].
  destruct (matchPresentations c) as [matches|e]; [|discriminate].
  destruct (indexPresentationsUuid c) as [indexRes|e]; [|discriminate].
  destruct (if fetch_ok next then fetch_plan next else None) as [pl|]; [|discriminate].
  destruct (if index_ok indexRes then index_map indexRes else None) as [entries|];
    [|discriminate].
  destruct (ensureTransitionTimer c) as [timer|e]; [|discriminate].
  destruct (ensureStageLayout c) as [layout|e]; [|discriminate].
  destruct (getMediaPlaylistItems c) as [media|e]; [|discriminate].
  destruct (fetchPropIdentifier c) as [prop|e]; [|discriminate].
  destruct (quitProPresenter c) as [quitRes|e]; [|discriminate].
  simpl.
  match goal with H : step_ok quitRes = true |- _ => rewrite H end. simpl.
  match goal with
  | |- context [forEach _ 0 (items pl) ?st0] =>
      destruct (forEach_calls U p c matches entries (items pl) 0 st0) as (added & Hc & Hf);
      destruct (forEach (processItem U p c matches entries) 0 (items pl) st0) as [o st']
  end.
  simpl in Hc. exists added. split; [|exact Hf].
  destruct o as [[]|e]; destruct (launchProPresenter c) as [launchRes|e'];
    simpl; rewrite Hc; rewrite <- ?app_assoc; reflexivity.
Qed.

(** The transition rewrite of the only item throws: the run fails, and its
    last call is the relaunch. *)
Lemma relaunch_after_loop_witness :
  exists loopCalls,
    snd (runPresentationSync asciiTables Runs.request
           (Runs.world Runs.goodIndex (Threw (Some (lit "spawn python3 ENOENT")))))
    = preparation ++ [QuitHost] ++ loopCalls ++ [LaunchHost]
    /\ Forall (fun ev => isLoopCall ev = true) loopCalls.
Proof.
  apply (relaunch_after_loop asciiTables Runs.request
           (Runs.world Runs.goodIndex (Threw (Some (lit "spawn python3 ENOENT")))));
    reflexivity.
Defined.

(** The run of the witness, in full: the error of the rewrite is the result,
    after the relaunch. *)
Example crashed_run_relaunches :
  runPresentationSync asciiTables Runs.request
    (Runs.world Runs.goodIndex (Threw (Some (lit "spawn python3 ENOENT"))))
  = (Failure (Crashed (Some (lit "spawn python3 ENOENT"))),
     preparation ++ [QuitHost; TransitionRewrite 0 (lit "/Library/Welcome.pro");
                     LaunchHost]).
Proof. vm_compute. reflexivity. Qed.

(** No awaited call throws, the song rewrite apart (its exceptions are
    caught). *)
Definition noThrow (c : collaborators) : Prop :=
  isReturned (pcoGetNextPlan c) = true
  /\ isReturned (matchPresentations c) = true
  /\ isReturned (ensureTransitionTimer c) = true
  /\ isReturned (ensureStageLayout c) = true
  /\ isReturned (indexPresentationsUuid c) = true
  /\ isReturned (getMediaPlaylistItems c) = true
  /\ isReturned (fetchPropIdentifier c) = true
  /\ isReturned (quitProPresenter c) = true
  /\ isReturned (launchProPresenter c) = true
  /\ (forall i, isReturned (applyTransitionTemplate c i) = true)
  /\ (forall i, isReturned (writeOperatorNotesFile c i) = true).

(** The reported failures that end a run: missing arguments, the plan fetch,
    the library index, the closing of the host. *)
Definition abortCause (p : PresentationSyncPayload) (c : collaborators)
  : option runError :=
  if isEmpty (host p) || (port p =? 0)%Z then Some MissingHostPort
  else if isEmpty (libraryRoot p) then Some MissingLibraryPath
  else
    match pcoGetNextPlan c with
    | Threw e => Some (Crashed e)
    | Returned next =>
        match (if fetch_ok next then fetch_plan next else None) with
        | None =>
            Some (PlanFetchFailed
                    (Plan.orElse (fetch_error next) (lit "Failed to fetch plan")))
        | Some _ =>
            match indexPresentationsUuid c with
            | Threw e => Some (Crashed e)
            | Returned indexRes =>
                match (if index_ok indexRes then index_map indexRes else None) with
                | None => Some LibraryIndexFailed
                | Some _ =>
                    if shouldReopen p c then
                      match quitProPresenter c with
                      | Threw e => Some (Crashed e)
                      | Returned quitRes =>
                          if step_ok quitRes then None
                          else Some (QuitFailed
                                       (Plan.orElse (step_message quitRes)
                                          (lit "Failed to close ProPresenter")))
                      end
                    else None
                end
            end
        end
    end.

Lemma itemVerdict_no_crash (U : UnicodeTables) (p : PresentationSyncPayload)
  (c : collaborators) (matches : str -> option str)
  (entries : list (str * indexEntry)) (i : nat) (item : PlanItem) :
  (forall i, isReturned (applyTransitionTemplate c i) = true) ->
  (forall i, isReturned (writeOperatorNotesFile c i) = true) ->
  crashed (itemVerdict U p c matches entries i item) = false.
Proof.
  intros Ht Hn. specialize (Ht i). specialize (Hn i).
  unfold itemVerdict, notesVerdict.
  destruct (isHeader item); [reflexivity|].
  destruct (idExcluded _ _); [reflexivity|].
  destruct (isEmpty (trim (title item))); [reflexivity|].
  destruct (categoryExcluded _ _ _); [reflexivity|].
  destruct (isEmpty (strOrEmpty _)); [reflexivity|].
  destruct (isEmpty (if isEmpty _ then _ else _)); [reflexivity|].
  destruct (findHit _ _ _ _ _) as [file|]; [|reflexivity].
  destruct (applyTransitionTemplate c i) as [[|]|]; try discriminate;
    destruct (writeOperatorNotesFile c i) as [[|]|]; try discriminate;
    destruct (isLabel _ "Song"); try reflexivity;
    destruct (isLabel _ "Transitions"); reflexivity.
Qed.

Lemma verdicts_no_crash (U : UnicodeTables) (p : PresentationSyncPayload)
  (c : collaborators) (matches : str -> option str)
  (entries : list (str * indexEntry)) (items : list PlanItem) :
  (forall i, isReturned (applyTransitionTemplate c i) = true) ->
  (forall i, isReturned (writeOperatorNotesFile c i) = true) ->
  forall i, existsb crashed (verdictsFrom U p c matches entries i items) = false.
Proof.
  intros Ht Hn. induction items as [|item items IH]; intros i; simpl; [reflexivity|].
  now rewrite (itemVerdict_no_crash U p c matches entries i item Ht Hn), IH.
Qed.

(** C2, as the code has it.  A run in which no call throws ends with an
    error result exactly for a missing argument, a failed plan fetch, a
    failed library index, or a host that could not be closed.  Everything
    else is local: a rewrite or a notes write that returns a failure, a song
    rewrite that throws, a host that does not relaunch, a missing timer,
    stage layout, prop or media playlist leave the run to complete and to
    return its summary, the tallies of its items. *)
Theorem aborts_only_on_listed_failures (U : UnicodeTables)
  (p : PresentationSyncPayload) (c : collaborators) :
  noThrow c ->
  match abortCause p c with
  | Some e => fst (runPresentationSync U p c) = Failure e
  | None =>
      exists planTitle missing reopenDetail categories,
        fst (runPresentationSync U p c)
        = Success planTitle (sumTallies (runVerdicts U p c)) missing reopenDetail
            categories
  end.
Proof.
  intros (Hplan & Hmatch & Htimer & Hstage & Hindex & Hmedia & Hprop & Hquit
          & Hlaunch & Htrans & Hnotes).
  unfold abortCause, runPresentationSync.
  destruct (isEmpty (host p) || (port p =? 0)%Z); [reflexivity|].
  destruct (isEmpty (libraryRoot p)); [reflexivity|].
  unfold runVerdicts, loopInputs, syncBody, closeHost, mutationLoop, relaunch,
    finish, tryFinally, setReopenOutcome, bind, call, ret.
  destruct (pcoGetNextPlan c) as [next|e]; [|discriminate]. simpl.
  destruct (if fetch_ok next then fetch_plan next else None) as [pl|]; [|reflexivity].
  destruct (matchPresentations c) as [matches|e]; [|discriminate]. simpl.
  destruct (ensureTransitionTimer c) as [timer|e]; [|discriminate]. simpl.
  destruct (ensureStageLayout c) as [layout|e]; [|discriminate]. simpl.
  destruct (indexPresentationsUuid c) as [indexRes|e]; [|discriminate]. simpl.
  destruct (if index_ok indexRes then index_map indexRes else None) as [entries|];
    [|reflexivity].
  destruct (getMediaPlaylistItems c) as [media|e]; [|discriminate]. simpl.
  destruct (fetchPropIdentifier c) as [prop|e]; [|discriminate]. simpl.
  assert (forall st0 : runState,
            summary st0 = zeroSummary ->
            exists st',
              forEach (processItem U p c matches entries) 0 (items pl) st0
              = (Returned tt, st')
              /\ summary st' = sumTallies (verdictsFrom U p c matches entries 0 (items pl)))
    as Hloop.
  { intros st0 Hzero.
    pose proof (forEach_verdicts U p c matches entries (items pl) 0 st0) as H.
    simpl in H.
    destruct (forEach (processItem U p c matches entries) 0 (items pl) st0) as [o st'].
    destruct H as [H1 H2].
    pose proof (H2 (verdicts_no_crash U p c matches entries (items pl) Htrans Hnotes 0)) as ->.
    exists st'. split; [reflexivity|].
    destruct (H1 eq_refl) as [Hs _]. now rewrite Hs, Hzero, addSummary_zero_l. }
  destruct (shouldReopen p c).
  - destruct (quitProPresenter c) as [quitRes|e]; [|discriminate]. simpl.
    destruct (step_ok quitRes); simpl; [|reflexivity].
    match goal with
    | |- context [forEach _ 0 (items pl) ?st0] =>
        destruct (Hloop st0 eq_refl) as (st' & -> & Hs)
    end.
    destruct (launchProPresenter c) as [launchRes|e]; [|discriminate]. simpl.
    rewrite Hs. eauto.
  - simpl.
    match goal with
    | |- context [forEach _ 0 (items pl) ?st0] =>
        destruct (Hloop st0 eq_refl) as (st' & -> & Hs)
    end.
    simpl. rewrite Hs. eauto.
Qed.

(** Collaborators whose rewrites and notes writes all return failures, and
    whose auxiliary lookups find nothing. *)
Definition failingWrites : collaborators :=
  {| platformIsDarwin := true;
     pcoGetNextPlan := pcoGetNextPlan (Runs.world Runs.goodIndex (Returned false));
     matchPresentations := matchPresentations (Runs.world Runs.goodIndex (Returned false));
     ensureTransitionTimer := Returned None;
     ensureStageLayout := Returned None;
     indexPresentationsUuid := Returned Runs.goodIndex;
     getMediaPlaylistItems := Returned None;
     fetchPropIdentifier := Returned None;
     quitProPresenter := Returned {| step_ok := true; step_message := None |};
     launchProPresenter :=
       Returned {| step_ok := false; step_message := Some (lit "timeout") |};
     applySongTemplate := fun _ => Threw None;
     applyTransitionTemplate := fun _ => Returned false;
     writeOperatorNotesFile := fun _ => Returned false;
     titleCategory := fun _ => None;
     baseName := fun s => s |}.

Lemma failingWrites_noThrow : noThrow failingWrites.
Proof. repeat split. Defined.

(** A run whose writes all fail still completes with a summary. *)
Lemma aborts_only_on_listed_failures_witness :
  exists planTitle missing reopenDetail categories,
    fst (runPresentationSync asciiTables Runs.request failingWrites)
    = Success planTitle
        (sumTallies (runVerdicts asciiTables Runs.request failingWrites))
        missing reopenDetail categories.
Proof.
  exact (aborts_only_on_listed_failures asciiTables Runs.request failingWrites
           failingWrites_noThrow).
Defined.

(** C2 fails on the code: the plan is fetched and the host is not yet
    closed, and a failed library index ends the run with an error result. *)
Lemma library_index_failure_aborts :
  let c := Runs.world Runs.failedIndex (Returned true) in
  isReturned (pcoGetNextPlan c) = true
  /\ runPresentationSync asciiTables Runs.request c
     = (Failure LibraryIndexFailed,
        [FetchPlan; MatchPresentations; EnsureTimer; EnsureStageLayout; IndexLibrary]).
Proof. split; reflexivity. Qed.

End RunFacts.

(** ** Lyric segmenter: blank lines of a block *)

Module LyricsBlankFacts.
Import JS Unicode Lyrics.

(** Two lyric lines with a blank line between them. *)
Definition twoStanzas : str :=
  lit "Amazing grace" ++ [10; 10] ++ lit "How sweet the sound".

(** [buildLyricSlides] itself closes the open slide at a blank line. *)
Example buildLyricSlides_flushes_at_blank :
  buildLyricSlides [lit "Amazing grace"; []; lit "How sweet the sound"]
  = ([lit "Amazing grace"; lit "How sweet the sound"],
     [[lit "Amazing grace"]; [lit "How sweet the sound"]]).
Proof. reflexivity. Qed.

(** *** No blank line survives the block normalizer *)

Section Units.

Variable P : N -> Prop.

Lemma Forall_trimStart (s : str) : Forall P s -> Forall P (trimStart s).
Proof.
  induction 1 as [|c s Hc Hs IH]; simpl; [constructor|].
  destruct (isWhite c); [exact IH | now constructor].
Qed.

Lemma Forall_trim (s : str) : Forall P s -> Forall P (trim s).
Proof.
  intros H. unfold trim, trimEnd.
  apply Forall_rev, Forall_trimStart, Forall_rev, Forall_trimStart, H.
Qed.

Lemma Forall_slice (s : str) (a b : nat) : Forall P s -> Forall P (slice s a b).
Proof.
  intros H. unfold slice. now apply Forall_take, Forall_drop.
Qed.

Lemma Forall_sliceFrom (s : str) (a : nat) : Forall P s -> Forall P (sliceFrom s a).
Proof.
  intros H. unfold sliceFrom. now apply Forall_drop.
Qed.

(** A segment: not empty, trimmed, made of units in [P]. *)
Definition segment (s : str) : Prop := s <> [] /\ trim s = s /\ Forall P s.

Lemma splitLoop_segments (fuel maxLength : nat) :
  forall (segments : list str) (remaining : str),
    Forall segment segments ->
    trim remaining = remaining -> Forall P remaining ->
    let '(segments', remaining') := splitLoop fuel maxLength segments remaining in
    Forall segment segments'
    /\ trim remaining' = remaining' /\ Forall P remaining'.
Proof.
  induction fuel as [|fuel IH]; intros segments remaining Hs Ht Hp; simpl.
  - destruct (length remaining <=? maxLength)%nat; auto.
  - destruct (length remaining <=? maxLength)%nat; [auto|].
    set (b0 := lastIndexOf remaining 32 maxLength).
    set (b := if (b0 <=? 0)%Z then indexOf remaining 32 maxLength else b0).
    destruct (b <=? 0)%Z; [auto|].
    apply IH.
    + destruct (isEmpty (trim (slice remaining 0 (Z.to_nat b)))) eqn:E; [exact Hs|].
      apply Forall_app. split; [exact Hs|]. constructor; [|constructor].
      split; [now apply JSFacts.isEmpty_false|].
      split; [apply JSFacts.trim_idem | now apply Forall_trim, Forall_slice].
    + apply JSFacts.trim_idem.
    + now apply Forall_trim, Forall_sliceFrom.
Qed.

Lemma splitLyricLine_segments (line : str) :
  segment line -> Forall segment (splitLyricLine line).
Proof.
  intros (Hne & Ht & Hp). unfold splitLyricLine, splitLyricLineMax. rewrite Ht.
  pose proof (splitLoop_segments (length line) MAX_LYRIC_LINE_LENGTH [] line
                (List.Forall_nil _) Ht Hp) as H.
  destruct (splitLoop (length line) MAX_LYRIC_LINE_LENGTH [] line) as [segs rem].
  destruct H as (Hs & Hrt & Hrp).
  assert (Forall segment (if isEmpty rem then segs else segs ++ [rem])) as Hall.
  { destruct (isEmpty rem) eqn:E; [exact Hs|].
    apply Forall_app. split; [exact Hs|]. constructor; [|constructor].
    split; [now apply JSFacts.isEmpty_false | now split]. }
  destruct (if isEmpty rem then segs else segs ++ [rem]); [|exact Hall].
  constructor; [now split | constructor].
Qed.

End Units.

Definition notNewline (c : N) : Prop := c <> 10.

Lemma collapseWhite_no_newline (s : str) :
  forall inRun, Forall notNewline (replaceRuns isWhite inRun s).
Proof.
  induction s as [|c s IH]; intros inRun; simpl; [constructor|].
  destruct (isWhite c) eqn:E.
  - destruct inRun; [apply IH|]. constructor; [discriminate | apply IH].
  - constructor; [|apply IH]. intros ->. discriminate.
Qed.

Lemma expandLine_segments (U : UnicodeTables) (line : str) :
  Forall (segment notNewline) (expandLine U line).
Proof.
  unfold expandLine. destruct (isEmpty (trim line)); [constructor|].
  destruct (isEmpty (sanitizeLyric U line)) eqn:E; [constructor|].
  apply splitLyricLine_segments. split; [now apply JSFacts.isEmpty_false|].
  unfold sanitizeLyric. split; [apply JSFacts.trim_idem|].
  apply Forall_trim, collapseWhite_no_newline.
Qed.

Lemma split_no_newline (s : str) : Forall notNewline s -> split 10 s = [s].
Proof.
  induction 1 as [|c s Hc _ IH]; simpl; [reflexivity|].
  apply N.eqb_neq in Hc. now rewrite Hc, IH.
Qed.

Lemma split_at_newline (s rest : str) :
  Forall notNewline s -> split 10 (s ++ 10 :: rest) = s :: split 10 rest.
Proof.
  induction 1 as [|c s Hc _ IH]; simpl; [reflexivity|].
  apply N.eqb_neq in Hc. now rewrite Hc, IH.
Qed.

(** Lines without a newline come back from [join] and [split]. *)
Lemma split_join (parts : list str) :
  parts <> [] -> Forall (Forall notNewline) parts ->
  split 10 (join [10] parts) = parts.
Proof.
  intros Hne H. induction H as [|p ps Hp Hps IH]; [contradiction|].
  destruct ps as [|q ps]; simpl.
  - now apply split_no_newline.
  - change (p ++ [10] ++ join [10] (q :: ps)) with (p ++ 10 :: join [10] (q :: ps)).
    rewrite split_at_newline by exact Hp. f_equal. now apply IH.
Qed.

Lemma stripEnds_segment (s : str) : trim s = s -> stripEnds s = s.
Proof.
  intros H. unfold stripEnds.
  assert (trimEnd s = s) as ->.
  { rewrite <- H at 1. unfold trim. rewrite JSFacts.trimEnd_idem. exact H. }
  rewrite <- H. apply JSFacts.trimStart_trim.
Qed.

(** For every lyrics block, the normalized block is empty or none of the
    lines [enrichSectionLyrics] hands to [buildLyricSlides] is blank: the
    flush at a blank line never runs for a section. *)
Lemma normalized_block_has_no_blank_line (U : UnicodeTables) (raw : str) :
  let baseLines := List.map stripEnds (split 10 (normalizeLyricBlock U raw)) in
  normalizeLyricBlock U raw = []
  \/ Forall (fun line => trim line <> []) baseLines.
Proof.
  simpl. unfold normalizeLyricBlock.
  set (kept := dropBlankEnds _).
  assert (Forall (segment notNewline) (flat_map (expandLine U) kept)) as Hseg.
  { induction kept as [|l kept IH]; simpl; [constructor|].
    apply Forall_app. split; [apply expandLine_segments | exact IH]. }
  destruct kept as [|l kept']; [now left|].
  set (parts := flat_map (expandLine U) (l :: kept')) in *.
  destruct parts as [|q parts'] eqn:Hparts; [now left|].
  right. rewrite split_join.
  - apply Forall_forall. intros x Hx. apply list_elem_of_In, in_map_iff in Hx.
    destruct Hx as (y & <- & Hy).
    rewrite List.Forall_forall in Hseg. destruct (Hseg y Hy) as (Hne & Ht & _).
    now rewrite (stripEnds_segment y Ht), Ht.
  - discriminate.
  - eapply List.Forall_impl; [|exact Hseg]. intros y (_ & _ & Hy). exact Hy.
Qed.

(** A blank line contributes nothing to the normalized block, wherever it
    stands. *)
Lemma blank_line_expands_to_nothing (U : UnicodeTables) (before after : list str)
  (line : str) :
  isEmpty (trim line) = true ->
  flat_map (expandLine U) (before ++ line :: after)
  = flat_map (expandLine U) (before ++ after).
Proof.
  intros H. rewrite !flat_map_app. simpl. unfold expandLine at 2.
  now rewrite H.
Qed.

(** The scenario of the specification: lyrics of two lines make one slide. *)
Example two_lines_one_slide :
  let sec := sectionFromLyrics asciiTables (lit "Line one" ++ [10] ++ lit "Line two") in
  lyricLines sec = Some [lit "Line one"; lit "Line two"]
  /\ lyricSlides sec = Some [[lit "Line one"; lit "Line two"]].
Proof. split; reflexivity. Qed.

(** C3 on the code.  The block normalizer drops the blank line before the
    section is segmented, so the line before it and the line after it share
    one slide. *)
Theorem blank_line_lost_before_segmenting :
  normalizeLyricBlock asciiTables twoStanzas
  = lit "Amazing grace" ++ [10] ++ lit "How sweet the sound"
  /\ lyricSlides (sectionFromLyrics asciiTables twoStanzas)
     = Some [[lit "Amazing grace"; lit "How sweet the sound"]].
Proof. split; reflexivity. Qed.

End LyricsBlankFacts.

(** ** The patterns, run on examples *)

Module PatternExamples.
Import JS Unicode Regex.
Import JS Unicode Regex.
Example pre_service_pattern : test (seqs [word "pre"; optional dashOrWhite; word "service"]) (lit "the pre-service loop") = true.
Proof. reflexivity. Qed.
Example exit_needs_word_end : test (seqs [word "exit"; WordBoundary]) (lit "exits") = false.
Proof. reflexivity. Qed.
Example tags_become_spaces : replaceAll (seqs [unit 60; plus (Unit (fun c => negb (c =? 62))); unit 62]) [32] (lit "a<b>c<<d>>e<>f<") = lit "a c >e<>f<".
Proof. reflexivity. Qed.
Example line_breaks_become_newlines : replaceAll (seqs [unit 60; Star white; wordAnyCase "br"; Star white; optional (unit 47); Star white; unit 62]) [10] (lit "a<BR />b< br>c<b r>") = lit "a" ++ [10] ++ lit "b" ++ [10] ++ lit "c<b r>".
Proof. reflexivity. Qed.
Example normalizeWhitespace_example : Notes.normalizeWhitespace (lit "  a   b " ++ [13;10;10;10] ++ lit " c" ++ [10;10]) = lit "a b" ++ [10;10] ++ lit "c".
Proof. reflexivity. Qed.
Example stripHtml_example : Notes.stripHtml (lit "<p>Hello<br/>there</p>") = lit " Hello" ++ [10] ++ lit "there" ++ [10].
Proof. reflexivity. Qed.
Example sermon_is_message : Classify.classifyPlanItem asciiTables Plan.announcement (lit "Sermon") false = Plan.Message.
Proof. reflexivity. Qed.
Example closing_song_is_song : Category.titleCascade asciiTables (lit "Closing Song") false Plan.song = Some (lit "Song").
Proof. reflexivity. Qed.
Example topics_of_a_list : Topics.extractTransitionTopics (lit "* Pray out of Worship" ++ [10] ++ lit "2) Next Step Story [Thompsons]" ++ [10] ++ lit "> CUE: lets watch") = [lit "Pray out of Worship"; lit "Next Step Story [Thompsons]"].
Proof. reflexivity. Qed.
Example overrides_of_two_groups : Topics.deriveTopicOverrides asciiTables (lit "Dismiss LIFE Youth & LIFE Kidz now")
  = [ {| Topics.topic := lit "LIFE Youth"; Topics.manualTarget := Some (lit "LIFE Youth Jr") |};
      {| Topics.topic := lit "LIFE Kidz now"; Topics.manualTarget := Some (lit "LIFE Kidz") |} ].
Proof. reflexivity. Qed.
Example topics_of_inline_bullets : Topics.extractTransitionTopics (lit "Welcome" ++ [8226] ++ lit " Giving" ++ [8226; 8226] ++ lit "3. Host") = [lit "Welcome"; lit "Giving"; lit "3. Host"].
Proof. reflexivity. Qed.
Example bracketed_name_example : LowerThird.extractBracketedName (lit "Host [ ] intro [] [ Pastor Sam ] [x]") = Some (lit "Pastor Sam").
Proof. reflexivity. Qed.
Example quoted_value : Env.valOf (lit "KEY = " ++ [34] ++ lit "a b" ++ [34] ++ lit "  ") 4 = lit "a b".
Proof. reflexivity. Qed.
Example lines_of_a_file : Env.splitNewlines (lit "a" ++ [13; 10] ++ lit "b" ++ [13; 13; 10; 10] ++ lit "c" ++ [13]) = [lit "a"; lit "b" ++ [13]; []; lit "c" ++ [13]].
Proof. reflexivity. Qed.
End PatternExamples.

Module LyricsWrapFacts.
Import JS Unicode Lyrics JSFacts.

(** *** What the two searches of [splitLyricLine] return *)

Lemma lastIndexOfUpto_found (c : N) (s : str) :
  forall (i from : nat) (found : Z),
    let r := lastIndexOfUpto c s i from found in
    r = found
    \/ exists k : nat,
         r = Z.of_nat (i + k) /\ (i + k <= from)%nat /\ nth_error s k = Some c.
Proof.
  induction s as [|x s IH]; intros i from found; simpl; [now left|].
  destruct (i <=? from)%nat eqn:Hi; [|now left].
  apply Nat.leb_le in Hi.
  destruct (IH (S i) from (if x =? c then Z.of_nat i else found)) as [H|(k & Hr & Hk & Hn)].
  - destruct (x =? c) eqn:Hx.
    + right. exists 0%nat. apply N.eqb_eq in Hx. subst x.
      rewrite Nat.add_0_r. simpl. auto.
    + left. exact H.
  - right. exists (S k). rewrite Nat.add_succ_r. simpl. auto.
Qed.

Lemma lastIndexOfUpto_bound (c : N) (s : str) :
  forall (i from : nat) (found : Z),
    (found <= lastIndexOfUpto c s i from found)%Z \/ (Z.of_nat i <= found)%Z.
Proof.
  induction s as [|x s IH]; intros i from found; simpl; [left; lia|].
  destruct (i <=? from)%nat; [|left; lia].
  destruct (x =? c).
  - destruct (Z_le_gt_dec (Z.of_nat i) found); [now right|].
    left. destruct (IH (S i) from (Z.of_nat i)); lia.
  - destruct (IH (S i) from found); [now left | right; lia].
Qed.

(** No unit [c] stands at an index up to [from] that is greater than the
    result. *)
Lemma lastIndexOfUpto_last (c : N) (s : str) :
  forall (i from : nat) (found : Z) (k : nat),
    (found < Z.of_nat i)%Z ->
    nth_error s k = Some c -> (i + k <= from)%nat ->
    (Z.of_nat (i + k) <= lastIndexOfUpto c s i from found)%Z.
Proof.
  induction s as [|x s IH]; intros i from found k Hf Hn Hk; [destruct k; discriminate|].
  simpl. assert (i <= from)%nat as Hi by lia.
  apply Nat.leb_le in Hi. rewrite Hi.
  destruct k as [|k]; simpl in Hn.
  - injection Hn as ->. rewrite N.eqb_refl, Nat.add_0_r.
    destruct (lastIndexOfUpto_bound c s (S i) from (Z.of_nat i)); lia.
  - rewrite Nat.add_succ_r in *.
    apply (IH (S i) from _ k); [|exact Hn | exact Hk].
    destruct (x =? c); lia.
Qed.

Lemma indexOfFrom_found (c : N) (s : str) :
  forall (i from : nat),
    let r := indexOfFrom c s i from in
    (r = (-1)%Z /\ forall k, (from <= i + k)%nat -> nth_error s k <> Some c)
    \/ exists k : nat,
         r = Z.of_nat (i + k) /\ (from <= i + k)%nat /\ nth_error s k = Some c
         /\ forall j, (j < k)%nat -> (from <= i + j)%nat -> nth_error s j <> Some c.
Proof.
  induction s as [|x s IH]; intros i from; simpl.
  - left. split; [reflexivity|]. intros [|k] _; discriminate.
  - destruct ((from <=? i)%nat && (x =? c)) eqn:E.
    + apply andb_true_iff in E as [Hf Hx]. apply Nat.leb_le in Hf. apply N.eqb_eq in Hx.
      right. exists 0%nat. rewrite Nat.add_0_r. subst x. repeat split; auto; lia.
    + assert (forall j, j = 0%nat -> (from <= i + j)%nat -> nth_error (x :: s) j <> Some c) as H0.
      { intros j -> Hj. simpl. intros [= ->]. rewrite N.eqb_refl, andb_true_r in E.
        apply Nat.leb_gt in E. lia. }
      destruct (IH (S i) from) as [(Hr & Hno)|(k & Hr & Hk & Hn & Hno)].
      * left. split; [exact Hr|]. intros [|k] Hk; [now apply H0|].
        simpl. apply Hno. lia.
      * right. exists (S k). rewrite Nat.add_succ_r. repeat split; auto.
        intros [|j] Hj Hfj; [now apply H0|]. simpl. apply Hno; lia.
Qed.

(** *** Every segment fits the line, or is one word *)

(** No space in the string. *)
Definition oneWord (s : str) : Prop := Forall (fun c => c <> 32) s.

Definition fits (maxLength : nat) (seg : str) : Prop :=
  (length seg <= maxLength)%nat \/ oneWord seg.

Lemma oneWord_nth (s : str) :
  (forall k, nth_error s k <> Some 32) -> oneWord s.
Proof.
  intros H. apply List.Forall_forall. intros c Hc ->.
  apply In_nth_error in Hc as [k Hk]. exact (H k Hk).
Qed.

Lemma oneWord_firstn (s : str) (b : nat) :
  (forall k, (k < b)%nat -> nth_error s k <> Some 32) -> oneWord (firstn b s).
Proof.
  intros H. apply oneWord_nth. intros k Hk.
  destruct (Nat.lt_ge_cases k b) as [Hlt|Hge].
  - rewrite nth_error_firstn in Hk.
    apply Nat.ltb_lt in Hlt. rewrite Hlt in Hk. apply Nat.ltb_lt in Hlt. exact (H k Hlt Hk).
  - assert (nth_error (firstn b s) k = None) as E.
    { apply nth_error_None. rewrite length_firstn. lia. }
    congruence.
Qed.

Lemma trimmed_head (s : str) : trim s = s -> nth_error s 0 <> Some 32.
Proof.
  intros H. pose proof (trim_head s) as Hh. rewrite H in Hh.
  destruct s as [|c t]; [discriminate|]. simpl. intros [= ->]. discriminate.
Qed.

(** What the two searches tell about a trimmed [remaining]. *)
Lemma break_index (remaining : str) (maxLength : nat) :
  trim remaining = remaining ->
  let b0 := lastIndexOf remaining 32 maxLength in
  let b := if (b0 <=? 0)%Z then indexOf remaining 32 maxLength else b0 in
  ((b <= 0)%Z /\ oneWord remaining)
  \/ ((0 < b)%Z /\ nth_error remaining (Z.to_nat b) = Some 32
      /\ ((Z.to_nat b <= maxLength)%nat \/ oneWord (firstn (Z.to_nat b) remaining))).
Proof.
  intros Ht. simpl.
  pose proof (trimmed_head remaining Ht) as Hhead.
  unfold lastIndexOf, indexOf.
  destruct (lastIndexOfUpto_found 32 remaining 0 maxLength (-1)%Z) as [Hr|(k & Hr & Hk & Hn)].
  - rewrite Hr. simpl.
    assert (forall k, (k <= maxLength)%nat -> nth_error remaining k <> Some 32) as Hlow.
    { intros k Hk Hn.
      pose proof (lastIndexOfUpto_last 32 remaining 0 maxLength (-1)%Z k ltac:(lia) Hn ltac:(lia)).
      simpl in *. lia. }
    destruct (indexOfFrom_found 32 remaining 0 maxLength) as [(Hi & Hno)|(k & Hi & Hk & Hn & Hno)].
    + left. rewrite Hi. split; [lia|]. apply oneWord_nth. intros k.
      destruct (Nat.le_gt_cases k maxLength); [now apply Hlow | apply Hno; simpl; lia].
    + rewrite Hi. simpl in *. destruct k as [|k]; [contradiction|].
      right. split; [lia|]. rewrite Nat2Z.id. split; [exact Hn|].
      right. apply oneWord_firstn. intros j Hj.
      destruct (Nat.le_gt_cases j maxLength); [now apply Hlow | apply Hno; lia].
  - simpl in *. rewrite Hr. destruct k as [|k]; [contradiction|].
    replace (Z.of_nat (S k) <=? 0)%Z with false by (symmetry; apply Z.leb_gt; lia).
    right. rewrite Nat2Z.id. split; [lia|]. split; [exact Hn | now left].
Qed.

Lemma oneWord_trim (s : str) : oneWord s -> oneWord (trim s).
Proof. apply LyricsBlankFacts.Forall_trim. Qed.

Lemma fits_head (remaining : str) (maxLength b : nat) :
  (b <= maxLength)%nat \/ oneWord (firstn b remaining) ->
  fits maxLength (trim (slice remaining 0 b)).
Proof.
  unfold slice. rewrite Nat.sub_0_r. change (skipn 0 remaining) with remaining. intros [H|H].
  - left. pose proof (trim_length (firstn b remaining)).
    rewrite length_firstn in *. lia.
  - right. now apply oneWord_trim.
Qed.

(** A string is blank when trimming leaves nothing of it. *)
Lemma trimStart_nil (s : str) : trimStart s = [] <-> forallb isWhite s = true.
Proof.
  induction s as [|c s IH]; simpl; [tauto|].
  destruct (isWhite c); simpl; [exact IH | split; discriminate].
Qed.

Lemma trim_nil (s : str) : trim s = [] <-> forallb isWhite s = true.
Proof.
  rewrite <- trimStart_nil. unfold trim.
  pose proof (trimStart_head s) as H.
  destruct (trimStart s) as [|c t]; [tauto|].
  rewrite trimEnd_cons by exact H. split; discriminate.
Qed.

Lemma trimmed_trimEnd (s : str) : trim s = s -> trimEnd s = s.
Proof.
  intros H. rewrite <- H at 1. unfold trim. rewrite trimEnd_idem. exact H.
Qed.

Lemma trimmed_last (l : str) (c : N) : trim (l ++ [c]) = l ++ [c] -> isWhite c = false.
Proof.
  intros H. apply trimmed_trimEnd in H. unfold trimEnd in H.
  apply (f_equal (@rev N)) in H. rewrite rev_involutive, rev_app_distr in H.
  change (rev [c] ++ rev l) with (c :: rev l) in H.
  pose proof (trimStart_head (c :: rev l)) as Hh. rewrite H in Hh. exact Hh.
Qed.

(** What follows a position inside a trimmed string is not blank. *)
Lemma trimmed_rest (s : str) (b : nat) :
  trim s = s -> (b < length s)%nat -> trim (skipn b s) <> [].
Proof.
  intros Ht Hb Hnil. apply trim_nil in Hnil.
  destruct (exists_last (l := s)) as (l & c & E); [destruct s; simpl in *; [lia | discriminate]|].
  subst s. pose proof (trimmed_last l c Ht) as Hc.
  rewrite length_app in Hb. simpl in Hb.
  rewrite skipn_app in Hnil.
  replace (b - length l)%nat with 0%nat in Hnil by lia. simpl in Hnil.
  rewrite forallb_app in Hnil. apply andb_true_iff in Hnil as [_ Hnil].
  simpl in Hnil. rewrite Hc in Hnil. discriminate.
Qed.

Lemma splitLoop_fits (fuel maxLength : nat) :
  forall (segments : list str) (remaining : str),
    (length remaining <= fuel)%nat ->
    trim remaining = remaining ->
    Forall (fits maxLength) segments ->
    let '(segments', remaining') := splitLoop fuel maxLength segments remaining in
    Forall (fits maxLength) segments' /\ fits maxLength remaining'
    /\ trim remaining' = remaining' /\ (remaining <> [] -> remaining' <> []).
Proof.
  induction fuel as [|fuel IH]; intros segments remaining Hlen Ht Hs.
  - simpl. destruct (length remaining <=? maxLength)%nat;
      (split; [exact Hs | split; [left; lia | split; [exact Ht | auto]]]).
  - simpl. destruct (length remaining <=? maxLength)%nat eqn:Hshort.
    { apply Nat.leb_le in Hshort.
      split; [exact Hs | split; [now left | split; [exact Ht | auto]]]. }
    pose proof (break_index remaining maxLength Ht) as Hb. simpl in Hb.
    set (b0 := lastIndexOf remaining 32 maxLength) in *.
    set (b := if (b0 <=? 0)%Z then indexOf remaining 32 maxLength else b0) in *.
    destruct Hb as [(Hb & Hw)|(Hb & Hn & Hfit)].
    + apply Z.leb_le in Hb. rewrite Hb.
      split; [exact Hs | split; [now right | split; [exact Ht | auto]]].
    + replace (b <=? 0)%Z with false by (symmetry; apply Z.leb_gt; lia).
      assert (Z.to_nat b < length remaining)%nat as Hin.
      { apply nth_error_Some. congruence. }
      pose proof (IH (if isEmpty (trim (slice remaining 0 (Z.to_nat b)))
                      then segments
                      else segments ++ [trim (slice remaining 0 (Z.to_nat b))])
                    (trim (sliceFrom remaining (Z.to_nat b)))) as H.
      destruct (splitLoop fuel maxLength _ _) as [segs rem].
      destruct H as (H1 & H2 & H3 & H4).
      * pose proof (trim_length (sliceFrom remaining (Z.to_nat b))) as Hl.
        unfold sliceFrom in *. rewrite length_skipn in Hl.
        assert (1 <= Z.to_nat b)%nat by lia. lia.
      * apply trim_idem.
      * destruct (isEmpty (trim (slice remaining 0 (Z.to_nat b)))); [exact Hs|].
        apply Forall_app. split; [exact Hs|].
        constructor; [now apply fits_head | constructor].
      * split; [exact H1 | split; [exact H2 | split; [exact H3|]]].
        intros _. apply H4. now apply trimmed_rest.
Qed.

Lemma splitLyricLineMax_fits (line : str) (maxLength : nat) :
  Forall (fits maxLength) (splitLyricLineMax line maxLength)
  /\ Forall (fun seg => trim seg = seg) (splitLyricLineMax line maxLength).
Proof.
  unfold splitLyricLineMax.
  pose proof (splitLoop_fits (length (trim line)) maxLength [] (trim line)
                (Nat.le_refl _) (trim_idem line) (List.Forall_nil _)) as H.
  pose proof (LyricsBlankFacts.splitLoop_segments (fun _ => True)
                (length (trim line)) maxLength [] (trim line)
                (List.Forall_nil _) (trim_idem line)) as H'.
  destruct (splitLoop (length (trim line)) maxLength [] (trim line)) as [segs rem].
  destruct H as (Hs & Hr & Ht & Hne).
  destruct H' as (Hs' & _ & _); [apply List.Forall_forall; auto|].
  assert (Forall (fun seg => trim seg = seg) segs) as Hst.
  { eapply List.Forall_impl; [|exact Hs']. intros a (_ & Ha & _). exact Ha. }
  destruct (isEmpty rem) eqn:E.
  - destruct segs as [|s0 segs]; [|now split].
    apply isEmpty_true in E. subst rem.
    assert (trim line = []) as ->.
    { destruct (trim line); [reflexivity|]. exfalso. apply Hne; [discriminate | reflexivity]. }
    split.
    + constructor; [left; simpl; lia | constructor].
    + constructor; [reflexivity | constructor].
  - assert (segs ++ [rem] <> []) as Hne' by (destruct segs; discriminate).
    destruct (segs ++ [rem]) as [|x l] eqn:Eq; [contradiction|]. rewrite <- Eq.
    split; apply Forall_app; split; auto.
Qed.

(** X1.  Wrapping at 48 columns: every line [splitLyricLine] returns holds
    at most 48 code units, or is a single word (it contains no space), which
    is never cut; and it carries no white space at its ends.  The same holds
    for any other maximal length. *)
Theorem splitLyricLine_width :
  (forall line : str,
     Forall (fun seg => ((length seg <= 48)%nat \/ Forall (fun c => c <> 32) seg)
                        /\ trim seg = seg)
       (splitLyricLine line))
  /\ (forall (line : str) (maxLength : nat),
        Forall (fun seg => (length seg <= maxLength)%nat \/ Forall (fun c => c <> 32) seg)
          (splitLyricLineMax line maxLength)).
Proof.
  split.
  - intros line. unfold splitLyricLine.
    destruct (splitLyricLineMax_fits line MAX_LYRIC_LINE_LENGTH) as [Hf Ht].
    rewrite List.Forall_forall in *. intros seg Hseg. split; [apply Hf | apply Ht]; exact Hseg.
  - intros line maxLength. apply splitLyricLineMax_fits.
Qed.

(** *** Wrapping again changes nothing *)

Lemma oneWord_lastIndexOf (s : str) (from : nat) :
  oneWord s -> lastIndexOf s 32 from = (-1)%Z.
Proof.
  intros H. unfold lastIndexOf.
  destruct (lastIndexOfUpto_found 32 s 0 from (-1)%Z) as [Hr|(k & _ & _ & Hn)]; [exact Hr|].
  apply nth_error_In in Hn. unfold oneWord in H. rewrite List.Forall_forall in H.
  now specialize (H 32 Hn).
Qed.

Lemma oneWord_indexOf (s : str) (from : nat) :
  oneWord s -> indexOf s 32 from = (-1)%Z.
Proof.
  intros H. unfold indexOf.
  destruct (indexOfFrom_found 32 s 0 from) as [(Hr & _)|(k & _ & _ & Hn & _)]; [exact Hr|].
  apply nth_error_In in Hn. unfold oneWord in H. rewrite List.Forall_forall in H.
  now specialize (H 32 Hn).
Qed.

Lemma splitLyricLineMax_fixed (seg : str) (maxLength : nat) :
  fits maxLength seg -> trim seg = seg -> splitLyricLineMax seg maxLength = [seg].
Proof.
  intros Hf Ht. unfold splitLyricLineMax. rewrite Ht.
  assert (splitLoop (length seg) maxLength [] seg = ([], seg)) as ->.
  { destruct (length seg) as [|n] eqn:Hn; simpl.
    - now destruct (length seg <=? maxLength)%nat.
    - destruct (length seg <=? maxLength)%nat eqn:Hshort; [reflexivity|].
      destruct Hf as [Hf|Hf]; [apply Nat.leb_gt in Hshort; lia|].
      rewrite (oneWord_lastIndexOf seg maxLength Hf). simpl.
      now rewrite (oneWord_indexOf seg maxLength Hf). }
  now destruct seg.
Qed.

(** *** The words of a sanitized line are kept *)

(** Words joined by single spaces: no other white space, none at the ends.
    [prevSpace] tells that the unit before is a space. *)
Fixpoint spaced (prevSpace : bool) (s : str) : bool :=
  match s with
  | [] => negb prevSpace
  | c :: r =>
      if c =? 32 then negb prevSpace && spaced true r
      else negb (isWhite c) && spaced false r
  end.

(** The same, a space at the end allowed. *)
Fixpoint looselySpaced (prevSpace : bool) (s : str) : bool :=
  match s with
  | [] => true
  | c :: r =>
      if c =? 32 then negb prevSpace && looselySpaced true r
      else negb (isWhite c) && looselySpaced false r
  end.

Lemma white_space : isWhite 32 = true.
Proof. reflexivity. Qed.

Lemma collapseWhite_loose (z : str) :
  forall inRun : bool, looselySpaced inRun (replaceRuns isWhite inRun z) = true.
Proof.
  induction z as [|c z IH]; intros inRun; simpl; [reflexivity|].
  destruct (isWhite c) eqn:Hc.
  - destruct inRun; [apply IH|]. simpl. apply IH.
  - simpl. destruct (c =? 32) eqn:Hsp.
    + apply N.eqb_eq in Hsp. subst c. discriminate.
    + rewrite Hc. simpl. apply IH.
Qed.

Lemma loose_trimStart (s : str) :
  forall p : bool,
    looselySpaced p s = true -> forall q : bool, looselySpaced q (trimStart s) = true.
Proof.
  induction s as [|c s IH]; intros p H q; simpl in *; [reflexivity|].
  destruct (c =? 32) eqn:Hsp.
  - apply N.eqb_eq in Hsp. subst c. simpl.
    apply andb_true_iff in H as [_ H]. now apply (IH true).
  - apply andb_true_iff in H as [Hc H]. apply negb_true_iff in Hc.
    rewrite Hc. simpl. now rewrite Hsp, Hc, H.
Qed.

Lemma loose_trimEnd (s : str) :
  forall p : bool,
    looselySpaced p s = true ->
    TitleFacts.trimEndRec s = [] \/ spaced p (TitleFacts.trimEndRec s) = true.
Proof.
  induction s as [|c s IH]; intros p H; simpl in *; [now left|].
  destruct (c =? 32) eqn:Hsp.
  - apply N.eqb_eq in Hsp. subst c.
    apply andb_true_iff in H as [Hp H].
    destruct (IH true H) as [E|E].
    + rewrite E. now left.
    + right. destruct (TitleFacts.trimEndRec s) as [|x t]; [discriminate|].
      simpl. rewrite Hp. exact E.
  - apply andb_true_iff in H as [Hc H].
    right. destruct (IH false H) as [E|E].
    + rewrite E. apply negb_true_iff in Hc. rewrite Hc. simpl. now rewrite Hsp, Hc.
    + destruct (TitleFacts.trimEndRec s) as [|x t] eqn:Et.
      * apply negb_true_iff in Hc. rewrite Hc. simpl. now rewrite Hsp, Hc.
      * simpl in *. now rewrite Hsp, Hc.
Qed.

(** What [s.replace(/\s+/g, ' ').trim()] returns. *)
Lemma collapsed_shape (z : str) :
  let y := trim (collapseWhite z) in
  y = [] \/ spaced true y = true.
Proof.
  simpl. unfold trim. rewrite TitleFacts.trimEnd_rec.
  apply loose_trimEnd.
  apply (loose_trimStart _ false). apply collapseWhite_loose.
Qed.

Lemma spaced_collapse (s : str) :
  forall prev inRun : bool,
    (inRun = true -> prev = true) ->
    spaced prev s = true ->
    replaceRuns isWhite inRun s = s.
Proof.
  induction s as [|c s IH]; intros prev inRun Himp H; simpl in *; [reflexivity|].
  destruct (c =? 32) eqn:Hsp.
  - apply N.eqb_eq in Hsp. subst c. simpl.
    apply andb_true_iff in H as [Hp H]. apply negb_true_iff in Hp. subst prev.
    destruct inRun; [specialize (Himp eq_refl); discriminate|].
    f_equal. now apply (IH true).
  - apply andb_true_iff in H as [Hc H]. apply negb_true_iff in Hc.
    rewrite Hc. f_equal. apply (IH false); [discriminate | exact H].
Qed.

Lemma spaced_trimEnd (s : str) :
  forall p : bool, spaced p s = true -> TitleFacts.trimEndRec s = s.
Proof.
  induction s as [|c s IH]; intros p H; simpl in *; [reflexivity|].
  destruct (c =? 32) eqn:Hsp.
  - apply andb_true_iff in H as [_ H]. rewrite (IH true H).
    destruct s; [discriminate | reflexivity].
  - apply andb_true_iff in H as [Hc H]. apply negb_true_iff in Hc.
    rewrite (IH false H). rewrite Hc. now destruct s.
Qed.

Lemma spaced_trim (s : str) : spaced true s = true -> trim s = s.
Proof.
  intros H. unfold trim.
  assert (trimStart s = s) as ->.
  { destruct s as [|c s]; [reflexivity|]. simpl in *.
    destruct (c =? 32); [discriminate|].
    apply andb_true_iff in H as [Hc _]. apply negb_true_iff in Hc. now rewrite Hc. }
  rewrite TitleFacts.trimEnd_rec. now apply (spaced_trimEnd s true).
Qed.

Lemma spaced_split (l r : str) :
  forall p : bool,
    spaced p (l ++ 32 :: r) = true -> spaced p l = true /\ spaced true r = true.
Proof.
  induction l as [|c l IH]; intros p H; simpl in *.
  - apply andb_true_iff in H as [Hp H]. now split.
  - destruct (c =? 32).
    + apply andb_true_iff in H as [Hp H]. rewrite Hp. now apply IH.
    + apply andb_true_iff in H as [Hc H]. rewrite Hc. now apply IH.
Qed.

Lemma join_two (sep l r : str) (segs : list str) :
  join sep (segs ++ [l; r]) = join sep (segs ++ [l ++ sep ++ r]).
Proof.
  induction segs as [|a segs IH]; [reflexivity|].
  simpl. rewrite IH.
  destruct segs; reflexivity.
Qed.

Lemma nth_error_cut (s : str) (b : nat) (c : N) :
  nth_error s b = Some c -> s = firstn b s ++ c :: skipn (S b) s.
Proof.
  revert b. induction s as [|x s IH]; intros [|b] H; try discriminate.
  - injection H as ->. reflexivity.
  - simpl in *. f_equal. now apply IH.
Qed.

Lemma splitLoop_joins (fuel maxLength : nat) :
  forall (segments : list str) (remaining : str),
    spaced true remaining = true ->
    let '(segments', remaining') := splitLoop fuel maxLength segments remaining in
    join [32] (segments' ++ [remaining']) = join [32] (segments ++ [remaining])
    /\ remaining' <> [].
Proof.
  induction fuel as [|fuel IH]; intros segments remaining Hsp.
  - simpl. destruct (length remaining <=? maxLength)%nat;
      (split; [reflexivity | destruct remaining; discriminate]).
  - simpl. destruct (length remaining <=? maxLength)%nat.
    { split; [reflexivity | destruct remaining; discriminate]. }
    pose proof (break_index remaining maxLength (spaced_trim _ Hsp)) as Hb. simpl in Hb.
    set (b0 := lastIndexOf remaining 32 maxLength) in *.
    set (b := if (b0 <=? 0)%Z then indexOf remaining 32 maxLength else b0) in *.
    destruct Hb as [(Hb & _)|(Hb & Hn & _)].
    + apply Z.leb_le in Hb. rewrite Hb.
      split; [reflexivity | destruct remaining; discriminate].
    + replace (b <=? 0)%Z with false by (symmetry; apply Z.leb_gt; lia).
      pose proof (nth_error_cut remaining (Z.to_nat b) 32 Hn) as Hcut.
      set (l := firstn (Z.to_nat b) remaining) in *.
      set (r := skipn (S (Z.to_nat b)) remaining) in *.
      assert (spaced true l = true /\ spaced true r = true) as [Hl Hr].
      { apply spaced_split. now rewrite <- Hcut. }
      assert (trim (slice remaining 0 (Z.to_nat b)) = l) as ->.
      { unfold slice. rewrite Nat.sub_0_r. change (skipn 0 remaining) with remaining.
        now apply spaced_trim. }
      assert (trim (sliceFrom remaining (Z.to_nat b)) = r) as ->.
      { unfold sliceFrom. rewrite Hcut at 1.
        rewrite skipn_app, skipn_all2 by (unfold l; rewrite length_firstn; lia).
        replace (Z.to_nat b - length l)%nat with 0%nat.
        2:{ unfold l. rewrite length_firstn.
            assert (Z.to_nat b < length remaining)%nat by (apply nth_error_Some; congruence).
            lia. }
        simpl. unfold trim at 1. simpl. now apply spaced_trim. }
      assert (isEmpty l = false) as -> by (destruct l; [discriminate | reflexivity]).
      specialize (IH (segments ++ [l]) r Hr).
      destruct (splitLoop fuel maxLength (segments ++ [l]) r) as [segs rem].
      destruct IH as [IH Hne]. split; [|exact Hne].
      rewrite IH, <- app_assoc. simpl. rewrite join_two.
      do 2 f_equal. f_equal. symmetry. exact Hcut.
Qed.

(** X2.  Wrapping loses nothing: the lines [splitLyricLine] makes of a
    sanitized lyric line, joined by single spaces, give the sanitized line
    back, whatever the maximal length. *)
Theorem splitLyricLine_keeps_words (U : UnicodeTables) (value : str) :
  join [32] (splitLyricLine (sanitizeLyric U value)) = sanitizeLyric U value
  /\ forall maxLength : nat,
       join [32] (splitLyricLineMax (sanitizeLyric U value) maxLength)
       = sanitizeLyric U value.
Proof.
  assert (forall maxLength : nat,
            join [32] (splitLyricLineMax (sanitizeLyric U value) maxLength)
            = sanitizeLyric U value) as H.
  { intros maxLength. unfold sanitizeLyric.
    destruct (collapsed_shape (removePunct U value)) as [E|E]; simpl in E.
    - rewrite E. reflexivity.
    - set (s := trim (collapseWhite (removePunct U value))) in *.
      unfold splitLyricLineMax. rewrite (spaced_trim s E).
      pose proof (splitLoop_joins (length s) maxLength [] s E) as Hj.
      destruct (splitLoop (length s) maxLength [] s) as [segs rem].
      destruct Hj as [Hj Hne].
      assert (isEmpty rem = false) as -> by (now apply isEmpty_false).
      destruct segs; exact Hj. }
  split; [apply H | exact H].
Qed.

(** *** The lines of a section are the lines of its normalized block *)

Lemma expandLine_lines (U : UnicodeTables) (line : str) :
  Forall (fun p => p <> [] /\ trim p = p /\ Forall LyricsBlankFacts.notNewline p
                   /\ fits MAX_LYRIC_LINE_LENGTH p)
    (expandLine U line).
Proof.
  pose proof (LyricsBlankFacts.expandLine_segments U line) as Hseg.
  assert (Forall (fits MAX_LYRIC_LINE_LENGTH) (expandLine U line)) as Hfit.
  { unfold expandLine. destruct (isEmpty (trim line)); [constructor|].
    destruct (isEmpty (sanitizeLyric U line)); [constructor|].
    apply splitLyricLineMax_fits. }
  rewrite List.Forall_forall in *. intros p Hp.
  destruct (Hseg p Hp) as (H1 & H2 & H3). auto.
Qed.

Lemma cleanParts_fixed (p : str) :
  p <> [] -> trim p = p -> fits MAX_LYRIC_LINE_LENGTH p -> LyricsFacts.cleanParts p = [p].
Proof.
  intros Hne Ht Hf. unfold LyricsFacts.cleanParts. rewrite Ht.
  assert (isEmpty p = false) as Hp by (now apply isEmpty_false). rewrite Hp.
  unfold splitLyricLine. rewrite (splitLyricLineMax_fixed p _ Hf Ht).
  simpl. now rewrite Ht, Hp.
Qed.

Lemma join_nonempty (parts : list str) (p : str) :
  p <> [] -> join [10] (p :: parts) <> [].
Proof.
  intros Hp. destruct p; [contradiction|]. destruct parts; discriminate.
Qed.

(** X3.  The second pass does not wrap again: for every lyrics block, the
    [lyricLines] that [enrichSectionLyrics] computes from the normalized
    block are exactly the lines of that block (none when it is empty). *)
Theorem section_lines_are_block_lines (U : UnicodeTables) (raw : str) :
  let block := normalizeLyricBlock U raw in
  lyricLines (enrichSectionLyrics (Some block))
  = if isEmpty block then None else Some (split 10 block).
Proof.
  simpl. unfold normalizeLyricBlock.
  set (kept := dropBlankEnds _).
  assert (Forall (fun p => p <> [] /\ trim p = p /\ Forall LyricsBlankFacts.notNewline p
                           /\ fits MAX_LYRIC_LINE_LENGTH p)
            (flat_map (expandLine U) kept)) as Hall.
  { induction kept as [|l kept IH]; simpl; [constructor|].
    apply Forall_app. split; [apply expandLine_lines | exact IH]. }
  destruct kept as [|l kept']; [reflexivity|].
  set (parts := flat_map (expandLine U) (l :: kept')) in *.
  destruct parts as [|q parts'] eqn:Hparts; [reflexivity|].
  assert (q <> []) as Hq by (inversion Hall as [|? ? (Hq & _) _]; exact Hq).
  pose proof (join_nonempty parts' q Hq) as Hne.
  destruct (join [10] (q :: parts')) as [|c text] eqn:Hblock; [contradiction|].
  unfold enrichSectionLyrics. rewrite <- Hblock.
  rewrite LyricsBlankFacts.split_join.
  2: discriminate.
  2:{ eapply List.Forall_impl; [|exact Hall]. intros y (_ & _ & Hy & _). exact Hy. }
  assert (List.map stripEnds (q :: parts') = q :: parts') as ->.
  { clear - Hall. induction Hall as [|y ys (_ & Hy & _) _ IH]; [reflexivity|].
    simpl. now rewrite (LyricsBlankFacts.stripEnds_segment y Hy), IH. }
  pose proof (LyricsFacts.buildLyricSlides_result (q :: parts')) as Hres.
  unfold buildLyricSlides in *. destruct Hres as (Hstream & _). cbn [lyricLines].
  assert (LyricsFacts.wrappedLines (q :: parts') = q :: parts') as Hw.
  { clear - Hall. unfold LyricsFacts.wrappedLines.
    induction Hall as [|y ys (Hne & Hy & _ & Hf) _ IH]; [reflexivity|].
    simpl. now rewrite (cleanParts_fixed y Hne Hy Hf), IH. }
  rewrite Hstream, Hw, Hblock. reflexivity.
Qed.

End LyricsWrapFacts.

Module NotesFacts.
Import JS Unicode Regex Notes JSFacts LyricsWrapFacts.

(** A clean line: empty, or words joined by single spaces. *)
Definition cleanLine (l : str) : Prop := l = [] \/ spaced true l = true.

(** No empty line at the start ([prevBlank] set) and no two empty lines in a
    row. *)
Fixpoint tidy (prevBlank : bool) (lines : list str) : bool :=
  match lines with
  | [] => true
  | l :: r => if isEmpty l then negb prevBlank && tidy true r else tidy false r
  end.

(** The test of [keepLine] on the last line kept. *)
Definition lastBlank (prevBlank : bool) (filtered : list str) : bool :=
  match last filtered with
  | None => prevBlank
  | Some l => isEmpty l
  end.

Lemma lastBlank_cons (p : bool) (x : str) (f : list str) :
  lastBlank p (x :: f) = lastBlank (isEmpty x) f.
Proof.
  unfold lastBlank. destruct f as [|y f]; [reflexivity|].
  change (last (x :: y :: f)) with (last (y :: f)).
  destruct (last (y :: f)) eqn:E; [reflexivity|].
  apply last_None in E. discriminate.
Qed.

Lemma lastBlank_snoc (p : bool) (f : list str) (x : str) :
  lastBlank p (f ++ [x]) = isEmpty x.
Proof. unfold lastBlank. now rewrite last_snoc. Qed.

Lemma tidy_snoc (f : list str) (x : str) :
  forall p : bool,
    tidy p (f ++ [x]) = tidy p f && (negb (isEmpty x) || negb (lastBlank p f)).
Proof.
  induction f as [|y f IH]; intros p; simpl.
  - unfold lastBlank. simpl. destruct (isEmpty x), p; reflexivity.
  - rewrite lastBlank_cons. destruct (isEmpty y) eqn:Ey.
    + rewrite IH. now rewrite andb_assoc.
    + now rewrite IH.
Qed.

Lemma tidy_prefix (a b : list str) :
  forall p : bool, tidy p (a ++ b) = true -> tidy p a = true.
Proof.
  induction a as [|x a IH]; intros p H; simpl in *; [reflexivity|].
  destruct (isEmpty x).
  - apply andb_true_iff in H as [Hp H]. rewrite Hp. now apply IH.
  - now apply IH.
Qed.

Lemma keepLine_tidy (f : list str) (line : str) :
  tidy true f = true -> tidy true (keepLine f line) = true.
Proof.
  intros H. unfold keepLine. fold (lastBlank true f).
  destruct (isEmpty line && lastBlank true f) eqn:E; [exact H|].
  rewrite tidy_snoc, H. simpl.
  destruct (isEmpty line), (lastBlank true f); try reflexivity. discriminate.
Qed.

Lemma keepLine_clean (f : list str) (line : str) :
  cleanLine line -> Forall cleanLine f -> Forall cleanLine (keepLine f line).
Proof.
  intros Hl Hf. unfold keepLine.
  destruct (isEmpty line && _); [exact Hf|].
  apply Forall_app. split; [exact Hf | now constructor].
Qed.

Lemma kept_lines (lines : list str) :
  forall f : list str,
    Forall cleanLine lines -> Forall cleanLine f -> tidy true f = true ->
    Forall cleanLine (fold_left keepLine lines f)
    /\ tidy true (fold_left keepLine lines f) = true.
Proof.
  induction lines as [|l lines IH]; intros f Hl Hf Ht; simpl; [now split|].
  inversion Hl as [|? ? Hl1 Hl2]; subst.
  apply IH; [exact Hl2 | now apply keepLine_clean | now apply keepLine_tidy].
Qed.

(** Lines already tidy are all kept. *)
Lemma kept_all (lines : list str) :
  forall f : list str,
    tidy (lastBlank true f) lines = true -> fold_left keepLine lines f = f ++ lines.
Proof.
  induction lines as [|l lines IH]; intros f H; simpl in *; [now rewrite app_nil_r|].
  unfold keepLine at 2. fold (lastBlank true f).
  destruct (isEmpty l) eqn:El.
  - apply andb_true_iff in H as [Hp H]. apply negb_true_iff in Hp. rewrite Hp. simpl.
    rewrite IH; [now rewrite <- app_assoc|]. now rewrite lastBlank_snoc, El.
  - simpl. rewrite IH; [now rewrite <- app_assoc|]. now rewrite lastBlank_snoc, El.
Qed.

Lemma dropEmptyPrefix_spec (l : list str) :
  exists blank : list str,
    l = blank ++ dropEmptyPrefix l
    /\ match dropEmptyPrefix l with
       | [] => True
       | x :: _ => x <> []
       end.
Proof.
  induction l as [|x l (b & Hb & Hh)]; simpl.
  - exists []. now split.
  - destruct (isEmpty x) eqn:Ex.
    + exists (x :: b). split; [simpl; now rewrite <- Hb | exact Hh].
    + exists []. split; [reflexivity | now apply isEmpty_false].
Qed.

(** [popBlank] keeps a prefix that does not end with an empty line. *)
Lemma popBlank_spec (f : list str) :
  (exists blank : list str, f = popBlank f ++ blank)
  /\ match last (popBlank f) with
     | None => popBlank f = []
     | Some l => l <> []
     end.
Proof.
  unfold popBlank.
  destruct (dropEmptyPrefix_spec (rev f)) as (b & Hb & Hh).
  split.
  - exists (rev b). rewrite <- rev_app_distr, <- Hb. now rewrite rev_involutive.
  - destruct (dropEmptyPrefix (rev f)) as [|x t]; [reflexivity|].
    simpl. rewrite last_snoc. exact Hh.
Qed.

Lemma popBlank_fixed (f : list str) :
  match last f with None => True | Some l => l <> [] end -> popBlank f = f.
Proof.
  intros H. unfold popBlank.
  destruct f as [|y f0]; [reflexivity|].
  destruct (exists_last (l := y :: f0)) as (t & x & E); [discriminate|]. rewrite E in *.
  rewrite last_snoc in H. rewrite rev_app_distr. simpl.
  apply isEmpty_false in H. rewrite H. simpl. now rewrite rev_involutive.
Qed.

(** *** Text made of clean lines *)

(** The only white space of a clean line is the space. *)
Lemma spaced_units (s : str) :
  forall p : bool,
    spaced p s = true -> Forall (fun c => isWhite c = true -> c = 32) s.
Proof.
  induction s as [|c s IH]; intros p H; simpl in *; [constructor|].
  destruct (c =? 32) eqn:Hsp.
  - apply N.eqb_eq in Hsp. apply andb_true_iff in H as [_ H].
    constructor; [auto | now apply (IH true)].
  - apply andb_true_iff in H as [Hc H]. apply negb_true_iff in Hc.
    constructor; [congruence | now apply (IH false)].
Qed.

Lemma cleanLine_units (l : str) :
  cleanLine l -> Forall (fun c => isWhite c = true -> c = 32) l.
Proof. intros [->|H]; [constructor | now apply (spaced_units l true)]. Qed.

Lemma cleanLine_no_newline (l : str) :
  cleanLine l -> Forall LyricsBlankFacts.notNewline l.
Proof.
  intros H. eapply List.Forall_impl; [|apply (cleanLine_units l H)].
  intros c Hc ->. now specialize (Hc eq_refl).
Qed.

Lemma cleanLine_fixed (l : str) : cleanLine l -> trim (collapseWhite l) = l.
Proof.
  intros [->|H]; [reflexivity|]. unfold collapseWhite.
  rewrite (spaced_collapse l true false); [now apply spaced_trim | discriminate | exact H].
Qed.

(** Units that are spaces, newlines or not white space. *)
Definition plain (c : N) : Prop := isWhite c = true -> c = 32 \/ c = 10.

Lemma join_units (P : N -> Prop) (sep : str) (parts : list str) :
  Forall P sep -> Forall (Forall P) parts -> Forall P (join sep parts).
Proof.
  intros Hs H. induction H as [|p ps Hp Hps IH]; [constructor|].
  destruct ps as [|q ps]; [exact Hp|].
  change (join sep (p :: q :: ps)) with (p ++ sep ++ join sep (q :: ps)).
  apply Forall_app. split; [exact Hp|]. apply Forall_app. now split.
Qed.

Lemma replaceCarriageReturns_cons (c : N) (r : str) :
  c <> 13 ->
  Lyrics.replaceCarriageReturns (c :: r) = c :: Lyrics.replaceCarriageReturns r.
Proof.
  intros H. destruct c as [|p]; [reflexivity|].
  do 4 (try destruct p as [p|p|]; try reflexivity). contradiction.
Qed.

Lemma replaceCarriageReturns_fixed (s : str) :
  Forall (fun c => c <> 13) s -> Lyrics.replaceCarriageReturns s = s.
Proof.
  induction 1 as [|c s Hc _ IH]; [reflexivity|].
  rewrite replaceCarriageReturns_cons by exact Hc. now rewrite IH.
Qed.

Lemma replaceNoBreakSpaces_fixed (s : str) :
  Forall (fun c => c <> 160) s -> Lyrics.replaceNoBreakSpaces s = s.
Proof.
  unfold Lyrics.replaceNoBreakSpaces.
  induction 1 as [|c s Hc _ IH]; simpl; [reflexivity|].
  apply N.eqb_neq in Hc. now rewrite Hc, IH.
Qed.

Lemma plain_fixed (s : str) :
  Forall plain s ->
  Lyrics.replaceNoBreakSpaces (Lyrics.replaceCarriageReturns s) = s.
Proof.
  intros H. rewrite replaceCarriageReturns_fixed, replaceNoBreakSpaces_fixed; [reflexivity| |].
  - eapply List.Forall_impl; [|exact H]. intros c Hc ->. destruct (Hc eq_refl); discriminate.
  - eapply List.Forall_impl; [|exact H]. intros c Hc ->. destruct (Hc eq_refl); discriminate.
Qed.

(** A string that starts and ends with a unit that is not white space is
    trimmed. *)
Lemma trimEnd_fixed (t : str) (d : N) :
  isWhite d = false -> trimEnd (t ++ [d]) = t ++ [d].
Proof.
  intros Hd. unfold trimEnd. rewrite rev_app_distr.
  change (rev [d] ++ rev t) with (d :: rev t).
  rewrite trimStart_nonwhite by exact Hd.
  change (d :: rev t) with ([d] ++ rev t).
  now rewrite rev_app_distr, rev_involutive.
Qed.

Lemma trim_ends (s : str) :
  (exists c t, s = c :: t /\ isWhite c = false) ->
  (exists t d, s = t ++ [d] /\ isWhite d = false) ->
  trim s = s.
Proof.
  intros (c & t & E1 & Hc) (t' & d & E2 & Hd). unfold trim.
  assert (trimStart s = s) as -> by (rewrite E1; now apply trimStart_nonwhite).
  rewrite E2. now apply trimEnd_fixed.
Qed.

Lemma spaced_head (l : str) :
  spaced true l = true -> exists c t, l = c :: t /\ isWhite c = false.
Proof.
  destruct l as [|c t]; [discriminate|]. simpl.
  destruct (c =? 32); [discriminate|]. intros H.
  apply andb_true_iff in H as [Hc _]. apply negb_true_iff in Hc. eauto.
Qed.

Lemma spaced_last (l : str) :
  spaced true l = true -> exists t d, l = t ++ [d] /\ isWhite d = false.
Proof.
  intros H. pose proof (spaced_trim l H) as Ht.
  destruct (exists_last (l := l)) as (t & d & E); [destruct l; discriminate|]. subst l.
  exists t, d. split; [reflexivity | now apply (trimmed_last t d)].
Qed.

Lemma join_first (sep p : str) (ps : list str) :
  exists rest, join sep (p :: ps) = p ++ rest.
Proof.
  destruct ps; [exists []; simpl; now rewrite app_nil_r | eexists; reflexivity].
Qed.

Lemma join_last (sep : str) (ps : list str) (q : str) :
  exists front, join sep (ps ++ [q]) = front ++ q.
Proof.
  induction ps as [|p ps (front & IH)]; [now exists []|].
  exists (p ++ sep ++ front).
  change ((p :: ps) ++ [q]) with (p :: (ps ++ [q])).
  destruct (ps ++ [q]) as [|x t] eqn:E; [destruct ps; discriminate|].
  change (join sep (p :: x :: t)) with (p ++ sep ++ join sep (x :: t)).
  rewrite IH. now rewrite <- !app_assoc.
Qed.

(** Tidy clean lines that do not end with an empty line, joined, make a
    trimmed text. *)
Lemma joined_trimmed (lines : list str) :
  Forall cleanLine lines -> tidy true lines = true ->
  match last lines with None => True | Some l => l <> [] end ->
  trim (join [10] lines) = join [10] lines.
Proof.
  intros Hc Ht Hl.
  destruct lines as [|p ps]; [reflexivity|].
  apply trim_ends.
  - assert (spaced true p = true) as Hp.
    { inversion Hc as [|? ? [->|H] _]; subst; [discriminate | exact H]. }
    destruct (spaced_head p Hp) as (c & t & -> & Hcw).
    destruct (join_first [10] (c :: t) ps) as (f2 & E2).
    exists c, (t ++ f2). now rewrite E2.
  - destruct (exists_last (l := p :: ps)) as (front & q & E); [discriminate|].
    rewrite E in *. rewrite last_snoc in Hl.
    assert (spaced true q = true) as Hq.
    { apply Forall_app in Hc as [_ Hc]. inversion Hc as [|? ? [->|H] _]; subst;
        [contradiction | exact H]. }
    destruct (spaced_last q Hq) as (t' & d & -> & Hdw).
    destruct (join_last [10] front (t' ++ [d])) as (f1 & E1).
    exists (f1 ++ t'), d. now rewrite E1, app_assoc.
Qed.

(** The lines [normalizeWhitespace] joins. *)
Definition keptLines (input : str) : list str :=
  popBlank
    (fold_left keepLine
       (List.map (fun line => trim (collapseWhite line))
          (split 10 (Lyrics.replaceNoBreakSpaces (Lyrics.replaceCarriageReturns input))))
       []).

Lemma keptLines_spec (input : str) :
  Forall cleanLine (keptLines input)
  /\ tidy true (keptLines input) = true
  /\ match last (keptLines input) with
     | None => keptLines input = []
     | Some l => l <> []
     end.
Proof.
  unfold keptLines.
  set (normalized := List.map _ _).
  assert (Forall cleanLine normalized) as Hn.
  { unfold normalized. apply List.Forall_forall. intros l Hl.
    apply in_map_iff in Hl as (x & <- & _). apply collapsed_shape. }
  destruct (kept_lines normalized [] Hn (List.Forall_nil _) eq_refl) as [Hc Ht].
  set (filtered := fold_left keepLine normalized []) in *.
  destruct (popBlank_spec filtered) as [(blank & Hb) Hl].
  split; [|split; [|exact Hl]].
  - rewrite Hb in Hc. now apply Forall_app in Hc as [Hc _].
  - rewrite Hb in Ht. now apply tidy_prefix in Ht.
Qed.

Lemma normalizeWhitespace_joined (input : str) :
  normalizeWhitespace input = join [10] (keptLines input).
Proof.
  destruct (keptLines_spec input) as (Hc & Ht & Hl).
  unfold normalizeWhitespace. fold (keptLines input).
  apply joined_trimmed; [exact Hc | exact Ht|].
  destruct (last (keptLines input)); [exact Hl | exact I].
Qed.

Lemma normalized_lines (lines : list str) :
  Forall cleanLine lines -> tidy true lines = true ->
  match last lines with None => lines = [] | Some l => l <> [] end ->
  keptLines (join [10] lines) = lines.
Proof.
  intros Hc Ht Hl. unfold keptLines.
  destruct lines as [|p ps]; [reflexivity|].
  rewrite plain_fixed.
  2:{ apply join_units; [repeat constructor; now right|].
      eapply List.Forall_impl; [|exact Hc]. intros l H.
      eapply List.Forall_impl; [|apply (cleanLine_units l H)].
      intros c Hw Hc'. left. now apply Hw. }
  rewrite LyricsBlankFacts.split_join.
  2: discriminate.
  2:{ eapply List.Forall_impl; [|exact Hc]. apply cleanLine_no_newline. }
  assert (List.map (fun line => trim (collapseWhite line)) (p :: ps) = p :: ps) as ->.
  { clear - Hc. induction Hc as [|l ls Hl _ IH]; [reflexivity|].
    simpl. now rewrite (cleanLine_fixed l Hl), IH. }
  rewrite kept_all by exact Ht. simpl app.
  apply popBlank_fixed. destruct (last (p :: ps)); [exact Hl | exact I].
Qed.

(** X4.  [normalizeWhitespace] is idempotent: a text it returned is returned
    unchanged. *)
Theorem normalizeWhitespace_idempotent (input : str) :
  normalizeWhitespace (normalizeWhitespace input) = normalizeWhitespace input.
Proof.
  destruct (keptLines_spec input) as (Hc & Ht & Hl).
  rewrite (normalizeWhitespace_joined input).
  rewrite normalizeWhitespace_joined.
  now rewrite normalized_lines.
Qed.

(** X5.  What [extractNotes] returns for an item: the description and the
    notes, when present, are not empty, carry no white space at their ends,
    are left unchanged by [normalizeWhitespace], hold no white space but
    spaces and newlines, and have no empty line at their start nor two empty
    lines in a row. *)
Theorem extractNotes_clean (attrs : noteAttributes) :
  let clean (field : option str) :=
    match field with
    | None => True
    | Some text =>
        text <> [] /\ trim text = text /\ normalizeWhitespace text = text
        /\ Forall (fun c => isWhite c = true -> c = 32 \/ c = 10) text
        /\ tidy true (split 10 text) = true
    end in
  clean (fst (extractNotes attrs)) /\ clean (snd (extractNotes attrs)).
Proof.
  assert (forall raw : option str,
            match normalizedOrNone raw with
            | None => True
            | Some text =>
                text <> [] /\ trim text = text /\ normalizeWhitespace text = text
                /\ Forall (fun c => isWhite c = true -> c = 32 \/ c = 10) text
                /\ tidy true (split 10 text) = true
            end) as H.
  { intros [[|c r]|]; simpl; try exact I.
    destruct (normalizeWhitespace (c :: r)) as [|x t] eqn:E; [exact I|].
    rewrite <- E. split; [rewrite E; discriminate|].
    split; [unfold normalizeWhitespace; apply trim_idem|].
    split.
    { destruct (keptLines_spec (c :: r)) as (Hc & Ht & Hl).
      rewrite (normalizeWhitespace_joined (c :: r)).
      rewrite normalizeWhitespace_joined.
      now rewrite normalized_lines. }
    destruct (keptLines_spec (c :: r)) as (Hc & Ht & Hl).
    rewrite normalizeWhitespace_joined in *. split.
    - apply join_units; [repeat constructor; now right|].
      eapply List.Forall_impl; [|exact Hc]. intros l Hcl.
      eapply List.Forall_impl; [|apply (cleanLine_units l Hcl)].
      intros u Hw Hu. left. now apply Hw.
    - destruct (keptLines (c :: r)) as [|p ps] eqn:Ek; [discriminate|].
      rewrite LyricsBlankFacts.split_join; [exact Ht | discriminate|].
      eapply List.Forall_impl; [|exact Hc]. apply cleanLine_no_newline. }
  simpl. unfold extractNotes. simpl. split; apply H.
Qed.

End NotesFacts.

Module CategoryFacts.
Import JS Unicode Regex Plan JSFacts.

Ltac member :=
  cbn [In Classify.isSong Classify.isVideo orb List.map Classify.label];
  repeat (first [left; reflexivity | right]).

(** X6.  [classifyPlanItem] files an item by its kind only after the
    pre-service and post-service patterns: a song is filed under Pre Service,
    Post Service or Song, a video under one of these or Videos; and Message
    is given only to an announcement whose title holds one of the message
    patterns, so the closing default never yields Message. *)
Theorem classifyPlanItem_by_kind (U : UnicodeTables) (title : str) (isHeader : bool) :
  In (Classify.classifyPlanItem U song title isHeader) [PreService; PostService; Song]
  /\ In (Classify.classifyPlanItem U video title isHeader)
       [PreService; PostService; Song; Videos]
  /\ forall k : kind,
       Classify.classifyPlanItem U k title isHeader = Message ->
       k = announcement
       /\ Classify.containsAny (toLowerCase U (trim title)) Classify.messagePatterns = true.
Proof.
  unfold Classify.classifyPlanItem.
  set (n := toLowerCase U (trim title)).
  destruct (isHeader && test (Classify.joined "pre" "service") n);
    [split; [member | split; [member | discriminate]]|].
  destruct (isHeader && test (Classify.joined "post" "service") n);
    [split; [member | split; [member | discriminate]]|].
  destruct (Classify.containsAny n Classify.preServicePatterns);
    [split; [member | split; [member | discriminate]]|].
  destruct (_ || _ || _ || _ || _); [split; [member | split; [member | discriminate]]|].
  split; [member|]. split.
  - cbn [Classify.isSong Classify.isVideo orb].
    destruct (Classify.containsAny n Classify.songPatterns); member.
  - intros k.
    destruct (Classify.isSong k || _) eqn:Es; [discriminate|].
    destruct (Classify.isVideo k || _) eqn:Ev; [discriminate|].
    apply orb_false_iff in Es as [Es _]. apply orb_false_iff in Ev as [Ev _].
    assert (k = announcement) as -> by (destruct k; [discriminate | discriminate | reflexivity]).
    destruct (Classify.containsAny n Classify.messagePatterns); [now split|].
    destruct (Classify.containsAny n Classify.transitionPatterns); discriminate.
Qed.

Definition labels : list str :=
  List.map Classify.label [Song; Message; Transitions; Videos; PreService; PostService].

Lemma titleCascade_label (U : UnicodeTables) (title : str) (header : bool) (k : kind) :
  match Category.titleCascade U title header k with
  | Some l => In l labels
  | None => header = true
  end.
Proof.
  unfold Category.titleCascade.
  repeat match goal with
         | |- context [if ?c then Some _ else _] =>
             destruct c; [unfold labels; member|]
         end.
  destruct header; [reflexivity|]. destruct k; unfold labels; member.
Qed.

(** The cascade of the orchestrator's model is this one. *)
Lemma resolvePlanItemCategory_model (U : UnicodeTables) (c : Orchestrator.collaborators)
  (item : Orchestrator.PlanItem) :
  Orchestrator.titleCategory c item
  = Category.titleCascade U (trim (Orchestrator.title item))
      (Orchestrator.isHeader item) (Orchestrator.kind item) ->
  Orchestrator.resolvePlanItemCategory c item = Category.resolvePlanItemCategory U item.
Proof.
  intros H. unfold Orchestrator.resolvePlanItemCategory, Category.resolvePlanItemCategory.
  destruct (trim (Orchestrator.strOrEmpty (Orchestrator.category item))); [|reflexivity].
  rewrite H. destruct (trim (Orchestrator.title item)) eqn:E; [reflexivity|].
  reflexivity.
Qed.

(** X7.  The category the orchestrator works with: the [category] the plan
    carries, trimmed, whenever it is not blank (so every category
    [classifyPlanItem] assigned is taken as it is); otherwise one of the six
    labels read off the title; and none only for an item without title or a
    header whose title holds no pattern. *)
Theorem resolvePlanItemCategory_label (U : UnicodeTables) (item : Orchestrator.PlanItem) :
  match Category.resolvePlanItemCategory U item with
  | Some l =>
      l <> []
      /\ (l = trim (Orchestrator.strOrEmpty (Orchestrator.category item))
          \/ (trim (Orchestrator.strOrEmpty (Orchestrator.category item)) = []
              /\ In l labels))
  | None =>
      trim (Orchestrator.strOrEmpty (Orchestrator.category item)) = []
      /\ (trim (Orchestrator.title item) = [] \/ Orchestrator.isHeader item = true)
  end
  /\ forall c : category,
       Orchestrator.category item = Some (Classify.label c) ->
       Category.resolvePlanItemCategory U item = Some (Classify.label c).
Proof.
  split.
  - unfold Category.resolvePlanItemCategory.
    destruct (trim (Orchestrator.strOrEmpty (Orchestrator.category item))) as [|x r].
    + destruct (trim (Orchestrator.title item)) as [|y t]; [now split; [|left]|].
      pose proof (titleCascade_label U (y :: t) (Orchestrator.isHeader item)
                    (Orchestrator.kind item)) as H.
      destruct (Category.titleCascade U (y :: t) _ _) as [l|].
      * split; [|now right].
        simpl in H. intuition (subst; discriminate).
      * split; [reflexivity | now right].
    + split; [discriminate | now left].
  - intros c Hc. unfold Category.resolvePlanItemCategory. rewrite Hc.
    destruct c; reflexivity.
Qed.

End CategoryFacts.

Module ConnectionFacts.
Import JS Unicode Connection JSFacts.

Section Probe.

Variable Info : Type.
Variable send : str -> option (answer Info).
Variable finalElapsed : Z.

(** The host answers the path with a 2xx status. *)
Definition accepts (p : str) : bool :=
  match send p with
  | Some a => Playlist.is2xx (statusCode Info a)
  | None => false
  end.

(** The host answers the path at all. *)
Definition answers (p : str) : bool :=
  match send p with Some _ => true | None => false end.

(** The paths up to and including the first one the host accepts. *)
Fixpoint upToAccepted (remaining : list str) : list str :=
  match remaining with
  | [] => []
  | p :: rest => if accepts p then [p] else p :: upToAccepted rest
  end.

Lemma tryPath_sent (remaining : list str) :
  snd (tryPath Info send finalElapsed remaining) = upToAccepted remaining.
Proof.
  induction remaining as [|p rest IH]; simpl; [reflexivity|].
  unfold accepts. destruct (send p) as [a|].
  - destruct (Playlist.is2xx (statusCode Info a)); [reflexivity|].
    destruct (tryPath Info send finalElapsed rest). simpl in *. now rewrite IH.
  - destruct (tryPath Info send finalElapsed rest). simpl in *. now rewrite IH.
Qed.

Lemma tryPath_result (remaining : list str) :
  let r := fst (tryPath Info send finalElapsed remaining) in
  match find accepts remaining with
  | Some p =>
      reachable Info r = true /\ authenticated Info r = true
      /\ pathTried Info r = Some p
      /\ exists a, send p = Some a /\ status Info r = Some (statusCode Info a)
                   /\ info Info r = body Info a /\ latencyMs Info r = Some (elapsed Info a)
  | None =>
      authenticated Info r = false
      /\ match last (List.filter answers remaining) with
         | Some p =>
             reachable Info r = true /\ pathTried Info r = Some p
             /\ exists a, send p = Some a /\ status Info r = Some (statusCode Info a)
                          /\ info Info r = body Info a
                          /\ latencyMs Info r = Some (elapsed Info a)
         | None =>
             reachable Info r = false /\ pathTried Info r = None
             /\ error Info r = Some (lit "no_http_response")
         end
  end.
Proof.
  induction remaining as [|p rest IH]; simpl; [auto|].
  unfold accepts at 1, answers at 1.
  destruct (send p) as [a|] eqn:Ea.
  - destruct (Playlist.is2xx (statusCode Info a)) eqn:E2.
    + simpl. repeat split; eauto.
    + simpl in IH. destruct (tryPath Info send finalElapsed rest) as [next sent]. simpl in *.
      destruct (find accepts rest) as [q|].
      * destruct IH as (Hr & IH). rewrite Hr. auto.
      * destruct IH as (Ha & IH).
        destruct (List.filter answers rest) as [|x f] eqn:Ef.
        -- simpl in IH. destruct IH as (Hr & _). rewrite Hr. simpl.
           repeat split; eauto.
        -- change (last (p :: x :: f)) with (last (x :: f)).
           destruct (last (x :: f)) as [q|] eqn:El; [|apply last_None in El; discriminate].
           destruct IH as (Hr & IH). rewrite Hr. auto.
  - simpl in IH. destruct (tryPath Info send finalElapsed rest) as [next sent]. simpl in *.
    exact IH.
Qed.

(** X8.  [testConnection] asks the candidate paths in order and stops at the
    first one the host answers with a 2xx status, which it reports as
    reachable and authenticated.  When no path is accepted it has asked them
    all and reports the last path that was answered at all, reachable but not
    authenticated; when none was answered, [no_http_response].  Without host
    or port nothing is asked. *)
Theorem testConnection_report (cfg : PPConfig) :
  let '(r, sent) := testConnection Info send finalElapsed cfg in
  if isEmpty (host cfg) || (port cfg =? 0)%Z then
    sent = [] /\ reachable Info r = false /\ error Info r = Some (lit "Missing host/port")
  else
    sent = upToAccepted (paths cfg)
    /\ match find accepts (paths cfg) with
       | Some p =>
           reachable Info r = true /\ authenticated Info r = true
           /\ pathTried Info r = Some p
       | None =>
           sent = paths cfg /\ authenticated Info r = false
           /\ match last (List.filter answers (paths cfg)) with
              | Some p => reachable Info r = true /\ pathTried Info r = Some p
              | None =>
                  reachable Info r = false
                  /\ error Info r = Some (lit "no_http_response")
              end
       end.
Proof.
  unfold testConnection.
  destruct (isEmpty (host cfg) || (port cfg =? 0)%Z); [auto|].
  pose proof (tryPath_sent (paths cfg)) as Hs.
  pose proof (tryPath_result (paths cfg)) as Hr. simpl in Hr.
  destruct (tryPath Info send finalElapsed (paths cfg)) as [r sent]. simpl in *.
  split; [exact Hs|].
  destruct (find accepts (paths cfg)) as [p|] eqn:Ef.
  - destruct Hr as (H1 & H2 & H3 & _). auto.
  - destruct Hr as (H1 & Hr). split; [|split; [exact H1|]].
    + rewrite Hs. clear - Ef. induction (paths cfg) as [|p rest IH]; [reflexivity|].
      simpl in *. destruct (accepts p); [discriminate|]. now rewrite IH.
    + destruct (last (List.filter answers (paths cfg))).
      * destruct Hr as (H2 & H3 & _). auto.
      * destruct Hr as (H2 & _ & H3). auto.
Qed.

End Probe.

End ConnectionFacts.

Module MatchingFacts.
Import JS Unicode Matching JSFacts.

Lemma eqb_trans_false (a b c : str) : eqb a b = false -> eqb b c = true -> eqb a c = false.
Proof.
  intros H1 H2. apply eqb_eq in H2. subst c. exact H1.
Qed.

Lemma lookup_push (byNorm : index) (key : str) (e : candidate) (norm : str) :
  lookup (push byNorm key e) norm
  = if eqb key norm then lookup byNorm norm ++ [e] else lookup byNorm norm.
Proof.
  induction byNorm as [|[k arr] rest IH]; simpl.
  - destruct (eqb key norm); reflexivity.
  - destruct (eqb k key) eqn:Ek; simpl.
    + apply eqb_eq in Ek. subst k. destruct (eqb key norm); reflexivity.
    + destruct (eqb k norm) eqn:En; [|exact IH].
      destruct (eqb key norm) eqn:Ekn; [|reflexivity].
      apply eqb_eq in En, Ekn. subst. rewrite eqb_refl in Ek. discriminate.
Qed.

(** The entries of one normalized name, in the order of the visit. *)
Definition sameName (U : UnicodeTables) (norm : str) (named : list candidate)
  : list candidate :=
  List.filter (fun e => eqb (Title.normalizeTitle U (name e)) norm) named.

Lemma lookup_fold (U : UnicodeTables) (named : list candidate) (norm : str) :
  forall byNorm : index,
    lookup (fold_left (fun m e => push m (Title.normalizeTitle U (name e)) e) named byNorm)
      norm
    = lookup byNorm norm ++ sameName U norm named.
Proof.
  induction named as [|e named IH]; intros byNorm; simpl; [now rewrite app_nil_r|].
  rewrite IH, lookup_push.
  destruct (eqb (Title.normalizeTitle U (name e)) norm); [|reflexivity].
  now rewrite <- app_assoc.
Qed.

Lemma lookup_buildIndex (U : UnicodeTables) (named : list candidate) (norm : str) :
  lookup (buildIndex U named) norm = sameName U norm named.
Proof. unfold buildIndex. now rewrite lookup_fold. Qed.

(** Every entry of the index is one of the named nodes. *)
Definition within (named : list candidate) (byNorm : index) : Prop :=
  Forall (fun group => Forall (fun e => In e named) (snd group)) byNorm.

Lemma push_within (named : list candidate) (byNorm : index) (key : str) (e : candidate) :
  In e named -> within named byNorm -> within named (push byNorm key e).
Proof.
  intros He H. induction H as [|[k arr] rest Hg Hrest IH]; simpl.
  - repeat constructor. exact He.
  - destruct (eqb k key).
    + constructor; [|assumption]. simpl in *.
      apply Forall_app. split; [exact Hg | now constructor].
    + now constructor.
Qed.

Lemma buildIndex_within (U : UnicodeTables) (named : list candidate) :
  within named (buildIndex U named).
Proof.
  unfold buildIndex.
  assert (forall (l : list candidate) (m : index),
            (forall e, In e l -> In e named) -> within named m ->
            within named
              (fold_left (fun m e => push m (Title.normalizeTitle U (name e)) e) l m)) as H.
  { induction l as [|e l IH]; intros m Hl Hm; simpl; [exact Hm|].
    apply IH; [intros x Hx; apply Hl; now right|].
    apply push_within; [apply Hl; now left | exact Hm]. }
  apply H; [auto | constructor].
Qed.

(** A candidate offered for a title without exact match: a named node whose
    normalized name holds every word of the normalized title. *)
Definition offered (U : UnicodeTables) (named : list candidate) (parts : list str)
  (p : candidate) : Prop :=
  In p named
  /\ Forall (fun w => includes (Title.normalizeTitle U (name p)) w = true) parts.

Lemma scanArray_offered (U : UnicodeTables) (named : list candidate) (parts : list str)
  (arr : list candidate) :
  Forall (fun e => In e named) arr ->
  forall found : list candidate,
    (length found < 5)%nat -> Forall (offered U named parts) found ->
    (length (scanArray U parts arr found) <= 5)%nat
    /\ Forall (offered U named parts) (scanArray U parts arr found).
Proof.
  induction 1 as [|p rest Hp _ IH]; intros found Hlen Hf; cbn [scanArray];
    [split; [lia | exact Hf]|].
  destruct (forallb _ parts) eqn:Eall; [|now apply IH].
  assert (Forall (offered U named parts) (found ++ [p])) as Hf'.
  { apply Forall_app. split; [exact Hf|]. constructor; [|constructor].
    split; [exact Hp|]. apply List.Forall_forall. intros w Hw.
    rewrite forallb_forall in Eall. now apply Eall. }
  destruct (5 <=? length (found ++ [p]))%nat eqn:E5.
  - split; [|exact Hf']. rewrite length_app in *. simpl in *. lia.
  - apply IH; [|exact Hf']. apply Nat.leb_gt in E5. lia.
Qed.

Lemma scanIndex_offered (U : UnicodeTables) (named : list candidate) (parts : list str)
  (byNorm : index) :
  within named byNorm ->
  forall found : list candidate,
    (length found < 5)%nat -> Forall (offered U named parts) found ->
    (length (scanIndex U parts byNorm found) <= 5)%nat
    /\ Forall (offered U named parts) (scanIndex U parts byNorm found).
Proof.
  induction 1 as [|[k arr] rest Hg _ IH]; intros found Hlen Hf; cbn [scanIndex];
    [split; [lia | exact Hf]|].
  destruct (scanArray_offered U named parts arr Hg found Hlen Hf) as [H5 Hoff].
  destruct (5 <=? length (scanArray U parts arr found))%nat eqn:E5; [now split|].
  apply IH; [|exact Hoff]. apply Nat.leb_gt in E5. lia.
Qed.

Lemma push_count (byNorm : index) (key : str) (e : candidate) :
  forall n : nat,
    fold_left (fun n group => (n + length (snd group))%nat) (push byNorm key e) n
    = S (fold_left (fun n group => (n + length (snd group))%nat) byNorm n).
Proof.
  induction byNorm as [|[k arr] rest IH]; intros n; simpl; [lia|].
  destruct (eqb k key); simpl.
  - rewrite length_app. simpl. 
    assert (forall l a, fold_left (fun n (group : str * list candidate) => (n + length (snd group))%nat) l (S a)
                        = S (fold_left (fun n group => (n + length (snd group))%nat) l a)) as Hs.
    { induction l as [|g l IHl]; intros a; simpl; [reflexivity | apply IHl]. }
    replace (n + (length arr + 1))%nat with (S (n + length arr)) by lia. apply Hs.
  - apply IH.
Qed.

Lemma buildIndex_count (U : UnicodeTables) (named : list candidate) :
  allNamesCount (buildIndex U named) = length named.
Proof.
  unfold allNamesCount, buildIndex.
  assert (forall (l : list candidate) (m : index),
            fold_left (fun n group => (n + length (snd group))%nat)
              (fold_left (fun m e => push m (Title.normalizeTitle U (name e)) e) l m) 0%nat
            = (fold_left (fun n group => (n + length (snd group))%nat) m 0 + length l)%nat)
    as H.
  { induction l as [|e l IH]; intros m; simpl; [lia|].
    rewrite IH, push_count. lia. }
  now rewrite H.
Qed.

(** X9.  [matchPresentations] matches a title exactly when some named node
    of the libraries has the same normalized title; the uuid it gives is that
    of the first such node visited, and the candidates are all of them.
    Without exact match it offers at most five candidates, each a named node
    whose normalized name holds every word of the normalized title.  The
    count of names in the statistics is the number of named nodes. *)
Theorem matchTitle_exact (U : UnicodeTables) (named : list candidate) (t : str) :
  let r := matchTitle U (buildIndex U named) t in
  let norm := Title.normalizeTitle U t in
  match List.filter (fun e => eqb (Title.normalizeTitle U (name e)) norm) named with
  | first :: others =>
      matched r = true /\ match_uuid r = Some (uuid first)
      /\ candidates r = Some (first :: others)
  | [] =>
      matched r = false /\ match_uuid r = None
      /\ match candidates r with
         | None => True
         | Some found =>
             found <> [] /\ (length found <= 5)%nat
             /\ Forall (fun p =>
                          In p named
                          /\ Forall (fun w =>
                                       includes (Title.normalizeTitle U (name p)) w = true)
                               (List.filter (fun w => negb (isEmpty w)) (split 32 norm)))
                  found
         end
  end
  /\ allNamesCount (buildIndex U named) = length named.
Proof.
  simpl. split; [|apply buildIndex_count].
  unfold matchTitle. rewrite lookup_buildIndex. unfold sameName.
  destruct (List.filter _ named) as [|first others]; [|auto].
  simpl. split; [reflexivity | split; [reflexivity|]].
  set (parts := List.filter _ (split 32 _)).
  destruct (scanIndex_offered U named parts (buildIndex U named)
              (buildIndex_within U named) [] ltac:(simpl; lia) (List.Forall_nil _))
    as [H5 Hoff].
  destruct (scanIndex U parts (buildIndex U named) []) as [|c cs]; [exact I|].
  simpl. split; [discriminate | split; [exact H5 | exact Hoff]].
Qed.

End MatchingFacts.

Module PlaylistRunFacts.
Import JS Unicode Playlist JSFacts PlaylistFacts.

(** The playlist a run works on: the one found, or the one the host creates. *)
Definition resolvedPlaylist (h : hostAnswers) : option str :=
  match nonEmpty (foundPlaylist h) with
  | Some pl => Some pl
  | None => if is2xx (createStatus h) then nonEmpty (createId h) else None
  end.

(** X10.  What a playlist synchronization sends and reports.  Without host
    or port it sends nothing.  Otherwise it sends the creating POST exactly
    when no playlist of that name is found, and then, when a playlist is
    there and its sequence differs from the desired one, one PUT of the
    desired items to that playlist, as its last request.  It reports [ok]
    exactly when a playlist is there and the sequences are equal or the PUT
    is answered 2xx, an error in every other case, and [created] only after
    the POST. *)
Theorem syncPlaylist_requests (U : UnicodeTables) (p : payload) (h : hostAnswers) :
  let '(result, sent) := syncPlaylist U p h in
  let desired := buildDesired U (refsByNorm h) 0 (desiredSource p) in
  let equal := refsEqual (comparedCurrent U h) (comparedDesired U p h) in
  let post :=
    match nonEmpty (foundPlaylist h) with
    | Some _ => []
    | None => [PostCreate (name p)]
    end in
  (if isEmpty (host p) || (port p =? 0)%Z then
     sent = [] /\ ok result = false /\ error result = Some MissingHostPort
   else
     match resolvedPlaylist h with
     | None =>
         sent = post /\ ok result = false /\ error result = Some NoPlaylist
     | Some pl =>
         playlistId result = Some pl
         /\ created result = Some (match nonEmpty (foundPlaylist h) with
                                   | Some _ => false
                                   | None => true
                                   end)
         /\ if equal then sent = post /\ ok result = true /\ changed result = false
            else sent = post ++ [PutReplace pl desired]
                 /\ ok result = is2xx (putStatus h)
                 /\ changed result = is2xx (putStatus h)
                 /\ (is2xx (putStatus h) = false ->
                     error result = Some (PutStatus (putStatus h)))
     end)
  /\ (ok result = true <-> error result = None).
Proof.
  unfold syncPlaylist, resolvedPlaylist, comparedCurrent, comparedDesired.
  destruct (isEmpty (host p) || (port p =? 0)%Z).
  { simpl. repeat split; discriminate. }
  destruct (nonEmpty (foundPlaylist h)) as [pl|].
  - destruct (refsEqual _ _).
    + simpl. repeat split; auto.
    + destruct (is2xx (putStatus h)); simpl; repeat split; auto; discriminate.
  - destruct (is2xx (createStatus h)).
    + destruct (nonEmpty (createId h)) as [pl|].
      * destruct (refsEqual _ _).
        -- simpl. repeat split; auto.
        -- destruct (is2xx (putStatus h)); simpl; repeat split; auto; discriminate.
      * simpl. repeat split; discriminate.
    + simpl. repeat split; discriminate.
Qed.

End PlaylistRunFacts.

Module WriteFacts.
Import JS Unicode Orchestrator SummaryFacts RunFacts JSFacts.

(** The text written as operator notes: the description of the item, or its
    notes when the description is blank. *)
Definition descOf (item : PlanItem) : str :=
  let descOverride := trim (strOrEmpty (description item)) in
  if isEmpty descOverride then trim (strOrEmpty (notes item)) else descOverride.

Section Items.

Variable U : UnicodeTables.
Variable p : PresentationSyncPayload.
Variable c : collaborators.
Variable matches : str -> option str.
Variable entries : list (str * indexEntry).

(** The item may be written to [file]: it is no header, passes the filters
    of the run, has a title, a matched presentation, a text to write, and
    [file] is what the library index gives for it. *)
Definition writable (item : PlanItem) (file : str) : Prop :=
  isHeader item = false
  /\ idExcluded (idFilterOf p) (trim (id item)) = false
  /\ trim (title item) <> []
  /\ categoryExcluded U (categoryFilterOf U p) (resolvePlanItemCategory c item) = false
  /\ strOrEmpty (matches (trim (title item))) <> []
  /\ descOf item <> []
  /\ findHit U c entries (strOrEmpty (matches (trim (title item)))) (trim (title item))
     = Some file.

(** A call of the loop is for the item at its position. *)
Definition targets (i : nat) (item : PlanItem) (ev : event) : Prop :=
  match ev with
  | SongRewrite k file =>
      k = i /\ writable item file
      /\ isLabel (resolvePlanItemCategory c item) "Song" = true
      /\ songSectionCount item <> 0%nat
  | TransitionRewrite k file =>
      k = i /\ writable item file
      /\ isLabel (resolvePlanItemCategory c item) "Transitions" = true
  | NotesWrite k file text =>
      k = i /\ writable item file /\ text = descOf item
  | _ => False
  end.

Ltac loop_steps :=
  unfold songStep, transitionStep, notesStep, bind, ret, call, modifySummary,
    tryCatch, setCategory, pushMissing; simpl.

Ltac no_call := exists []; split; [now rewrite app_nil_r | constructor].

Lemma processItem_targets (i : nat) (item : PlanItem) (st : runState) :
  exists added,
    calls (snd (processItem U p c matches entries i item st)) = calls st ++ added
    /\ Forall (targets i item) added.
Proof.
  unfold processItem.
  destruct (isHeader item) eqn:Hh; [no_call|].
  destruct (idExcluded _ _) eqn:Hid; [no_call|].
  destruct (isEmpty (trim (title item))) eqn:Ht; [no_call|].
  destruct (categoryExcluded _ _ _) eqn:Hc; [no_call|].
  destruct (isEmpty (strOrEmpty _)) eqn:Hu; [no_call|].
  destruct (isEmpty (if isEmpty _ then _ else _)) eqn:Hd; [no_call|].
  destruct (findHit _ _ _ _ _) as [file|] eqn:Hf; [|no_call].
  assert (writable item file) as Hw.
  { unfold writable, descOf. rewrite Hh, Hid, Hc, Hf.
    apply isEmpty_false in Ht. apply isEmpty_false in Hu. apply isEmpty_false in Hd.
    repeat split; auto. }
  assert (targets i item (NotesWrite i file (descOf item))) as Hnotes.
  { simpl. auto. }
  assert (isLabel (resolvePlanItemCategory c item) "Song" = true ->
          (songSectionCount item =? 0)%nat = false ->
          targets i item (SongRewrite i file)) as Hsong.
  { intros Hs Hn. apply Nat.eqb_neq in Hn. simpl. auto. }
  assert (isLabel (resolvePlanItemCategory c item) "Transitions" = true ->
          targets i item (TransitionRewrite i file)) as Htrans.
  { intros Hs. simpl. auto. }
  clear Hw Hc Hf Hh Hid Ht Hu Hd.
  unfold songStep, transitionStep, notesStep.
  destruct (isLabel (resolvePlanItemCategory c item) "Song") eqn:Hs.
  - specialize (Hsong eq_refl).
    destruct (songSectionCount item =? 0)%nat eqn:Hn;
      [|specialize (Hsong eq_refl); destruct (applySongTemplate c i) as [[|]|e]];
      destruct (writeOperatorNotesFile c i) as [[|]|e'];
      destruct (resolvePlanItemCategory c item);
      loop_steps; eexists;
      (split; [rewrite <- ?app_assoc; simpl;
               first [reflexivity | symmetry; apply app_nil_r]|]);
      repeat (apply List.Forall_cons; [first [exact Hnotes | exact Hsong]|]);
      apply List.Forall_nil.
  - destruct (isLabel (resolvePlanItemCategory c item) "Transitions") eqn:Htr.
    + specialize (Htrans eq_refl).
      destruct (applyTransitionTemplate c i) as [[|]|e];
        destruct (writeOperatorNotesFile c i) as [[|]|e'];
        destruct (resolvePlanItemCategory c item);
        loop_steps; eexists;
        (split; [rewrite <- ?app_assoc; simpl;
                 first [reflexivity | symmetry; apply app_nil_r]|]);
        repeat (apply List.Forall_cons; [first [exact Hnotes | exact Htrans]|]);
        apply List.Forall_nil.
    + destruct (writeOperatorNotesFile c i) as [[|]|e'];
        destruct (resolvePlanItemCategory c item);
        loop_steps; eexists;
        (split; [rewrite <- ?app_assoc; simpl;
                 first [reflexivity | symmetry; apply app_nil_r]|]);
        repeat (apply List.Forall_cons; [exact Hnotes|]);
        apply List.Forall_nil.
Qed.

(** A call of the loop is for an item of the plan, at its position. *)
Definition targetsPlan (items : list PlanItem) (ev : event) : Prop :=
  isLoopCall ev = true ->
  exists (i : nat) (item : PlanItem), nth_error items i = Some item /\ targets i item ev.

Lemma forEach_targets (items : list PlanItem) :
  forall (done : list PlanItem) (st : runState),
  exists added,
    calls (snd (forEach (processItem U p c matches entries) (length done) items st))
    = calls st ++ added
    /\ Forall (targetsPlan (done ++ items)) added.
Proof.
  induction items as [|item items IH]; intros done st; simpl.
  - exists []. split; [now rewrite app_nil_r | constructor].
  - unfold bind.
    destruct (processItem_targets (length done) item st) as (a1 & H1 & F1).
    assert (Forall (targetsPlan (done ++ item :: items)) a1) as F1'.
    { eapply List.Forall_impl; [|exact F1]. intros ev Hev _.
      exists (length done), item. split; [|exact Hev].
      rewrite nth_error_app2 by lia. now rewrite Nat.sub_diag. }
    destruct (processItem U p c matches entries (length done) item st)
      as [[[]|e] st1]; simpl in *.
    + specialize (IH (done ++ [item]) st1).
      rewrite length_app in IH. simpl in IH. rewrite Nat.add_1_r in IH.
      destruct IH as (a2 & H2 & F2). rewrite <- app_assoc in F2. simpl in F2.
      exists (a1 ++ a2). split; [now rewrite H2, H1, app_assoc | now apply Forall_app].
    + exists a1. split; [exact H1 | exact F1'].
Qed.

End Items.

(** X11.  What a run writes.  Every rewrite and every notes write of a run
    is for an item of the fetched plan that is no header, passes the id and
    category filters, has a title, a matched presentation and a description
    or notes; it goes to the file the library index gives for that item; the
    notes written are the trimmed description, or the trimmed notes when the
    description is blank.  Songs alone get the song rewrite, transitions
    alone the transition rewrite.  A run that does not get a plan and an
    index writes nothing. *)
Theorem writes_are_for_plan_items (U : UnicodeTables) (p : PresentationSyncPayload)
  (c : collaborators) :
  match loopInputs c with
  | Some (pl, matches, entries) =>
      Forall (targetsPlan U p c matches entries (items pl))
        (snd (runPresentationSync U p c))
  | None =>
      Forall (fun ev => isLoopCall ev = false) (snd (runPresentationSync U p c))
  end.
Proof.
  assert (forall (items : list PlanItem) matches entries (evs : list event),
            Forall (fun ev => isLoopCall ev = false) evs ->
            Forall (targetsPlan U p c matches entries items) evs) as Hnone.
  { intros items matches entries evs H. eapply List.Forall_impl; [|exact H].
    intros ev Hev Hl. congruence. }
  unfold runPresentationSync, loopInputs.
  destruct (isEmpty (host p) || (port p =? 0)%Z).
  { destruct (pcoGetNextPlan c) as [next|]; [|constructor].
    destruct (matchPresentations c); [|constructor].
    destruct (indexPresentationsUuid c) as [indexRes|]; [|constructor].
    destruct (if fetch_ok next then fetch_plan next else None); [|constructor].
    destruct (if index_ok indexRes then index_map indexRes else None); constructor. }
  destruct (isEmpty (libraryRoot p)).
  { destruct (pcoGetNextPlan c) as [next|]; [|constructor].
    destruct (matchPresentations c); [|constructor].
    destruct (indexPresentationsUuid c) as [indexRes|]; [|constructor].
    destruct (if fetch_ok next then fetch_plan next else None); [|constructor].
    destruct (if index_ok indexRes then index_map indexRes else None); constructor. }
  unfold syncBody, closeHost, mutationLoop, relaunch, finish, tryFinally,
    setReopenOutcome, bind, call, ret.
  destruct (pcoGetNextPlan c) as [next|e]; simpl; [|repeat constructor].
  destruct (if fetch_ok next then fetch_plan next else None) as [pl|]; simpl.
  2:{ destruct (matchPresentations c); [|repeat constructor].
      destruct (indexPresentationsUuid c); repeat constructor. }
  destruct (matchPresentations c) as [matches|e]; simpl; [|repeat constructor].
  destruct (ensureTransitionTimer c) as [timer|e]; simpl.
  2:{ destruct (indexPresentationsUuid c) as [indexRes|]; [|repeat constructor].
      destruct (if index_ok indexRes then index_map indexRes else None);
        [apply Hnone|]; repeat constructor. }
  destruct (ensureStageLayout c) as [layout|e]; simpl.
  2:{ destruct (indexPresentationsUuid c) as [indexRes|]; [|repeat constructor].
      destruct (if index_ok indexRes then index_map indexRes else None);
        [apply Hnone|]; repeat constructor. }
  destruct (indexPresentationsUuid c) as [indexRes|e]; simpl; [|repeat constructor].
  destruct (if index_ok indexRes then index_map indexRes else None) as [entries|];
    simpl; [|repeat constructor].
  destruct (getMediaPlaylistItems c) as [media|e]; simpl;
    [|apply Hnone; repeat constructor].
  destruct (fetchPropIdentifier c) as [prop|e]; simpl;
    [|apply Hnone; repeat constructor].
  destruct (shouldReopen p c).
  - destruct (quitProPresenter c) as [quitRes|e]; simpl;
      [|apply Hnone; repeat constructor].
    destruct (step_ok quitRes); simpl; [|apply Hnone; repeat constructor].
    match goal with
    | |- context [forEach _ 0 (items pl) ?st0] =>
        destruct (forEach_targets U p c matches entries (items pl) [] st0)
          as (added & Hc & Hf);
        simpl in Hc;
        destruct (forEach (processItem U p c matches entries) 0 (items pl) st0) as [o st']
    end.
    simpl in Hc, Hf.
    destruct o as [[]|e]; destruct (launchProPresenter c) as [launchRes|e'];
      simpl; rewrite Hc; simpl;
      repeat (apply List.Forall_cons; [intros ?; discriminate|]);
      (apply Forall_app; split; [exact Hf|]);
      repeat (apply List.Forall_cons; [intros ?; discriminate|]); constructor.
  - simpl.
    match goal with
    | |- context [forEach _ 0 (items pl) ?st0] =>
        destruct (forEach_targets U p c matches entries (items pl) [] st0)
          as (added & Hc & Hf);
        simpl in Hc;
        destruct (forEach (processItem U p c matches entries) 0 (items pl) st0) as [o st']
    end.
    simpl in Hc, Hf.
    destruct o as [[]|e]; simpl; rewrite Hc; simpl;
      repeat (apply List.Forall_cons; [intros ?; discriminate|]); exact Hf.
Qed.

End WriteFacts.

Module TopicsFacts.
Import JS Unicode Media Topics JSFacts LyricsWrapFacts NotesFacts.

Lemma replaceRuns_snoc (cls : N -> bool) (l : str) (d : N) :
  cls d = false ->
  forall inRun : bool, replaceRuns cls inRun (l ++ [d]) = replaceRuns cls inRun l ++ [d].
Proof.
  intros Hd. induction l as [|c l IH]; intros inRun; simpl.
  - now rewrite Hd.
  - destruct (cls c); [destruct inRun|]; rewrite IH; reflexivity.
Qed.

Lemma loose_spaced (s : str) :
  forall p : bool,
    looselySpaced p s = true ->
    (exists t d, s = t ++ [d] /\ isWhite d = false) ->
    spaced p s = true.
Proof.
  induction s as [|c s IH]; intros p H (t & d & E & Hd).
  - now destruct t.
  - simpl in *.
    assert (s = [] /\ c = d \/ exists t', s = t' ++ [d]) as [[-> ->]|[t' ->]].
    { destruct t as [|c' t']; simpl in E; injection E as -> E.
      - now left.
      - right. now exists t'. }
    + destruct (d =? 32) eqn:Hsp.
      * apply N.eqb_eq in Hsp. subst d. discriminate.
      * rewrite Hd. reflexivity.
    + destruct (c =? 32).
      * apply andb_true_iff in H as [Hp H]. rewrite Hp. simpl.
        apply IH; [exact H | eauto].
      * apply andb_true_iff in H as [Hc H]. rewrite Hc. simpl.
        apply IH; [exact H | eauto].
Qed.

(** A trimmed text that is not empty starts and ends with a unit that is
    not white space. *)
Lemma trimmed_ends (z : str) :
  trim z <> [] ->
  (exists c t, trim z = c :: t /\ isWhite c = false)
  /\ (exists t d, trim z = t ++ [d] /\ isWhite d = false).
Proof.
  intros Hne. split.
  - pose proof (trim_head z) as H. destruct (trim z) as [|c t]; [easy|]. eauto.
  - destruct (exists_last Hne) as (t & d & E). exists t, d. split; [exact E|].
    apply (trimmed_last t d). rewrite <- E. apply trim_idem.
Qed.

Lemma collapse_trimmed (z : str) :
  trim z <> [] -> spaced true (collapseWhite (trim z)) = true.
Proof.
  intros Hne. destruct (trimmed_ends z Hne) as ((c & t & E1 & Hc) & (t' & d & E2 & Hd)).
  assert (looselySpaced false (collapseWhite (trim z)) = true) as Hl
    by apply collapseWhite_loose.
  assert (exists u e, collapseWhite (trim z) = u ++ [e] /\ isWhite e = false) as Hlast.
  { rewrite E2. unfold collapseWhite. rewrite replaceRuns_snoc by exact Hd. eauto. }
  pose proof (loose_spaced _ false Hl Hlast) as Hs.
  rewrite E1 in *. unfold collapseWhite in *. simpl in *. rewrite Hc in *.
  simpl in *. destruct (c =? 32) eqn:Hsp.
  - apply N.eqb_eq in Hsp. subst c. discriminate.
  - rewrite Hc in *. exact Hs.
Qed.

Definition tidyTopic (t : str) : Prop :=
  t <> [] /\ trim t = t /\ collapseWhite t = t
  /\ Forall (fun c => isWhite c = true -> c = 32) t.

Lemma spaced_tidy (t : str) : spaced true t = true -> tidyTopic t.
Proof.
  intros H. split; [|split; [|split]].
  - intros ->. discriminate.
  - now apply spaced_trim.
  - now apply (spaced_collapse t true false).
  - now apply (spaced_units t true).
Qed.

Lemma topicOfLine_tidy (rawLine : str) : Forall tidyTopic (topicOfLine rawLine).
Proof.
  unfold topicOfLine.
  destruct (isEmpty (trim rawLine)); [constructor|].
  destruct (isEmpty (trim (removeFirst LEADING_TOPIC_PATTERN (trim rawLine)))) eqn:He;
    [constructor|].
  destruct (Regex.test cueWord _); [constructor|].
  constructor; [|constructor].
  apply spaced_tidy, collapse_trimmed. now apply isEmpty_false.
Qed.

(** X12. Every topic that [extractTransitionTopics] reads off a description
    is not empty, has no white space at its ends, and its only white space
    is single spaces between words (so no line break and no tab). *)
Theorem extractTransitionTopics_tidy (description : str) :
  Forall (fun t => t <> [] /\ trim t = t /\ collapseWhite t = t
                   /\ Forall (fun c => isWhite c = true -> c = 32) t)
    (extractTransitionTopics description).
Proof.
  unfold extractTransitionTopics.
  induction (splitLines false _) as [|line lines IH]; simpl; [constructor|].
  apply Forall_app. split; [apply topicOfLine_tidy | exact IH].
Qed.

Lemma findManualMediaMatch_found (U : UnicodeTables) (topic : str)
  (items : list MediaPlaylistItem) (overrideTarget : option str) (m : MediaMatch) (r : str) :
  findManualMediaMatch U topic items overrideTarget = Some (m, r) ->
  In (item m) items /\ score m = Number.ofZ 100
  /\ normalizeMediaKey U (name (item m)) = normalizeMediaKey U r.
Proof.
  unfold findManualMediaMatch.
  set (rule := match overrideTarget with Some (c :: r0) => Some (c :: r0) | _ => _ end).
  destruct rule as [targetName|]; [|discriminate].
  destruct (List.find _ items) as [source|] eqn:Hfind; [|discriminate].
  intros [= <- <-]. apply find_some in Hfind as [Hin Heq].
  apply eqb_eq in Heq. simpl. auto.
Qed.

Lemma selectMediaMatch_found (U : UnicodeTables) (clock : nat -> Z) (topic : str)
  (items : list MediaPlaylistItem) (best : MediaMatch) :
  selectMediaMatch U clock topic items = Some best -> In (item best) items.
Proof.
  unfold selectMediaMatch.
  destruct (isEmpty topic || (length items =? 0)%nat) eqn:Hguard; [discriminate|].
  destruct (isEmpty (canonicalTopic U topic)); [discriminate|].
  pose proof (MediaFacts.scanItems_spec U clock topic items 0 None 0) as Hscan.
  destruct (scanItems U clock topic items 0 None) as [b|].
  - intros [= <-]. destruct Hscan as (ir & [[? _]|(k & it & Hk & _ & ->)] & _);
      [discriminate | discriminate |].
    simpl. eapply nth_error_In, Hk.
  - destruct Hscan as [_ ->]; [discriminate|].
    apply orb_false_iff in Hguard as [_ Hlen]. discriminate.
Qed.

Section Payload.

Variable U : UnicodeTables.
Variable Photo : Type.
Variable resolveTopicPhotos : str -> option (list Photo).
Variable clock : nat -> nat -> Z.

Abbreviation mediaKey := (mediaKey U).
Abbreviation removeKey := (removeKey U).
Abbreviation assignMedia := (assignMedia U Photo resolveTopicPhotos clock).
Abbreviation state := (loopState Photo).

Lemma removeKey_length (m : MediaPlaylistItem) (l : list MediaPlaylistItem) :
  In m l -> S (length (removeKey (mediaKey m) l)) = length l.
Proof.
  induction l as [|e l IH]; intros Hin; [destruct Hin|]. simpl.
  destruct (eqb (mediaKey e) (mediaKey m)) eqn:He; [reflexivity|].
  simpl. f_equal. apply IH. destruct Hin as [->|Hin]; [|exact Hin].
  now rewrite eqb_refl in He.
Qed.

Lemma removeKey_incl (k : str) (l : list MediaPlaylistItem) (x : MediaPlaylistItem) :
  In x (removeKey k l) -> In x l.
Proof.
  induction l as [|e l IH]; simpl; [tauto|].
  destruct (eqb (mediaKey e) k); simpl; [tauto|]. intros [->|H]; auto.
Qed.

Lemma removeKey_keys (m : MediaPlaylistItem) (l : list MediaPlaylistItem) :
  List.NoDup (List.map mediaKey l) -> In m l ->
  List.NoDup (List.map mediaKey (removeKey (mediaKey m) l))
  /\ ~ In (mediaKey m) (List.map mediaKey (removeKey (mediaKey m) l)).
Proof.
  induction l as [|e l IH]; intros Hnd Hin; [destruct Hin|].
  simpl in Hnd. apply List.NoDup_cons_iff in Hnd as [Hfresh Hnd]. simpl.
  destruct (eqb (mediaKey e) (mediaKey m)) eqn:He.
  - apply eqb_eq in He. rewrite <- He. split; assumption.
  - assert (mediaKey e <> mediaKey m) as Hne
      by (intros E; rewrite E, eqb_refl in He; discriminate).
    destruct Hin as [->|Hin]; [congruence|].
    destruct (IH Hnd Hin) as [Hnd' Hout]. simpl. split.
    + apply List.NoDup_cons_iff. split; [|exact Hnd'].
      intros Hk. apply Hfresh. apply in_map_iff in Hk as (x & Ex & Hx).
      apply in_map_iff. exists x. split; [exact Ex | eapply removeKey_incl, Hx].
    + intros [E|Hk]; [congruence | contradiction].
Qed.

(** What an entry of the payload holds, for the assets [items] it was
    chosen from. *)
Definition entryFrom (items : list MediaPlaylistItem) (e : TransitionTopicSpec Photo) : Prop :=
  In (item (media Photo e)) items
  /\ hasFilePath (item (media Photo e)) = true
  /\ Number.ge (score (media Photo e)) MIN_TRANSITION_MEDIA_SCORE = true
  /\ spec_topic Photo e <> [] /\ trim (spec_topic Photo e) = spec_topic Photo e
  /\ match gallery Photo e with
     | None => True
     | Some g =>
         g <> [] /\ topicRequestsPhotos (spec_topic Photo e) = true
         /\ resolveTopicPhotos (spec_topic Photo e) = Some g
     end.

(** One round of the loop either leaves the free assets and the payload as
    they are, or takes one free asset and appends one entry for it. *)
Lemma assignMedia_step (st : state) (o : TopicOverrideSpec) :
  (available Photo (assignMedia st o) = available Photo st
   /\ topicPayload Photo (assignMedia st o) = topicPayload Photo st)
  \/ exists e,
       entryFrom (available Photo st) e
       /\ available Photo (assignMedia st o)
          = removeKey (mediaKey (item (media Photo e))) (available Photo st)
       /\ topicPayload Photo (assignMedia st o) = topicPayload Photo st ++ [e].
Proof.
  unfold Topics.assignMedia.
  destruct (isEmpty (trim (topic o))) eqn:Hempty; [now left|].
  apply isEmpty_false in Hempty.
  set (topicText := trim (topic o)) in *.
  set (galleryItems := if topicRequestsPhotos topicText then _ else None).
  assert (match match galleryItems with Some (g :: gs) => Some (g :: gs) | _ => None end with
          | None => True
          | Some g => g <> [] /\ topicRequestsPhotos topicText = true
                      /\ resolveTopicPhotos topicText = Some g
          end) as Hgallery.
  { subst galleryItems. destruct (topicRequestsPhotos topicText); [|exact I].
    destruct (resolveTopicPhotos topicText) as [[|g gs]|]; try exact I.
    repeat split; discriminate. }
  set (entry := fun m : MediaMatch =>
                  {| spec_topic := topicText; media := m;
                     gallery := match galleryItems with
                                | Some (g :: gs) => Some (g :: gs)
                                | _ => None
                                end |}).
  destruct (length (available Photo st) =? 0)%nat eqn:Hlen; [now left|].
  destruct (findManualMediaMatch U _ (available Photo st) (manualTarget o))
    as [[m r]|] eqn:Hmanual.
  - apply findManualMediaMatch_found in Hmanual as (Hin & Hscore & _).
    destruct (hasFilePath (item m)) eqn:Hpath; [|now left].
    right. exists (entry m). split; [|split; reflexivity].
    unfold entryFrom. simpl. rewrite Hscore.
    repeat split; try assumption; apply trim_idem.
  - destruct (selectMediaMatch U _ topicText (available Photo st)) as [c|] eqn:Hauto;
      [|now left].
    apply selectMediaMatch_found in Hauto.
    destruct (hasFilePath (item c)) eqn:Hpath; [|now left]. simpl.
    destruct (Number.ge (score c) MIN_TRANSITION_MEDIA_SCORE) eqn:Hcmp; [|now left].
    rewrite Hpath. right. exists (entry c). split; [|split; reflexivity].
    unfold entryFrom. simpl.
    repeat split; try assumption; apply trim_idem.
Qed.

(** What the loops keep true, for the assets [items] they start from. *)
Definition kept (items : list MediaPlaylistItem) (st : state) : Prop :=
  incl (available Photo st) items
  /\ Forall (entryFrom items) (topicPayload Photo st)
  /\ (length (topicPayload Photo st) + length (available Photo st))%nat = length items
  /\ (List.NoDup (List.map mediaKey items) ->
      List.NoDup (List.map mediaKey (available Photo st))
      /\ List.NoDup (List.map (fun e => mediaKey (item (media Photo e))) (topicPayload Photo st))
      /\ forall e, In e (topicPayload Photo st) ->
           ~ In (mediaKey (item (media Photo e))) (List.map mediaKey (available Photo st))).

Lemma entryFrom_incl (l items : list MediaPlaylistItem) (e : TransitionTopicSpec Photo) :
  incl l items -> entryFrom l e -> entryFrom items e.
Proof. intros Hincl (Hin & H). split; [now apply Hincl | exact H]. Qed.

Lemma assignMedia_kept (items : list MediaPlaylistItem) (st : state) (o : TopicOverrideSpec) :
  kept items st -> kept items (assignMedia st o).
Proof.
  intros (Hincl & Hall & Hlen & Hkeys). unfold kept.
  destruct (assignMedia_step st o) as [[-> ->]|(e & He & -> & ->)].
  - repeat split; try assumption; now apply Hkeys.
  - pose proof He as (Hin & _).
    split; [|split; [|split]].
    + intros x Hx. apply Hincl. eapply removeKey_incl, Hx.
    + apply Forall_app. split; [exact Hall|].
      constructor; [|constructor]. eapply entryFrom_incl; eassumption.
    + rewrite length_app. simpl. pose proof (removeKey_length _ _ Hin). lia.
    + intros Hnd. destruct (Hkeys Hnd) as (Hav & Hpay & Hsep).
      destruct (removeKey_keys _ _ Hav Hin) as [Hav' Hout].
      split; [exact Hav'|]. split.
      * rewrite map_app. simpl.
        apply List.NoDup_app; [exact Hpay | repeat constructor; intros [] |].
        intros k Hk [<-|[]]. apply in_map_iff in Hk as (e' & Ek & He').
        apply (Hsep e' He'). rewrite Ek. apply in_map. exact Hin.
      * intros e' He' Hk. apply in_app_iff in He' as [He'|[<-|[]]].
        -- apply (Hsep e' He'). apply in_map_iff in Hk as (x & Ex & Hx).
           apply in_map_iff. exists x. split; [exact Ex | eapply removeKey_incl, Hx].
        -- contradiction.
Qed.

Lemma overrides_kept (items : list MediaPlaylistItem) (os : list TopicOverrideSpec) :
  forall st : state, kept items st -> kept items (fold_left assignMedia os st).
Proof.
  induction os as [|o os IH]; intros st H; simpl; [exact H|].
  apply IH, assignMedia_kept, H.
Qed.

Lemma topics_kept (items : list MediaPlaylistItem) (topics : list str) :
  forall st : state,
    kept items st ->
    kept items
      (fold_left (fun st originalTopic =>
                    fold_left assignMedia (deriveTopicOverrides U originalTopic) st)
         topics st).
Proof.
  induction topics as [|t topics IH]; intros st H; simpl; [exact H|].
  apply IH, overrides_kept, H.
Qed.

Definition assets (titlesMediaItems : option (list MediaPlaylistItem))
  : list MediaPlaylistItem :=
  match titlesMediaItems with Some l => l | None => [] end.

Lemma topicMedia_kept (topics : list str)
  (titlesMediaItems : option (list MediaPlaylistItem)) :
  let items := assets titlesMediaItems in
  let payload := topicMedia U Photo resolveTopicPhotos clock topics titlesMediaItems in
  Forall (entryFrom items) payload
  /\ (length payload <= length items)%nat
  /\ (List.NoDup (List.map mediaKey items) ->
      List.NoDup (List.map (fun e => mediaKey (item (media Photo e))) payload)).
Proof.
  intros items payload. subst payload. unfold topicMedia.
  destruct topics as [|t topics].
  { split; [constructor|]. split; [simpl; lia|]. intros _. constructor. }
  fold (assets titlesMediaItems). fold items.
  set (start := {| available := items; topicPayload := []; selections := 0 |}).
  assert (kept items start) as Hstart.
  { split; [apply incl_refl|]. split; [constructor|]. split; [reflexivity|].
    intros Hnd. split; [exact Hnd|]. split; [constructor|]. intros e []. }
  pose proof (topics_kept items (t :: topics) start Hstart) as (_ & Hall & Hlen & Hkeys).
  split; [exact Hall|]. split; [lia|]. intros Hnd. now apply Hkeys.
Qed.

(** X13. Every entry of the topic payload of a transition uses an asset of
    the titles playlist that has a file path and a score of at least 15, for
    a topic text that is trimmed and not empty; a gallery is attached only
    to a topic that asks for photos and is never empty.  There are never
    more entries than assets. *)
Theorem topicMedia_entries (topics : list str)
  (titlesMediaItems : option (list MediaPlaylistItem)) :
  let items := match titlesMediaItems with Some l => l | None => [] end in
  let payload := topicMedia U Photo resolveTopicPhotos clock topics titlesMediaItems in
  Forall (fun e =>
            In (item (media Photo e)) items
            /\ hasFilePath (item (media Photo e)) = true
            /\ Number.ge (score (media Photo e)) MIN_TRANSITION_MEDIA_SCORE = true
            /\ spec_topic Photo e <> [] /\ trim (spec_topic Photo e) = spec_topic Photo e
            /\ match gallery Photo e with
               | None => True
               | Some g =>
                   g <> [] /\ topicRequestsPhotos (spec_topic Photo e) = true
                   /\ resolveTopicPhotos (spec_topic Photo e) = Some g
               end) payload
  /\ (length payload <= length items)%nat.
Proof.
  intros items payload.
  destruct (topicMedia_kept topics titlesMediaItems) as (Hall & Hlen & _).
  split; [exact Hall | exact Hlen].
Qed.

(** X14. When the assets of the titles playlist have distinct uuids (up to
    case and surrounding white space), no asset is used for two topics. *)
Theorem topicMedia_no_reuse (topics : list str) (items : list MediaPlaylistItem)
  (Hdistinct : List.NoDup (List.map (fun it => toLowerCase U (trim (uuid it))) items)) :
  List.NoDup (List.map (fun e => toLowerCase U (trim (uuid (item (media Photo e)))))
           (topicMedia U Photo resolveTopicPhotos clock topics (Some items))).
Proof.
  destruct (topicMedia_kept topics (Some items)) as (_ & _ & Hkeys).
  apply Hkeys, Hdistinct.
Qed.

End Payload.

Definition nextStepsLoop : MediaPlaylistItem :=
  {| uuid := lit "A1"; name := lit "Next Steps"; updatedAt := None;
     keywords := [lit "next steps"]; filePath := Some (lit "/media/next.mov") |}.
Definition youthLoop : MediaPlaylistItem :=
  {| uuid := lit "b2 "; name := lit "LIFE Youth Jr"; updatedAt := None;
     keywords := [lit "life youth jr"]; filePath := Some (lit "/media/youth.mov") |}.

Lemma topicMedia_no_reuse_witness :
  let topics := [lit "Next Step Story"; lit "Dismiss LIFE Youth Jr"; lit "next steps"] in
  let items := [nextStepsLoop; youthLoop] in
  List.NoDup (List.map (fun it => toLowerCase asciiTables (trim (uuid it))) items)
  /\ List.NoDup
       (List.map (fun e => toLowerCase asciiTables (trim (uuid (item (media Datatypes.unit e)))))
          (topicMedia asciiTables Datatypes.unit (fun _ => None) (fun _ _ => 0%Z) topics
             (Some items))).
Proof.
  intros topics items.
  assert (List.NoDup (List.map (fun it => toLowerCase asciiTables (trim (uuid it))) items))
    as Hdistinct.
  { vm_compute. constructor; [|constructor; [|constructor]].
    - intros [H|[]]. discriminate H.
    - intros []. }
  split; [exact Hdistinct|].
  exact (topicMedia_no_reuse asciiTables Datatypes.unit (fun _ => None) (fun _ _ => 0%Z)
           topics items Hdistinct).
Defined.

(** X15. The key under which media names are compared is a fixed point of
    [normalizeMediaKey]: normalizing a key again changes nothing. *)
Theorem normalizeMediaKey_idempotent (U : UnicodeTables) (input : str) :
  normalizeMediaKey U (normalizeMediaKey U input) = normalizeMediaKey U input.
Proof.
  unfold normalizeMediaKey at 2.
  set (z := normalizeNFKD U (toLowerCase U input)).
  pose proof (TitleFacts.normalized_shape z) as Hshape. simpl in Hshape.
  set (y := trim (replaceRuns Title.notLowerAlnum false z)) in *.
  assert (trim y = y) as Htrim by apply trim_idem.
  assert (Forall (fun c => c = 32 \/ Title.notLowerAlnum c = false) y) as Hunits.
  { destruct Hshape as [->|H]; [constructor | now apply (TitleFacts.strict_units y true)]. }
  assert (replaceRuns Title.notLowerAlnum false y = y) as Hruns.
  { destruct Hshape as [->|H]; [reflexivity|].
    apply (TitleFacts.strict_replaceRuns y true false); [discriminate | exact H]. }
  unfold normalizeMediaKey.
  rewrite (toLowerCase_ascii U y (TitleFacts.units_ascii y Hunits)),
    (TitleFacts.units_lower y Hunits).
  rewrite (normalizeNFKD_ascii U y (TitleFacts.units_ascii y Hunits)).
  now rewrite Hruns.
Qed.

End TopicsFacts.

Module RegexFacts.
Import JS Unicode Regex JSFacts.

(** The input left after the units of a class at its head. *)
Fixpoint past (class : N -> bool) (before : option N) (s : str) : option N * str :=
  match s with
  | c :: t => if class c then past class (Some c) t else (before, s)
  | [] => (before, [])
  end.

(** A greedy run of a class, followed by something that cannot start with a
    unit of the class, takes the whole run. *)
Lemma star_class (class : N -> bool) (k : option N -> str -> option str) :
  (forall b c t, class c = true -> k b (c :: t) = None) ->
  forall (before : option N) (s : str),
    matchAt (Star (Unit class)) before s k
    = k (fst (past class before s)) (snd (past class before s)).
Proof.
  intros Hk before s. cbn [matchAt].
  remember (length s) as fuel eqn:E.
  assert (length s <= fuel)%nat as Hfuel by lia. clear E.
  revert before s Hfuel.
  induction fuel as [|fuel IH]; intros before s Hfuel.
  - destruct s; [reflexivity | simpl in Hfuel; lia].
  - destruct s as [|c t]; [reflexivity|]. cbn [past].
    destruct (class c) eqn:Hc; [|reflexivity].
    assert ((length t <? length (c :: t))%nat = true) as ->
      by (apply Nat.ltb_lt; simpl; lia).
    rewrite IH by (simpl in Hfuel; lia).
    destruct (k (fst (past class (Some c) t)) (snd (past class (Some c) t))) eqn:Hrest;
      [reflexivity|].
    now apply Hk.
Qed.

(** A text between two delimiters, as the patterns [<[^>]+>] and
    [\[[^\]]+\]] take it: the input left after the first closing delimiter. *)
Fixpoint afterClose (closing : N) (s : str) : option str :=
  match s with
  | [] => None
  | c :: t => if c =? closing then Some t else afterClose closing t
  end.

Definition delimitedAt (opening closing : N) (s : str) : option str :=
  match s with
  | x :: y :: t =>
      if (opening =? x) && negb (y =? closing) then afterClose closing t else None
  | _ => None
  end.

Definition delimited (opening closing : N) : regex :=
  seqs [unit opening; plus (Unit (fun c => negb (c =? closing))); unit closing].

Lemma past_afterClose (closing : N) (s : str) :
  forall before : option N,
    match snd (past (fun c => negb (c =? closing)) before s) with
    | c :: t => if closing =? c then Some t else None
    | [] => None
    end = afterClose closing s.
Proof.
  induction s as [|c t IH]; intros before; simpl; [reflexivity|].
  destruct (c =? closing) eqn:Hc; simpl.
  - apply N.eqb_eq in Hc. subst c. now rewrite N.eqb_refl.
  - apply IH.
Qed.

Lemma delimited_matchHere (opening closing : N) (before : option N) (s : str) :
  matchHere (delimited opening closing) before s = delimitedAt opening closing s.
Proof.
  unfold matchHere, delimited, delimitedAt, plus, unit. cbn [seqs].
  cbn [matchAt].
  destruct s as [|x [|y t]]; [reflexivity | now destruct (opening =? x) |].
  destruct (opening =? x); [|reflexivity]. cbn [andb].
  destruct (negb (y =? closing)) eqn:Hy; [|reflexivity].
  change ((fix iterate (fuel : nat) (before0 : option N) (s0 : str) {struct fuel} := _)
            (length t) (Some y) t)
    with (matchAt (Star (Unit (fun c => negb (c =? closing)))) (Some y) t
            (fun before' t0 =>
               matchAt (Unit (N.eqb closing)) before' t0 (fun _ rest => Some rest))).
  rewrite star_class.
  - cbn [matchAt]. apply past_afterClose.
  - intros b c t0 Hc. cbn [matchAt]. apply negb_true_iff in Hc.
    rewrite N.eqb_sym. now rewrite Hc.
Qed.

Lemma afterClose_split (closing : N) (s rest : str) :
  afterClose closing s = Some rest ->
  exists inner, s = inner ++ closing :: rest /\ Forall (fun c => c <> closing) inner.
Proof.
  revert rest. induction s as [|c t IH]; intros rest; simpl; [discriminate|].
  destruct (c =? closing) eqn:Hc.
  - intros [= <-]. apply N.eqb_eq in Hc. subst c. exists []. split; [reflexivity | constructor].
  - intros H. destruct (IH rest H) as (inner & -> & Hinner).
    exists (c :: inner). split; [reflexivity|].
    constructor; [now apply N.eqb_neq | exact Hinner].
Qed.

Lemma afterClose_absent (closing : N) (s : str) :
  Forall (fun c => c <> closing) s -> afterClose closing s = None.
Proof.
  intros H. induction H as [|c t Hc _ IH]; simpl; [reflexivity|].
  apply N.eqb_neq in Hc. now rewrite Hc.
Qed.

(** A match of a delimited text: the opening delimiter, one unit or more
    other than the closing delimiter, and the closing delimiter. *)
Lemma delimitedAt_split (opening closing : N) (s rest : str) :
  delimitedAt opening closing s = Some rest ->
  exists inner,
    s = opening :: inner ++ closing :: rest
    /\ inner <> [] /\ Forall (fun c => c <> closing) inner.
Proof.
  unfold delimitedAt. destruct s as [|x [|y t]]; try discriminate.
  destruct (opening =? x) eqn:Hx; [|discriminate].
  destruct (y =? closing) eqn:Hy; [discriminate|]. simpl.
  intros H. apply afterClose_split in H as (inner & -> & Hinner).
  apply N.eqb_eq in Hx. subst x. exists (y :: inner).
  split; [reflexivity|]. split; [discriminate|].
  constructor; [now apply N.eqb_neq | exact Hinner].
Qed.

(** The units of a text after a replacement are those of the text and of
    the replacement. *)
Lemma replaceFrom_units (P : N -> Prop) (r : regex) (rep : str) (s : str) :
  Forall P rep -> Forall P s ->
  forall (skip : nat) (before : option N), Forall P (replaceFrom r rep skip before s).
Proof.
  intros Hrep Hs. induction Hs as [|c t Hc Ht IH]; intros skip before.
  - destruct skip; simpl; [|constructor].
    destruct (matchHere r before []); [exact Hrep | constructor].
  - destruct skip as [|n]; cbn [replaceFrom]; [|apply IH].
    destruct (matchHere r before (c :: t)) as [rest|].
    + destruct (length (c :: t) - length rest)%nat.
      * apply Forall_app. split; [exact Hrep|]. constructor; [exact Hc | apply IH].
      * apply Forall_app. split; [exact Hrep | apply IH].
    + constructor; [exact Hc | apply IH].
Qed.

(** A pattern that needs a unit which the text does not have changes
    nothing. *)
Lemma replaceFrom_absent (r : regex) (rep : str) (s : str) :
  (forall before t, t = [] \/ incl t s -> matchHere r before t = None) ->
  forall before : option N, replaceFrom r rep 0 before s = s.
Proof.
  induction s as [|c t IH]; intros Hnone before; cbn [replaceFrom].
  - now rewrite Hnone by now left.
  - rewrite Hnone by (right; apply incl_refl). f_equal. apply IH.
    intros b u [->|Hu]; apply Hnone; [now left | right].
    now apply incl_tl.
Qed.

End RegexFacts.

(** ** No tag is left by [stripHtml] *)

Module MarkupFacts.
Import JS Unicode Regex Notes JSFacts RegexFacts.

(** No tag starts at any position of the text. *)
Fixpoint tagFree (s : str) : bool :=
  match s with
  | [] => true
  | _ :: t =>
      match delimitedAt 60 62 s with
      | Some _ => false
      | None => tagFree t
      end
  end.

Lemma anyTag_matchHere (before : option N) (s : str) :
  matchHere anyTag before s = delimitedAt 60 62 s.
Proof. apply (delimited_matchHere 60 62). Qed.

Lemma tagFree_search (s : str) :
  forall (before : option N) (index : nat),
    tagFree s = true -> search anyTag before s index = None.
Proof.
  induction s as [|c t IH]; intros before index H.
  - cbn [search]. now rewrite anyTag_matchHere.
  - cbn [search]. rewrite anyTag_matchHere. cbn [tagFree] in H.
    destruct (delimitedAt 60 62 (c :: t)); [discriminate|]. now apply IH.
Qed.

Lemma afterClose_none (closing : N) (s : str) :
  afterClose closing s = None -> Forall (fun c => c <> closing) s.
Proof.
  induction s as [|c t IH]; simpl; [constructor|].
  destruct (c =? closing) eqn:Hc; [discriminate|].
  intros H. constructor; [now apply N.eqb_neq | now apply IH].
Qed.

Lemma tagFree_cons (c : N) (s : str) : c <> 60 -> tagFree (c :: s) = tagFree s.
Proof.
  intros Hc. cbn [tagFree]. unfold delimitedAt.
  assert ((60 =? c) = false) as E by (apply N.eqb_neq; congruence).
  destruct s; [reflexivity|]. now rewrite E.
Qed.

(** Where no tag starts in the text, none starts in the text after the
    replacement. *)
Lemma untagged_head (c : N) (t : str) (before : option N) :
  delimitedAt 60 62 (c :: t) = None ->
  delimitedAt 60 62 (c :: replaceFrom anyTag [32] 0 before t) = None.
Proof.
  intros Htag. unfold delimitedAt in *.
  destruct (60 =? c) eqn:Hc; [|now destruct (replaceFrom anyTag [32] 0 before t)].
  destruct t as [|y t'].
  { cbn [replaceFrom]. now rewrite anyTag_matchHere. }
  cbn [andb] in Htag. destruct (y =? 62) eqn:Hy.
  - apply N.eqb_eq in Hy. subst y. cbn [replaceFrom].
    rewrite anyTag_matchHere.
    assert (delimitedAt 60 62 (62 :: t') = None) as ->
      by (unfold delimitedAt; now destruct t').
    reflexivity.
  - cbn [negb] in Htag. apply afterClose_none in Htag.
    assert (Forall (fun c => c <> 62) (replaceFrom anyTag [32] 0 before (y :: t'))) as Hout.
    { apply replaceFrom_units.
      - constructor; [discriminate | constructor].
      - constructor; [now apply N.eqb_neq | exact Htag]. }
    destruct (replaceFrom anyTag [32] 0 before (y :: t')) as [|z out]; [reflexivity|].
    apply List.Forall_cons_iff in Hout as [Hz Hout].
    destruct (negb (z =? 62)); [|reflexivity].
    cbn [andb]. now apply afterClose_absent.
Qed.

Lemma replaced_tagFree (s : str) :
  forall (skip : nat) (before : option N),
    tagFree (replaceFrom anyTag [32] skip before s) = true.
Proof.
  induction s as [|c t IH]; intros skip before.
  - destruct skip; [|reflexivity]. cbn [replaceFrom]. now rewrite anyTag_matchHere.
  - destruct skip as [|n]; cbn [replaceFrom]; [|apply IH].
    rewrite anyTag_matchHere.
    destruct (delimitedAt 60 62 (c :: t)) as [rest|] eqn:Htag.
    + destruct (length (c :: t) - length rest)%nat eqn:Hlen.
      * apply delimitedAt_split in Htag as (inner & E & _).
        apply (f_equal (@length N)) in E. simpl in E.
        rewrite length_app in E. simpl in *. lia.
      * change ([32] ++ ?x) with (32 :: x).
        rewrite tagFree_cons by discriminate. apply IH.
    + cbn [tagFree]. rewrite (untagged_head c t (Some c) Htag). apply IH.
Qed.

(** X16. The text [stripHtml] returns holds no tag: the tag pattern
    [<[^>]+>] matches nowhere in it.  A text without [<] is returned as it
    is. *)
Theorem stripHtml_no_tag (text : str) :
  test anyTag (stripHtml text) = false
  /\ (Forall (fun c => c <> 60) text -> stripHtml text = text).
Proof.
  split.
  - unfold test, stripHtml, replaceAll.
    now rewrite tagFree_search by apply replaced_tagFree.
  - intros Hplain. unfold stripHtml, replaceAll.
    assert (forall (r : regex) (rep : str) (before : option N),
              (exists rest, r = Seq (unit 60) rest) ->
              replaceFrom r rep 0 before text = text) as Hsame.
    { intros r rep before [rest ->]. apply replaceFrom_absent.
      intros b t Ht. unfold matchHere. cbn [matchAt unit].
      destruct t as [|x t']; [reflexivity|].
      destruct Ht as [Ht|Ht]; [discriminate|].
      assert (x <> 60) as Hx.
      { rewrite List.Forall_forall in Hplain. apply Hplain, Ht. now left. }
      assert ((60 =? x) = false) as -> by (apply N.eqb_neq; congruence).
      reflexivity. }
    rewrite (Hsame lineBreakTag) by (unfold lineBreakTag; cbn [seqs]; eauto).
    rewrite (Hsame paragraphEndTag) by (unfold paragraphEndTag; cbn [seqs]; eauto).
    apply Hsame. unfold anyTag. cbn [seqs]. eauto.
Qed.

End MarkupFacts.

(** ** The name in brackets of a transition title *)

Module BracketFacts.
Import JS Unicode Regex LowerThird JSFacts RegexFacts.

(** A text in brackets of [s]: one unit or more, none of them [\]]. *)
Definition bracketedIn (s found : str) : Prop :=
  exists pre inner post,
    s = pre ++ found ++ post /\ found = 91 :: inner ++ [93]
    /\ inner <> [] /\ Forall (fun c => c <> 93) inner.

Lemma bracketedIn_cons (c : N) (s found : str) :
  bracketedIn s found -> bracketedIn (c :: s) found.
Proof.
  intros (pre & inner & post & -> & H). exists (c :: pre), inner, post.
  split; [reflexivity | exact H].
Qed.

Lemma matchAll_bracketed (s : str) :
  forall (skip : nat) (before : option N),
    Forall (bracketedIn s) (matchAllFrom bracketed skip before s).
Proof.
  induction s as [|c t IH]; intros skip before.
  - destruct skip; cbn [matchAllFrom]; [|constructor].
    unfold bracketed. rewrite (delimited_matchHere 91 93). constructor.
  - assert (forall n b, Forall (bracketedIn (c :: t)) (matchAllFrom bracketed n b t)) as Hrest.
    { intros n b. eapply List.Forall_impl; [|apply IH].
      intros found. apply bracketedIn_cons. }
    destruct skip as [|n]; cbn [matchAllFrom]; [|apply Hrest].
    unfold bracketed at 1. rewrite (delimited_matchHere 91 93).
    destruct (delimitedAt 91 93 (c :: t)) as [rest|] eqn:Hfound; [|apply Hrest].
    assert (bracketedIn (c :: t) (firstn (length (c :: t) - length rest) (c :: t))) as Hin.
    { apply delimitedAt_split in Hfound as (inner & E & Hne & Hinner).
      exists [], inner, rest. rewrite E.
      assert (91 :: inner ++ 93 :: rest = (91 :: inner ++ [93]) ++ rest) as ->
        by (simpl; now rewrite <- app_assoc).
      assert (Nat.sub (length ((91 :: inner ++ [93]) ++ rest)) (length rest)
              = length (91 :: inner ++ [93])) as -> by (rewrite length_app; lia).
      rewrite firstn_app, Nat.sub_diag, firstn_all. simpl firstn at 2.
      rewrite app_nil_r. repeat split; assumption. }
    destruct (length (c :: t) - length rest)%nat;
      (constructor; [exact Hin | apply Hrest]).
Qed.

Lemma matchAll_absent (s : str) :
  Forall (fun c => c <> 91) s ->
  forall before : option N, matchAllFrom bracketed 0 before s = [].
Proof.
  intros H. induction H as [|c t Hc _ IH]; intros before; cbn [matchAllFrom];
    unfold bracketed at 1; rewrite (delimited_matchHere 91 93).
  - reflexivity.
  - unfold delimitedAt.
    assert ((91 =? c) = false) as -> by (apply N.eqb_neq; congruence).
    destruct t; apply IH.
Qed.

(** X17. The name [extractBracketedName] reads off a title is the trimmed
    content of a pair of brackets of the title: it is not empty, has no white
    space at its ends and holds no closing bracket.  A title without an
    opening bracket gives no name. *)
Theorem extractBracketedName_name (title : str) :
  match extractBracketedName title with
  | Some name =>
      name <> [] /\ trim name = name /\ Forall (fun c => c <> 93) name
      /\ exists pre inner post,
           title = pre ++ [91] ++ inner ++ [93] ++ post
           /\ Forall (fun c => c <> 93) inner /\ name = trim inner
  | None => True
  end
  /\ (Forall (fun c => c <> 91) title -> extractBracketedName title = None).
Proof.
  unfold extractBracketedName. split.
  - destruct (isEmpty title); [exact I|].
    destruct (List.find _ _) as [name|] eqn:Hfind; [|exact I].
    apply find_some in Hfind as [Hin Hne].
    apply negb_true_iff, isEmpty_false in Hne.
    apply in_map_iff in Hin as (found & <- & Hin).
    pose proof (matchAll_bracketed title 0 None) as Hall.
    rewrite List.Forall_forall in Hall.
    destruct (Hall found Hin) as (pre & inner & post & E & -> & _ & Hinner).
    assert (group (91 :: inner ++ [93]) = inner) as Hgroup
      by (unfold group; simpl tl; apply removelast_last).
    rewrite Hgroup in *.
    split; [exact Hne|]. split; [apply trim_idem|].
    split; [now apply LyricsBlankFacts.Forall_trim|].
    exists pre, inner, post. split; [|split; [exact Hinner | reflexivity]].
    rewrite E. simpl. now rewrite <- app_assoc.
  - intros Hplain. destruct (isEmpty title); [reflexivity|].
    unfold matchAll. now rewrite matchAll_absent.
Qed.

End BracketFacts.

Module EnvFacts.
Import JS Unicode Regex Env JSFacts.

(** A step of a loader keeps the variables that are set. *)
Definition keeps (step : gmap str str -> str -> gmap str str) : Prop :=
  forall (e : gmap str str) (line key value : str),
    e !! key = Some value -> value <> [] -> step e line !! key = Some value.

Lemma insert_unset (e : gmap str str) (key value other text : str) :
  e !! key = Some value -> value <> [] ->
  (if unset e other then <[other := text]> e else e) !! key = Some value.
Proof.
  intros Hset Hvalue. destruct (unset e other) eqn:Hother; [|exact Hset].
  rewrite lookup_insert_ne; [exact Hset|].
  intros ->. unfold unset in Hother. rewrite Hset in Hother.
  destruct value; [congruence | discriminate].
Qed.

Lemma localLine_keeps : keeps localLine.
Proof.
  intros e line key value Hset Hvalue. unfold localLine.
  destruct (isEmpty (trim line) || startsWith (trim line) [35]); [exact Hset|].
  destruct (indexOf (trim line) 61 0 <=? 0)%Z; [exact Hset|].
  now apply insert_unset.
Qed.

Lemma dotEnvLine_keeps : keeps dotEnvLine.
Proof.
  intros e line key value Hset Hvalue. unfold dotEnvLine.
  destruct (isEmpty (trim line) || startsWith (trim line) [35]); [exact Hset|].
  destruct (0 <? indexOf (trim line) 61 0)%Z; [now apply insert_unset|].
  destruct (test _ (trim line)); [|exact Hset]. cbn [andb].
  now apply insert_unset.
Qed.

Lemma loadRoots_keeps (step : gmap str str -> str -> gmap str str)
  (roots : list (option str)) (e : gmap str str) (key value : str) :
  keeps step -> e !! key = Some value -> value <> [] ->
  loadRoots step roots e !! key = Some value.
Proof.
  intros Hstep Hset Hvalue.
  induction roots as [|[text|] rest IH]; simpl; [exact Hset | | exact IH].
  clear IH. revert e Hset.
  induction (splitNewlines text) as [|line lines IH]; intros e Hset; simpl; [exact Hset|].
  apply IH. now apply Hstep.
Qed.

(** X18. Loading the local environment files never changes a variable of
    the environment that is set to a value that is not empty, whatever the
    files hold; and a loader that has run does nothing when called again. *)
Theorem env_files_keep_set_variables (p : process) (roots : list (option str))
  (key value : str)
  (Hset : env p !! key = Some value) (Hvalue : value <> []) :
  env (loadLocalEnvOnce p roots) !! key = Some value
  /\ env (loadDotEnvOnce p roots) !! key = Some value
  /\ (forall again,
        loadLocalEnvOnce (loadLocalEnvOnce p roots) again = loadLocalEnvOnce p roots)
  /\ (forall again,
        loadDotEnvOnce (loadDotEnvOnce p roots) again = loadDotEnvOnce p roots).
Proof.
  unfold loadLocalEnvOnce, loadDotEnvOnce.
  split; [|split; [|split]].
  - destruct (PROSYNC_ENV_LOADED p); [exact Hset|]. simpl.
    apply loadRoots_keeps; [apply localLine_keeps | exact Hset | exact Hvalue].
  - destruct (DOTENV_LOADED p); [exact Hset|]. simpl.
    apply loadRoots_keeps; [apply dotEnvLine_keeps | exact Hset | exact Hvalue].
  - intros again. destruct (PROSYNC_ENV_LOADED p) eqn:E; simpl; [now rewrite E | reflexivity].
  - intros again. destruct (DOTENV_LOADED p) eqn:E; simpl; [now rewrite E | reflexivity].
Qed.

Definition shell : process :=
  {| env := {[ lit "PCO_APP_ID" := lit "from-shell" ]};
     PROSYNC_ENV_LOADED := false; DOTENV_LOADED := false |}.

Lemma env_files_keep_set_variables_witness :
  let roots := [None; Some (lit "PCO_APP_ID=from-file" ++ [10] ++ lit "PCO_SECRET=s3")] in
  env shell !! lit "PCO_APP_ID" = Some (lit "from-shell")
  /\ env (loadLocalEnvOnce shell roots) !! lit "PCO_APP_ID" = Some (lit "from-shell")
  /\ env (loadLocalEnvOnce shell roots) !! lit "PCO_SECRET" = Some (lit "s3").
Proof.
  intros roots.
  assert (env shell !! lit "PCO_APP_ID" = Some (lit "from-shell")) as Hset
    by (vm_compute; reflexivity).
  split; [exact Hset|]. split.
  - apply (env_files_keep_set_variables shell roots (lit "PCO_APP_ID") (lit "from-shell") Hset).
    discriminate.
  - vm_compute. reflexivity.
Defined.

End EnvFacts.
